(** * Lopper: the lop interpreter of lopper.py, embedded and verified

    A shallow embedding of the parts of [LopperSDT] (lopper.py) that decide
    the properties stated at the end of this file: the assist lookup
    ([find_compatible_assist]), output dispatch ([write]), the top-level
    runqueue ([perform_lops]) and the [select], [conditional] and [modify]
    handlers of [exec_lop].  Modelled as well: the sorting of the input
    files in [setup], the module search [assist_find], the lop files the
    engine generates for the command line, the [assist-v1], [output] and
    [tree] handlers, and the command line of [main].

    Python values are modelled as follows.  A [str] is a [string]; a list is
    a [list]; a dict keyed by strings is a [gmap string _]; an object that
    may be missing or falsy is an [option]; an uncaught exception or a
    [sys.exit] is the [PyRaise] / [PyExit] outcome of a [pyresult]. *)

From Stdlib Require Import ZArith String Ascii List Bool Lia.
From stdpp Require Import base option list gmap strings sorting.

Import ListNotations.
Local Open Scope Z_scope.
Local Open Scope string_scope.
Local Open Scope list_scope.
Set Warnings "-register-all".

(** ** Python strings *)

Module PyStr.

Fixpoint drop (n : nat) (s : string) : string :=
  match n, s with
  | O, _ => s
  | S k, String _ s' => drop k s'
  | S _, EmptyString => EmptyString
  end.

Fixpoint take (n : nat) (s : string) : string :=
  match n, s with
  | S k, String c s' => String c (take k s')
  | _, _ => EmptyString
  end.

(** [s.startswith(p)] *)
Definition startswith (s p : string) : bool := String.prefix p s.

(** [sub in s] for a literal [sub] *)
Fixpoint contains (sub s : string) : bool :=
  String.prefix sub s ||
  match s with
  | EmptyString => false
  | String _ s' => contains sub s'
  end.

(** [s.endswith(p)] *)
Fixpoint endswith (s p : string) : bool :=
  String.eqb s p ||
  match s with
  | EmptyString => false
  | String _ s' => endswith s' p
  end.

(** [re.sub(suffix + "$", "", s)] for a literal suffix of a one-line [s]. *)
Definition remove_suffix (s suffix : string) : string :=
  if endswith s suffix then take (String.length s - String.length suffix) s else s.

(** [c in s] for a character [c] *)
Fixpoint has_char (c : ascii) (s : string) : bool :=
  match s with
  | EmptyString => false
  | String d s' => Ascii.eqb c d || has_char c s'
  end.

(** [s.split(sep)] for a one-character separator: never the empty list. *)
Fixpoint split (sep : ascii) (s : string) : list string :=
  match s with
  | EmptyString => [EmptyString]
  | String c s' =>
      if Ascii.eqb c sep then EmptyString :: split sep s'
      else match split sep s' with
           | h :: t => String c h :: t
           | [] => [String c EmptyString]
           end
  end.

(** [s.replace(c, '')], also [re.sub(c, '', s)] for a literal character. *)
Fixpoint remove_char (c : ascii) (s : string) : string :=
  match s with
  | EmptyString => EmptyString
  | String d s' => if Ascii.eqb c d then remove_char c s' else String d (remove_char c s')
  end.

(** [re.sub('^\!', '', s)]: one leading [c] is dropped. *)
Definition strip_leading (c : ascii) (s : string) : string :=
  match s with
  | String d s' => if Ascii.eqb c d then s' else s
  | EmptyString => EmptyString
  end.

(** [re.search(".lit", s)] for a literal [lit]: some character other than a
    newline is followed by [lit]. *)
Fixpoint search_any_then (lit s : string) : bool :=
  match s with
  | EmptyString => false
  | String c s' =>
      (negb (Ascii.eqb c "010"%char) && String.prefix lit s') || search_any_then lit s'
  end.

(** Index of the last [c] in [s], counted from 1; 0 when there is none
    (Python's [s.rfind(c) + 1]). *)
Fixpoint rfind1 (c : ascii) (s : string) : nat :=
  match s with
  | EmptyString => O
  | String d s' =>
      match rfind1 c s' with
      | O => if Ascii.eqb c d then 1%nat else O
      | S k => S (S k)
      end
  end.

(** [all(ch == c for ch in s)] *)
Fixpoint all_char (c : ascii) (s : string) : bool :=
  match s with
  | EmptyString => true
  | String d s' => Ascii.eqb c d && all_char c s'
  end.

(** [os.path.splitext(p)] (posixpath): the extension starts at the last dot
    of the last path component, leading dots of that component set aside. *)
Definition splitext (p : string) : string * string :=
  let sep := rfind1 "/"%char p in
  let dot := rfind1 "."%char p in
  if (sep <? dot)%nat then
    (* p[sep .. dot-1) is the part of the file name before the last dot *)
    let stem := take (dot - 1 - sep) (drop sep p) in
    if all_char "."%char stem then (p, EmptyString)
    else (take (dot - 1) p, drop (dot - 1) p)
  else (p, EmptyString).


(** [re.search(".lit$", s)] for a literal [lit] without newline: some
    character other than a newline is followed by [lit], at the end of [s]
    or before a newline that ends [s]. *)
Fixpoint search_any_then_end (lit s : string) : bool :=
  match s with
  | EmptyString => false
  | String c s' =>
      (negb (Ascii.eqb c "010"%char)
       && (String.eqb s' lit
           || String.eqb s' (String.append lit (String "010"%char EmptyString))))
      || search_any_then_end lit s'
  end.

(** [c.isspace()] for a character below 256: the controls 9 to 13 and 28
    to 31, the space, and the characters 133 and 160. *)
Definition is_space (c : ascii) : bool :=
  let n := nat_of_ascii c in
  ((9 <=? n)%nat && (n <=? 13)%nat) || ((28 <=? n)%nat && (n <=? 32)%nat)
  || (n =? 133)%nat || (n =? 160)%nat.

(** [s.lstrip()] *)
Fixpoint lstrip (s : string) : string :=
  match s with
  | EmptyString => EmptyString
  | String c s' => if is_space c then lstrip s' else s
  end.

(** [s.count(c)] for a character [c] *)
Fixpoint count (c : ascii) (s : string) : nat :=
  match s with
  | EmptyString => O
  | String d s' => if Ascii.eqb d c then S (count c s') else count c s'
  end.

End PyStr.

(** ** Outcomes of Python code *)

(** A computation returns, raises an exception that nothing in the modelled
    function catches, or leaves the process through [sys.exit(code)]. *)
Inductive pyresult (A : Type) : Type :=
| PyOk (a : A)
| PyRaise (exc : string)
| PyExit (code : Z).
Arguments PyOk {A} a.
Arguments PyRaise {A} exc.
Arguments PyExit {A} code.

(** ** Assists *)

(** What [is_compat] hands back and [write] / [assist-v1] later call: the
    callable is identified by a name. *)
Definition Callable := string.

(** An imported assist module: [is_compat(node, id)] returns a callable or a
    falsy value ([None] here). *)
Record AssistModule : Type := {
  is_compat : Z -> string -> option Callable
}.

(** [class LopperAssist]: [module] is [""] (falsy) until a module is loaded;
    [properties] holds the ['mask'] and ['id'] entries set by the load lop. *)
Record LopperAssist : Type := {
  a_file : string;
  a_module : option AssistModule;
  a_properties : gmap string string
}.

(** The locals of [find_compatible_assist] that live across iterations.
    [cb_f] is [None] while the name is unbound, [Some r] once it holds the
    last value [is_compat] returned. *)
Record fca_state : Type := {
  cb_func : list Callable;
  cb_id : string;
  cb_f : option (option Callable)
}.

(** [try: x = a.properties[k] except: x = ""] *)
Definition prop_or_empty (a : LopperAssist) (k : string) : string :=
  default "" (a_properties a !! k).

(** The mask test: a nonempty caller mask and a nonempty assist mask must be
    equal. *)
Definition mask_ok (mask assist_mask : string) : bool :=
  if negb (String.eqb mask "") && negb (String.eqb assist_mask "")
  then String.eqb mask assist_mask
  else true.

(** One iteration of [for a in self.assists]. *)
Definition fca_step (cb_node : Z) (mask : string) (st : fca_state) (a : LopperAssist)
  : pyresult fca_state :=
  match a_module a with
  | None => PyOk st   (* "[WARNING]: a configured assist has no module loaded" *)
  | Some m =>
      let id := if String.eqb (cb_id st) "" then prop_or_empty a "id" else cb_id st in
      let assist_mask := prop_or_empty a "mask" in
      let f := if mask_ok mask assist_mask
               then Some (is_compat m cb_node id)
               else cb_f st in
      match f with
      | None => PyRaise "UnboundLocalError"
      | Some None => PyOk {| cb_func := cb_func st; cb_id := id; cb_f := f |}
      | Some (Some c) => PyOk {| cb_func := cb_func st ++ [c]; cb_id := id; cb_f := f |}
      end
  end.

Fixpoint fca_loop (cb_node : Z) (mask : string) (st : fca_state) (l : list LopperAssist)
  : pyresult fca_state :=
  match l with
  | [] => PyOk st
  | a :: r =>
      match fca_step cb_node mask st a with
      | PyOk st' => fca_loop cb_node mask st' r
      | PyRaise e => PyRaise e
      | PyExit c => PyExit c
      end
  end.

Definition fca_init (cb_id : string) : fca_state :=
  {| cb_func := []; cb_id := cb_id; cb_f := None |}.

(** [LopperSDT.find_compatible_assist(cb_node, cb_id, mask)] *)
Definition find_compatible_assist (assists : list LopperAssist)
    (cb_node : Z) (cb_id mask : string) : pyresult (list Callable) :=
  match fca_loop cb_node mask (fca_init cb_id) assists with
  | PyOk st => PyOk (cb_func st)
  | PyRaise e => PyRaise e
  | PyExit c => PyExit c
  end.

(** *** The matching assists *)



(** Two assists that differ at most in the ['id'] they registered. *)
Definition same_but_id (x y : LopperAssist) : Prop :=
  a_module x = a_module y /\ prop_or_empty x "mask" = prop_or_empty y "mask".

(** ** Writing the output file *)

(** The fields of [LopperSDT] read by [write]. *)
Record LopperSDT : Type := {
  assists : list LopperAssist;
  verbose : Z;
  werror : bool;
  output_file : string
}.

(** What a callable does when [write] calls it: it returns a truthy or a
    falsy value, or raises. *)
Inductive cb_outcome : Type :=
| CbReturn (truthy : bool)
| CbRaise.

(** The observable steps of [write]. *)
Inductive WriteEvent : Type :=
| EvWriteFdt (filename : string) (overwrite : bool)       (* Lopper.write_fdt *)
| EvPrintDts (filename : string)                          (* LopperTreePrinter.exec *)
| EvWriteYaml (filename : string)                         (* LopperYAML.to_yaml *)
| EvAssistCall (cb : Callable) (outfile : string) (verbose : Z)
| EvWarning (msg : string).

(** [for cb_func in cb_funcs: try: ... cb_func( 0, out_tree, { 'outfile': ..., 'verbose': ... } )].
    The tree printer handed to the callable is built inside the same [try];
    building it is taken not to raise. *)
Fixpoint write_assists (sdt : LopperSDT) (cb_run : Callable -> cb_outcome)
    (fn : string) (cbs : list Callable) : list WriteEvent * pyresult unit :=
  match cbs with
  | [] => ([], PyOk tt)
  | cb :: r =>
      let call := EvAssistCall cb fn (verbose sdt) in
      match cb_run cb with
      | CbReturn true =>
          let '(ev, res) := write_assists sdt cb_run fn r in (call :: ev, res)
      | CbReturn false =>
          let '(ev, res) := write_assists sdt cb_run fn r in
          (call :: EvWarning "output assist returned false" :: ev, res)
      | CbRaise =>
          if werror sdt then ([call; EvWarning "output assist failed"], PyExit 1)
          else let '(ev, res) := write_assists sdt cb_run fn r in
               (call :: EvWarning "output assist failed" :: ev, res)
      end
  end.

(** [if not output_filename: output_filename = self.output_file] *)
Definition effective_filename (sdt : LopperSDT) (output_filename : string) : string :=
  if String.eqb output_filename "" then output_file sdt else output_filename.

(** [LopperSDT.write(fdt, output_filename, overwrite, enhanced)].
    [file_exists] answers [Path(output_filename).exists()]. *)
Definition write (sdt : LopperSDT) (file_exists : string -> bool)
    (cb_run : Callable -> cb_outcome)
    (output_filename : string) (overwrite enhanced : bool)
  : list WriteEvent * pyresult unit :=
  let fn := effective_filename sdt output_filename in
  if String.eqb fn "" then ([], PyOk tt)
  else if PyStr.search_any_then "dtb" fn then ([EvWriteFdt fn overwrite], PyOk tt)
  else if PyStr.search_any_then "dts" fn then
    if enhanced then
      if file_exists fn && negb overwrite then ([], PyExit 1)
      else ([EvPrintDts fn], PyOk tt)
    else ([EvWriteFdt fn overwrite], PyOk tt)
  else if PyStr.search_any_then "yaml" fn then
    if file_exists fn && negb overwrite then ([], PyExit 1)
    else ([EvWriteYaml fn], PyOk tt)
  else
    (* we use the outfile extension as a mask *)
    let out_ext := snd (PyStr.splitext fn) in
    match find_compatible_assist (assists sdt) 0 "" out_ext with
    | PyOk [] =>
        if werror sdt then ([], PyExit 2) else ([], PyOk tt)
    | PyOk cbs => write_assists sdt cb_run fn cbs
    | PyRaise e => ([], PyRaise e)
    | PyExit c => ([], PyExit c)
    end.


(** The event is none of the engine's own writers. *)
Definition is_assist_event (e : WriteEvent) : bool :=
  match e with
  | EvAssistCall _ _ _ | EvWarning _ => true
  | _ => false
  end.

(** The assist calls among the events, in order. *)
Definition assist_calls (evs : list WriteEvent) : list (Callable * string * Z) :=
  flat_map (fun e => match e with
                     | EvAssistCall cb f v => [(cb, f, v)]
                     | _ => []
                     end) evs.

(** ** The tree model

    [lopper_tree.py] is not part of the sources at hand; nodes, properties
    and the tree operations used by lopper.py are modelled from section 3
    and section 4.1 of the specification. *)

(** One element of a property value: values are lists of integers and
    strings. *)
Inductive pyval : Type :=
| VInt (z : Z)
| VStr (s : string).

Definition pyval_eqb (a b : pyval) : bool :=
  match a, b with
  | VInt x, VInt y => Z.eqb x y
  | VStr x, VStr y => String.eqb x y
  | _, _ => false
  end.

(** Modelled from the spec: a property has a name and a value that is
    always a list ([LopperProp] of lopper_tree.py). *)
Record LopperProp : Type := {
  p_name : string;
  p_value : list pyval
}.

(** Modelled from the spec: a node has a short name, a label ([""] when it
    has none), a phandle (0 when it has none), an ordered mapping of
    properties and an ordered list of children ([LopperNode] of
    lopper_tree.py).  The absolute path is derived from the names on the
    way from the root. *)
Inductive LopperNode : Type :=
| LNode (n_name : string) (n_label : string) (n_phandle : Z)
        (n_props : list LopperProp) (n_children : list LopperNode).

Definition n_name (n : LopperNode) : string := let 'LNode x _ _ _ _ := n in x.
Definition n_label (n : LopperNode) : string := let 'LNode _ x _ _ _ := n in x.
Definition n_phandle (n : LopperNode) : Z := let 'LNode _ _ x _ _ := n in x.
Definition n_props (n : LopperNode) : list LopperProp := let 'LNode _ _ _ x _ := n in x.
Definition n_children (n : LopperNode) : list LopperNode := let 'LNode _ _ _ _ x := n in x.

(** [node[name]]: the first property of that name; [None] stands for the
    exception raised when there is none. *)
Fixpoint find_prop (name : string) (ps : list LopperProp) : option LopperProp :=
  match ps with
  | [] => None
  | p :: r => if String.eqb (p_name p) name then Some p else find_prop name r
  end.

(** A reference to a node of a tree: the node object is identified by its
    position (the child indices on the way from the root), and carries the
    absolute path it has in that tree. *)
Record nref : Type := {
  nr_pos : list nat;
  abs_path : string;
  nr_node : LopperNode
}.

Definition nref_eqb (a b : nref) : bool := bool_decide (nr_pos a = nr_pos b).

(** [f in l] *)
Definition nref_in (f : nref) (l : list nref) : bool := existsb (nref_eqb f) l.

(** [l.remove(f)]: the first element equal to [f] is dropped. *)
Fixpoint nref_remove (f : nref) (l : list nref) : list nref :=
  match l with
  | [] => []
  | g :: r => if nref_eqb f g then r else g :: nref_remove f r
  end.

(** The path of a child: the parent's path, a slash unless the parent is
    the root, and the child's name. *)
Definition child_path (parent name : string) : string :=
  if String.eqb parent "/" then String.append "/" name
  else String.append parent (String.append "/" name).

(** Modelled from the spec: [subnodes(n)] is [n] followed by all its
    transitive descendants in pre-order. *)
Fixpoint walk (path : string) (pos : list nat) (n : LopperNode) {struct n} : list nref :=
  {| nr_pos := pos; abs_path := path; nr_node := n |} ::
  (fix children (i : nat) (cs : list LopperNode) {struct cs} : list nref :=
     match cs with
     | [] => []
     | c :: r => walk (child_path path (n_name c)) (pos ++ [i]) c ++ children (S i) r
     end) O (n_children n).

Definition subnodes (f : nref) : list nref := walk (abs_path f) (nr_pos f) (nr_node f).

(** A tree owns a root at path [/]; iterating a tree visits its nodes in
    document order. *)
Definition preorder (root : LopperNode) : list nref := walk "/" [] root.

(** [node[name]] on a reference *)
Definition nref_prop (f : nref) (name : string) : option LopperProp :=
  find_prop name (n_props (nr_node f)).

Definition strings_of (v : list pyval) : list string :=
  flat_map (fun x => match x with VStr s => [s] | VInt _ => [] end) v.

(** [node.type]: the strings of the [compatible] property. *)
Definition node_type (f : nref) : list string :=
  match nref_prop f "compatible" with
  | Some p => strings_of (p_value p)
  | None => []
  end.

(** ** The runqueue: [perform_lops] *)

(** [class LopperFile], from the point where its lop tree is loaded: the
    conversion of a [.dtb] to a tree goes through the external codec and is
    not modelled. *)
Record LopperFile : Type := {
  lf_dts : string;
  lf_tree : LopperNode
}.

(** [re.compile('system-device-tree-v1,lop.*').match(s)] *)
Definition lop_test (s : string) : bool :=
  PyStr.startswith s "system-device-tree-v1,lop".

(** [re.compile('.*,lop,conditional.*$').match(s)], for a [compatible]
    string of one line. *)
Definition lop_cond_test (s : string) : bool :=
  PyStr.contains ",lop,conditional" s.

Definition is_lop (f : nref) : bool := existsb lop_test (node_type f).
Definition is_conditional (f : nref) : bool := existsb lop_cond_test (node_type f).

(** [try: noexec = f['noexec'] except: noexec = False]; a property object
    is truthy. *)
Definition has_noexec (f : nref) : bool :=
  match nref_prop f "noexec" with Some _ => true | None => false end.

(** The skip list after the walk has looked at the lop [f]. *)
Definition next_skip (skip : list nref) (f : nref) : list nref :=
  if is_conditional f then nref_remove f (subnodes f) else skip.

(** [try: lops_file_priority = lops_tree['/']["priority"].value[0]
     except: lops_file_priority = 5] *)
Definition file_priority (x : LopperFile) : pyval :=
  match find_prop "priority" (n_props (lf_tree x)) with
  | Some p => match p_value p with v :: _ => v | [] => VInt 5 end
  | None => VInt 5
  end.

(** [for pri in range(1,10): lops_runqueue[pri] = []] *)
Definition priorities : list Z := [1; 2; 3; 4; 5; 6; 7; 8; 9].

Definition empty_runqueue : gmap Z (list LopperFile) :=
  foldr (fun pri rq => <[pri := []]> rq) ∅ priorities.

(** [lops_runqueue[lops_file_priority].append(x)]: a priority that is no
    key of the dict raises [KeyError]. *)
Definition enqueue (rq : gmap Z (list LopperFile)) (x : LopperFile)
  : pyresult (gmap Z (list LopperFile)) :=
  match file_priority x with
  | VInt z =>
      match rq !! z with
      | Some l => PyOk (<[z := l ++ [x]]> rq)
      | None => PyRaise "KeyError"
      end
  | VStr _ => PyRaise "KeyError"
  end.

Fixpoint build_runqueue (rq : gmap Z (list LopperFile)) (lops : list LopperFile)
  : pyresult (gmap Z (list LopperFile)) :=
  match lops with
  | [] => PyOk rq
  | x :: r =>
      match enqueue rq x with
      | PyOk rq' => build_runqueue rq' r
      | PyRaise e => PyRaise e
      | PyExit c => PyExit c
      end
  end.

(** [domain_spec(tgt_domain, tgt_domain_id)]: the lop file generated for a
    target domain given on the command line. *)
Definition domain_spec (tgt_domain_id : string) : LopperFile :=
  {| lf_dts := "";
     lf_tree :=
       LNode "" "" 0
         [ {| p_name := "compatible"; p_value := [VStr "system-device-tree-v1"] |};
           {| p_name := "priority"; p_value := [VInt 3] |} ]
         [ LNode "lops" "" 0 []
             [ LNode "lop_0" "" 0
                 [ {| p_name := "compatible";
                      p_value := [VStr "system-device-tree-v1,lop,assist-v1"] |};
                   {| p_name := "id"; p_value := [VStr tgt_domain_id] |} ]
                 [] ] ] |}.

(** [if self.target_domain: self.domain_spec(target_domain)]: the generated
    file is inserted at the front of [self.lops]. *)
Definition effective_lops (target_domain : string) (lops : list LopperFile)
  : list LopperFile :=
  if String.eqb target_domain "" then lops
  else domain_spec "openamp,domain-v1" :: lops.

(** The computation returned: no exception, no exit. *)
Definition completes {A : Type} (r : pyresult A) : bool :=
  match r with PyOk _ => true | _ => false end.

(** One call [self.exec_lop( f, fdt_tree )] of the top-level walk. *)
Definition lop_call : Type := LopperFile * nref.

Section RunQueue.

Context {World : Type}.

(** [exec_lop] as seen from [perform_lops]: it changes the engine state, and
    an exception or exit inside it ends the run.  Its return value is not
    read here, and it is taken not to change the lop tree being walked. *)
Variable exec_lop : LopperFile -> nref -> World -> pyresult World.

(** [for f in fdt_tree: ...] of one lop file, with the calls made. *)
Fixpoint run_file (x : LopperFile) (fs : list nref) (skip_list : list nref) (w : World)
  : list lop_call * pyresult World :=
  match fs with
  | [] => ([], PyOk w)
  | f :: r =>
      if negb (is_lop f) then run_file x r skip_list w
      else
        let skip_list := next_skip skip_list f in
        if has_noexec f || nref_in f skip_list then run_file x r skip_list w
        else
          match exec_lop x f w with
          | PyOk w' =>
              let '(calls, res) := run_file x r skip_list w' in ((x, f) :: calls, res)
          | PyRaise e => ([(x, f)], PyRaise e)
          | PyExit c => ([(x, f)], PyExit c)
          end
  end.

(** [for x in lops_runqueue[pri]: ...] *)
Fixpoint run_bucket (xs : list LopperFile) (w : World) : list lop_call * pyresult World :=
  match xs with
  | [] => ([], PyOk w)
  | x :: r =>
      match run_file x (preorder (lf_tree x)) [] w with
      | (calls, PyOk w') =>
          let '(calls', res) := run_bucket r w' in (calls ++ calls', res)
      | (calls, res) => (calls, res)
      end
  end.

(** [for pri in range(1,10): ...] *)
Fixpoint run_queue (rq : gmap Z (list LopperFile)) (pris : list Z) (w : World)
  : list lop_call * pyresult World :=
  match pris with
  | [] => ([], PyOk w)
  | pri :: r =>
      match rq !! pri with
      | None => ([], PyRaise "KeyError")
      | Some xs =>
          match run_bucket xs w with
          | (calls, PyOk w') =>
              let '(calls', res) := run_queue rq r w' in (calls ++ calls', res)
          | (calls, res) => (calls, res)
          end
      end
  end.

(** [LopperSDT.perform_lops()], with the calls of [exec_lop] it makes. *)
Definition perform_lops (target_domain : string) (lops : list LopperFile) (w : World)
  : list lop_call * pyresult World :=
  match build_runqueue empty_runqueue (effective_lops target_domain lops) with
  | PyOk rq => run_queue rq priorities w
  | PyRaise e => ([], PyRaise e)
  | PyExit c => ([], PyExit c)
  end.

End RunQueue.

(** *** The order the walk describes *)

(** The lops of one file that the top-level walk executes, when every call
    returns. *)
Fixpoint top_walk (fs : list nref) (skip_list : list nref) : list nref :=
  match fs with
  | [] => []
  | f :: r =>
      if negb (is_lop f) then top_walk r skip_list
      else
        let skip_list := next_skip skip_list f in
        if has_noexec f || nref_in f skip_list then top_walk r skip_list
        else f :: top_walk r skip_list
  end.

Definition file_lops (x : LopperFile) : list nref :=
  top_walk (preorder (lf_tree x)) [].

Definition priority_is (pri : Z) (x : LopperFile) : bool :=
  pyval_eqb (file_priority x) (VInt pri).

(** The files of priority 1 in the order given, then those of priority 2,
    and so on up to 9. *)
Definition run_order (lops : list LopperFile) : list LopperFile :=
  flat_map (fun pri => filter (fun x => priority_is pri x = true) lops) priorities.

(** The calls made for a list of files taken in order. *)
Definition calls_of (xs : list LopperFile) : list lop_call :=
  flat_map (fun x => map (pair x) (file_lops x)) xs.

Definition schedule (lops : list LopperFile) : list lop_call :=
  calls_of (run_order lops).

(** The priority as a number; 0 for a value that is no integer. *)
Definition priority_of (x : LopperFile) : Z :=
  match file_priority x with VInt z => z | VStr _ => 0 end.

Definition valid_priority (x : LopperFile) : Prop :=
  exists z, file_priority x = VInt z /\ 1 <= z <= 9.

(** The files enqueued under one priority, in the order of [self.lops]. *)
Definition bucket (lops : list LopperFile) (pri : Z) : list LopperFile :=
  filter (fun x => priority_is pri x = true) lops.

(** *** Which lops the walk reaches *)

(** The children part of [walk], by name. *)
Fixpoint walk_list (path : string) (pos : list nat) (i : nat) (cs : list LopperNode)
  : list nref :=
  match cs with
  | [] => []
  | c :: r => walk (child_path path (n_name c)) (pos ++ [i]) c ++ walk_list path pos (S i) r
  end.

(** A lop whose [compatible] marks it as a conditional. *)
Definition is_cond_lop (f : nref) : bool := is_lop f && is_conditional f.

(** Document order again, each node with the answer to: is one of its
    proper ancestors a conditional lop? *)
Fixpoint walk_under (under : bool) (path : string) (pos : list nat) (n : LopperNode)
    {struct n} : list (nref * bool) :=
  let me := {| nr_pos := pos; abs_path := path; nr_node := n |} in
  (me, under) ::
  (fix children (i : nat) (cs : list LopperNode) {struct cs} : list (nref * bool) :=
     match cs with
     | [] => []
     | c :: r =>
         walk_under (under || is_cond_lop me) (child_path path (n_name c)) (pos ++ [i]) c
         ++ children (S i) r
     end) O (n_children n).

Fixpoint walk_under_list (under : bool) (path : string) (pos : list nat) (i : nat)
    (cs : list LopperNode) : list (nref * bool) :=
  match cs with
  | [] => []
  | c :: r =>
      walk_under under (child_path path (n_name c)) (pos ++ [i]) c
      ++ walk_under_list under path pos (S i) r
  end.

Definition preorder_under (root : LopperNode) : list (nref * bool) :=
  walk_under false "/" [] root.

(** A directive the walk is to execute: a lop without [noexec] and with no
    conditional lop above it. *)
Definition runs_at_top (fu : nref * bool) : bool :=
  is_lop (fst fu) && negb (has_noexec (fst fu)) && negb (snd fu).

Definition expected_lops (root : LopperNode) : list nref :=
  map fst (filter (fun fu => runs_at_top fu = true) (preorder_under root)).

(** No conditional lop lies below another conditional lop. *)
Definition not_nested (fu : nref * bool) : bool := negb (snd fu && is_cond_lop (fst fu)).

Definition no_nested_conditional (root : LopperNode) : bool :=
  forallb not_nested (preorder_under root).

(** The skip list the walk is left with after the nodes [fs]. *)
Fixpoint final_skip (fs : list nref) (skip_list : list nref) : list nref :=
  match fs with
  | [] => skip_list
  | f :: r =>
      if negb (is_lop f) then final_skip r skip_list
      else final_skip r (next_skip skip_list f)
  end.

(** *** The walk as the specification words it *)

(** Document order, each node with the answer to: is its parent a
    conditional lop? *)
Fixpoint walk_parent (parent_cond : bool) (path : string) (pos : list nat)
    (n : LopperNode) {struct n} : list (nref * bool) :=
  let me := {| nr_pos := pos; abs_path := path; nr_node := n |} in
  (me, parent_cond) ::
  (fix children (i : nat) (cs : list LopperNode) {struct cs} : list (nref * bool) :=
     match cs with
     | [] => []
     | c :: r =>
         walk_parent (is_cond_lop me) (child_path path (n_name c)) (pos ++ [i]) c
         ++ children (S i) r
     end) O (n_children n).

(** The lops the walk would execute if it skipped a lop exactly when its
    parent is a conditional lop or it carries [noexec]. *)
Definition claimed_lops (root : LopperNode) : list nref :=
  map fst (filter (fun fu => runs_at_top fu = true) (walk_parent false "/" [] root)).

(** ** What lopper.py takes from elsewhere *)

(** Python's [re], [LopperProp.compare] (lopper_tree.py) and
    [Lopper.property_convert] (lopper_fdt.py) are not part of the sources
    at hand.  The handlers below use them through this interface, and the
    general statements hold for every implementation of it.
    - [re_search pattern s]: the regular expression [pattern] matches [s]
      in the sense the tree model applies to paths and labels;
    - [prop_compare test p]: [test.compare(p)];
    - [property_convert s]: the value [Lopper.property_convert(s)] as the
      list a property holds. *)
Class Externals : Type := {
  re_search : string -> string -> bool;
  prop_compare : LopperProp -> LopperProp -> bool;
  property_convert : string -> list pyval
}.

(** Modelled from the spec: [nodes(regex)] is all nodes whose absolute path
    matches [regex]; a [regex] that contains no [/] is implicitly prefixed
    with [.*] ([LopperTree.nodes] of lopper_tree.py). *)
Definition nodes `{Externals} (root : LopperNode) (regex : string) : list nref :=
  let regex := if PyStr.has_char "/"%char regex then regex else String.append ".*" regex in
  filter (fun f => re_search regex (abs_path f) = true) (preorder root).

(** Modelled from the spec: [lnodes(regex)] is all nodes whose label
    matches ([LopperTree.lnodes] of lopper_tree.py); a node without label
    matches nothing. *)
Definition lnodes `{Externals} (root : LopperNode) (regex : string) : list nref :=
  filter (fun f => negb (String.eqb (n_label (nr_node f)) "")
                   && re_search regex (n_label (nr_node f)) = true) (preorder root).

(** ** The [conditional] lop *)

(** A value returned by [exec_lop]. *)
Inductive pyret : Type :=
| RetBool (b : bool)
| RetInt (z : Z)
| RetNone
| RetStr (s : string).

(** [ret == False] *)
Definition ret_is_false (r : pyret) : bool :=
  match r with
  | RetBool b => negb b
  | RetInt z => Z.eqb z 0
  | _ => false
  end.

(** How a nested [exec_lop] ends: it returns, raises an [Exception] (which
    the [try] around the call turns into [ret = False]), or leaves through
    [sys.exit], which no [except Exception] catches. *)
Inductive lop_outcome : Type :=
| Returned (r : pyret)
| Raised
| Exited (code : Z).

(** The loop over the blocks goes on after this outcome. *)
Definition goes_on (o : lop_outcome) : bool :=
  match o with
  | Returned r => negb (ret_is_false r)
  | _ => false
  end.

(** One nested call [self.exec_lop( n, lops_tree, { 'start_node' : start } )]. *)
Record block_call : Type := {
  bc_lop : nref;
  bc_start_node : string;
  bc_outcome : lop_outcome
}.

(** The name of a condition without its [__not__] mark, and the mark. *)
Definition cond_prop_name (p : LopperProp) : string :=
  PyStr.remove_suffix (p_name p) "__not__".

Definition cond_inverted (p : LopperProp) : bool :=
  PyStr.endswith (p_name p) "__not__".

(** The body of [for tgt_node in sdt_tgt_nodes] for one condition: the
    updated [(tgt_matches, tgt_false_matches)]. *)
Definition cond_check `{Externals} (cond_prop : LopperProp)
    (st : list nref * list nref) (tgt_node : nref) : list nref * list nref :=
  let '(tgt_matches, tgt_false_matches) := st in
  let fail :=
    ((if nref_in tgt_node tgt_matches then nref_remove tgt_node tgt_matches
      else tgt_matches),
     (if nref_in tgt_node tgt_false_matches then tgt_false_matches
      else tgt_false_matches ++ [tgt_node])) in
  match nref_prop tgt_node (cond_prop_name cond_prop) with
  | Some tgt_node_prop =>
      let check_val := prop_compare cond_prop tgt_node_prop in
      (* eval( "{0} {1}".format(invert_check, check_val) ) *)
      let check_val_final := if cond_inverted cond_prop then negb check_val else check_val in
      if check_val_final then
        ((if nref_in tgt_node tgt_matches then tgt_matches else tgt_matches ++ [tgt_node]),
         tgt_false_matches)
      else fail
  | None => fail
  end.

(** [for cond_prop in cond_last_node: for tgt_node in sdt_tgt_nodes: ...] *)
Definition cond_match `{Externals} (cond_props : list LopperProp)
    (sdt_tgt_nodes : list nref) : list nref * list nref :=
  fold_left (fun st cond_prop => fold_left (cond_check cond_prop) sdt_tgt_nodes st)
    cond_props ([], []).

(** The node passes the condition: it has the property and the comparison,
    inverted for a [__not__] name, holds. *)
Definition satisfies `{Externals} (tgt_node : nref) (cond_prop : LopperProp) : bool :=
  match nref_prop tgt_node (cond_prop_name cond_prop) with
  | Some p =>
      if cond_inverted cond_prop then negb (prop_compare cond_prop p)
      else prop_compare cond_prop p
  | None => false
  end.

Section Conditional.

Context {World : Type}.

(** The nested [exec_lop( n, lops_tree, { 'start_node' : ... } )]: the new
    engine state and how the call ended.  The blocks are taken not to
    rename the nodes of the lop tree they belong to. *)
Variable exec_block : nref -> string -> World -> World * lop_outcome.

(** [tgt_match.abs_path] in a state of the engine: the path is read anew
    for every call, and a block may have moved the node. *)
Variable node_path : World -> nref -> string.

(** [for n in this_lop_subnodes: if n.name.startswith( kind ): ...] for one
    match: the calls made, the state, and the exit code if a block left the
    process. *)
Fixpoint run_blocks (kind : string) (this_lop_subnodes : list nref)
    (tgt_match : nref) (w : World) : list block_call * World * option Z :=
  match this_lop_subnodes with
  | [] => ([], w, None)
  | n :: r =>
      if PyStr.startswith (n_name (nr_node n)) kind then
        let start_node := node_path w tgt_match in
        let '(w', o) := exec_block n start_node w in
        let call := {| bc_lop := n; bc_start_node := start_node; bc_outcome := o |} in
        match o with
        | Exited c => ([call], w', Some c)
        | Raised => ([call], w', None)                      (* ret = False: break *)
        | Returned ret =>
            if ret_is_false ret then ([call], w', None)     (* break *)
            else let '(calls, w'', ex) := run_blocks kind r tgt_match w' in
                 (call :: calls, w'', ex)
        end
      else run_blocks kind r tgt_match w
  end.

(** [for tgt_match in matches: ...]: per match, the calls made for it. *)
Fixpoint run_matches (kind : string) (this_lop_subnodes : list nref)
    (matches : list nref) (w : World) : list (nref * list block_call) * World * option Z :=
  match matches with
  | [] => ([], w, None)
  | m :: r =>
      match run_blocks kind this_lop_subnodes m w with
      | (calls, w', Some c) => ([(m, calls)], w', Some c)
      | (calls, w', None) =>
          let '(rest, w'', ex) := run_matches kind this_lop_subnodes r w' in
          ((m, calls) :: rest, w'', ex)
      end
  end.

(** What the [conditional] handler did: the calls per true match and per
    false match, and the final state.  It returns [False] unless a block
    left the process. *)
Record cond_run : Type := {
  true_runs : list (nref * list block_call);
  false_runs : list (nref * list block_call);
  cond_world : World;
  cond_result : pyresult pyret
}.

(** The loops of the handler from [tgt_matches = []] on (1481-1585), for
    the deepest node of the chain of conditions and the targets found in
    the tree: the conditions are the properties of that node, the blocks
    are among [lop_node.subnodes()]. *)
Definition cond_dispatch `{Externals} (lop_node : nref) (cond_last_node : nref)
    (sdt_tgt_nodes : list nref) (w : World) : cond_run :=
  let this_lop_subnodes := subnodes lop_node in
  let '(tgt_matches, tgt_false_matches) :=
    cond_match (n_props (nr_node cond_last_node)) sdt_tgt_nodes in
  match run_matches "true" this_lop_subnodes tgt_matches w with
  | (truns, w', Some c) =>
      {| true_runs := truns; false_runs := []; cond_world := w'; cond_result := PyExit c |}
  | (truns, w', None) =>
      match run_matches "false" this_lop_subnodes tgt_false_matches w' with
      | (fruns, w'', Some c) =>
          {| true_runs := truns; false_runs := fruns; cond_world := w'';
             cond_result := PyExit c |}
      | (fruns, w'', None) =>
          (* if the lop didn't return, we return false by default *)
          {| true_runs := truns; false_runs := fruns; cond_world := w'';
             cond_result := PyOk (RetBool false) |}
      end
  end.

(** *** What the loops are to do, block by block *)

(** The exit code of a call that left the process. *)
Definition exit_of (o : lop_outcome) : option Z :=
  match o with Exited c => Some c | _ => None end.

(** [chain m blocks w calls w' ex]: from the state [w] the blocks are
    called one after the other, each with the path the match [m] has in the
    state it is called in, and each on the state the call before it left;
    the call after which the loop does not go on is the last one, and the
    blocks behind it are not called.  [w'] is the state after the last call
    and [ex] the exit code if that call left the process. *)
Inductive chain (m : nref)
  : list nref -> World -> list block_call -> World -> option Z -> Prop :=
| chain_end w : chain m [] w [] w None
| chain_on n r w w' o calls w'' ex :
    exec_block n (node_path w m) w = (w', o) ->
    goes_on o = true ->
    chain m r w' calls w'' ex ->
    chain m (n :: r) w
      ({| bc_lop := n; bc_start_node := node_path w m; bc_outcome := o |} :: calls) w'' ex
| chain_stop n r w w' o :
    exec_block n (node_path w m) w = (w', o) ->
    goes_on o = false ->
    chain m (n :: r) w
      [{| bc_lop := n; bc_start_node := node_path w m; bc_outcome := o |}] w' (exit_of o).

(** [serves blocks matches w runs w' ex]: the matches are served in order,
    each with a chain over [blocks] that starts in the state the match
    before it left; a chain that left the process ends the service. *)
Inductive serves (blocks : list nref)
  : list nref -> World -> list (nref * list block_call) -> World -> option Z -> Prop :=
| serves_end w : serves blocks [] w [] w None
| serves_on m r w calls w' runs w'' ex :
    chain m blocks w calls w' None ->
    serves blocks r w' runs w'' ex ->
    serves blocks (m :: r) w ((m, calls) :: runs) w'' ex
| serves_exit m r w calls w' c :
    chain m blocks w calls w' (Some c) ->
    serves blocks (m :: r) w [(m, calls)] w' (Some c).

End Conditional.

(** The blocks of one kind among the subnodes, in document order. *)
Definition blocks_of (kind : string) (this_lop_subnodes : list nref) : list nref :=
  filter (fun n => PyStr.startswith (n_name (nr_node n)) kind = true) this_lop_subnodes.

(** The direct children of a node, as references. *)
Fixpoint child_refs_from (path : string) (pos : list nat) (i : nat) (cs : list LopperNode)
  : list nref :=
  match cs with
  | [] => []
  | c :: r =>
      {| nr_pos := pos ++ [i]; abs_path := child_path path (n_name c); nr_node := c |}
      :: child_refs_from path pos (S i) r
  end.

Definition child_refs (f : nref) : list nref :=
  child_refs_from (abs_path f) (nr_pos f) 0 (n_children (nr_node f)).

(** The blocks as the specification words them: the child lops of the
    conditional lop whose names begin with [kind]. *)
Definition claimed_blocks (kind : string) (lop_node : nref) : list nref :=
  blocks_of kind (filter (fun n => is_lop n = true) (child_refs lop_node)).

(** ** The [select] lop *)

(** What [Lopper.property_convert] returns: a list or a single value. *)
Definition value_truthy (v : list pyval) : bool :=
  match v with [] => false | _ => true end.

(** [try: node_regex, prop, prop_val = s.split(":")
     except: node_regex = s; prop = ""; prop_val = ""] *)
Definition parse_selector (s : string) : string * string * string :=
  match PyStr.split ":"%char s with
  | [a; b; c] => (a, b, c)
  | _ => (s, "", "")
  end.

(** The list objects of the handler live in a store: [selected_nodes],
    [selected_nodes_possible] and [tree.__selected__] are names bound to
    addresses, and two names may be bound to one list. *)
Record sel_store : Type := {
  lists : gmap nat (list nref);
  fresh : nat
}.

Definition rd (h : sel_store) (a : nat) : list nref := default [] (lists h !! a).

Definition wr (h : sel_store) (a : nat) (l : list nref) : sel_store :=
  {| lists := <[a := l]> (lists h); fresh := fresh h |}.

(** A new list object. *)
Definition alloc (h : sel_store) (l : list nref) : nat * sel_store :=
  (fresh h, {| lists := <[fresh h := l]> (lists h); fresh := S (fresh h) |}).

Record sel_vars : Type := {
  v_selected_nodes : nat;
  v_selected_nodes_possible : nat;
  v_tree_selected : nat
}.

(** [if not sl in selected_nodes: selected_nodes.append( sl )] *)
Definition append_if_absent (h : sel_store) (a : nat) (sl : nref) : sel_store :=
  if nref_in sl (rd h a) then h else wr h a (rd h a ++ [sl]).

(** [if sl in selected_nodes: selected_nodes.remove( sl )] *)
Definition remove_if_present (h : sel_store) (a : nat) (sl : nref) : sel_store :=
  if nref_in sl (rd h a) then wr h a (nref_remove sl (rd h a)) else h.

(** [re.search( "\!", s )] *)
Definition has_bang (s : string) : bool := PyStr.has_char "!"%char s.

(** The test of a [PROP:VAL] predicate on one node: whether the node has
    the property, and if so whether [test_prop.compare( sl_prop )], inverted
    when [invert_result], holds. *)
Definition val_test `{Externals} (prop prop_val : string) (sl : nref) : option bool :=
  let invert_result := has_bang prop_val in
  let prop_val := if invert_result then PyStr.strip_leading "!"%char prop_val else prop_val in
  let test_prop := {| p_name := prop; p_value := property_convert prop_val |} in
  match nref_prop sl prop with
  | Some sl_prop =>
      let are_they_equal := prop_compare test_prop sl_prop in
      Some (if invert_result then negb are_they_equal else are_they_equal)
  | None => None
  end.

(** The body of the loop of a [PROP:VAL] predicate. *)
Definition val_body `{Externals} (node_regex prop prop_val : string) (sel : nat)
    (h : sel_store) (sl : nref) : sel_store :=
  match val_test prop prop_val sl with
  | Some true => append_if_absent h sel sl
  | _ =>
      (* no match, you are out! (only if this is an AND operation though,
         which is indicated by the lack of a node regex) *)
      if String.eqb node_regex "" then remove_if_present h sel sl else h
  end.

(** The body of the loop of a presence or absence predicate.  (A property
    object is truthy: [if sl_prop] asks whether the node has the property.) *)
Definition exists_body (prop : string) (sel : nat) (h : sel_store) (sl : nref) : sel_store :=
  let prop_exists_test := negb (has_bang prop) in
  let prop := PyStr.strip_leading "!"%char prop in
  let has := match nref_prop sl prop with Some _ => true | None => false end in
  if Bool.eqb prop_exists_test has then append_if_absent h sel sl
  else remove_if_present h sel sl.

(** One string [s] of a [select_N] value. *)
Definition select_one `{Externals} (root : LopperNode) (st : sel_store * sel_vars)
    (s : string) : sel_store * sel_vars :=
  let '(h, v) := st in
  let '(node_regex, prop, prop_val) := parse_selector s in
  (* the candidates *)
  let '(possible, h) :=
    if negb (String.eqb node_regex "") then
      match rd h (v_selected_nodes_possible v) with
      | [] => alloc h (nodes root node_regex)
      | l => alloc h (l ++ nodes root node_regex)
      end
    else
      match rd h (v_selected_nodes v) with
      | [] => (v_tree_selected v, h)
      | _ => (v_selected_nodes v, h)
      end in
  let sel := v_selected_nodes v in
  (* if prop and prop_val *)
  let '(h, val_truthy) :=
    if negb (String.eqb prop "") && negb (String.eqb prop_val "") then
      let converted :=
        property_convert (if has_bang prop_val
                          then PyStr.strip_leading "!"%char prop_val else prop_val) in
      (fold_left (val_body node_regex prop prop_val sel) (rd h possible) h,
       value_truthy converted)
    else (h, negb (String.eqb prop_val "")) in
  (* if prop and not prop_val: the name loses a leading "!" in this block *)
  let '(h, prop) :=
    if negb (String.eqb prop "") && negb val_truthy then
      (fold_left (exists_body prop sel) (rd h possible) h,
       PyStr.strip_leading "!"%char prop)
    else (h, prop) in
  (* if not prop and not prop_val *)
  let sel := if String.eqb prop "" && negb val_truthy then possible else sel in
  (h, {| v_selected_nodes := sel;
         v_selected_nodes_possible := possible;
         v_tree_selected := v_tree_selected v |}).

(** One [select_N] property: the value [['']] clears the tree's selection. *)
Definition select_prop `{Externals} (root : LopperNode) (st : sel_store * sel_vars)
    (value : list string) : sel_store * sel_vars :=
  match value with
  | [""] =>
      let '(h, v) := st in
      let '(a, h) := alloc h [] in
      (h, {| v_selected_nodes := v_selected_nodes v;
             v_selected_nodes_possible := v_selected_nodes_possible v;
             v_tree_selected := a |})
  | _ => fold_left (select_one root) value st
  end.

(** The state the handler starts in: the tree's selection, and the two new
    empty lists [selected_nodes] and [selected_nodes_possible]. *)
Definition select_init (selected : list nref) : sel_store * sel_vars :=
  ({| lists := {[ 0%nat := selected; 1%nat := []; 2%nat := [] ]}; fresh := 3 |},
   {| v_selected_nodes := 1; v_selected_nodes_possible := 2; v_tree_selected := 0 |}).

(** The [select] handler of [exec_lop]: the new [tree.__selected__], for a
    tree with root [root] and selection [selected], and the values of the
    lop's [select_N] properties in order. *)
Definition exec_select `{Externals} (root : LopperNode) (selected : list nref)
    (select_props : list (list string)) : list nref :=
  let '(h, v) := fold_left (select_prop root) select_props (select_init selected) in
  rd h (v_selected_nodes v).

(** *** The selection in terms of lists *)

(** The nodes of [l] that are not yet in [res], appended to it. *)
Definition add_new (res l : list nref) : list nref :=
  fold_left (fun r sl => if nref_in sl r then r else r ++ [sl]) l res.

(** The node passes a [PROP:VAL] predicate. *)
Definition passes_val `{Externals} (prop prop_val : string) (sl : nref) : bool :=
  match val_test prop prop_val sl with
  | Some true => true
  | _ => false
  end.

(** The node passes a presence ([PROP]) or absence ([!PROP]) predicate. *)
Definition passes_exists (prop : string) (sl : nref) : bool :=
  Bool.eqb (negb (has_bang prop))
    match nref_prop sl (PyStr.strip_leading "!"%char prop) with
    | Some _ => true
    | None => false
    end.

(** The predicate of a selector with a property name. *)
Definition passes `{Externals} (prop prop_val : string) (sl : nref) : bool :=
  if String.eqb prop_val "" then passes_exists prop sl else passes_val prop prop_val sl.

(** The selectors the statement below covers: the string names a path
    regex or a property; a [PROP:VAL] literal converts to a truthy value; a
    presence or absence predicate names a property and comes without path
    regex. *)
Definition plain_selector `{Externals} (s : string) : bool :=
  let '(node_regex, prop, prop_val) := parse_selector s in
  if String.eqb prop "" then negb (String.eqb node_regex "")
  else if String.eqb prop_val "" then
    String.eqb node_regex "" && negb (String.eqb (PyStr.strip_leading "!"%char prop) "")
  else value_truthy (property_convert
         (if has_bang prop_val then PyStr.strip_leading "!"%char prop_val else prop_val)).

(** One selector on the candidate pool and the result so far; [selected] is
    the selection the tree holds from earlier lops.
    - A path regex adds its matches to the pool.  Without predicate the
      result becomes the pool; with [PROP:VAL] the nodes of the pool that
      pass are added to the result.
    - Without path regex the predicate filters the result so far, or the
      tree's selection when the result is empty, and what it filtered
      becomes the pool. *)
Definition spec_one `{Externals} (root : LopperNode) (selected : list nref)
    (st : list nref * list nref) (s : string) : list nref * list nref :=
  let '(pool, res) := st in
  let '(node_regex, prop, prop_val) := parse_selector s in
  if negb (String.eqb node_regex "") then
    let pool := pool ++ nodes root node_regex in
    if String.eqb prop "" then
      if String.eqb prop_val "" then (pool, pool) else (pool, res)
    else (pool, add_new res (filter (fun sl => passes_val prop prop_val sl = true) pool))
  else
    match res with
    | [] => (selected, add_new [] (filter (fun sl => passes prop prop_val sl = true) selected))
    | _ =>
        let res := filter (fun sl => passes prop prop_val sl = true) res in
        (res, res)
    end.

(** One [select_N] value on the pool, the result and the tree's selection. *)
Definition spec_prop `{Externals} (root : LopperNode)
    (st : list nref * list nref * list nref) (value : list string)
  : list nref * list nref * list nref :=
  let '(pool, res, selected) := st in
  match value with
  | [""] => (pool, res, [])
  | _ => (fold_left (spec_one root selected) value (pool, res), selected)
  end.

(** The selection a [select] lop leaves. *)
Definition select_spec `{Externals} (root : LopperNode) (selected : list nref)
    (select_props : list (list string)) : list nref :=
  snd (fst (fold_left (spec_prop root) select_props ([], [], selected))).

(** A [select_N] value the statement below covers: the clearing value
    [['']], or strings that are all plain selectors. *)
Definition plain_value `{Externals} (value : list string) : bool :=
  match value with
  | [""] => true
  | _ => forallb plain_selector value
  end.

(** *** The selection as the specification words it *)

(** Each selector with a path regex contributes the nodes its regex matches
    that pass its predicate, if it has one; the contributions are united.  A
    selector without path regex keeps, of the previously selected nodes,
    those that pass its predicate: the nodes selected so far by this lop,
    or the tree's selection when it is the first selector of the lop
    ([None]: no selector seen yet). *)
Definition claim_one `{Externals} (root : LopperNode) (selected : list nref)
    (res : option (list nref)) (s : string) : option (list nref) :=
  let '(node_regex, prop, prop_val) := parse_selector s in
  if negb (String.eqb node_regex "") then
    Some (add_new (default [] res)
      (if String.eqb prop "" then nodes root node_regex
       else filter (fun sl => passes prop prop_val sl = true) (nodes root node_regex)))
  else Some (filter (fun sl => passes prop prop_val sl = true) (default selected res)).

Definition select_claim `{Externals} (root : LopperNode) (selected : list nref)
    (select_props : list (list string)) : list nref :=
  default []
    (fold_left (fun res value => fold_left (claim_one root selected) value res)
       select_props None).

(** *** The loops of the handler on one list *)

(** One step of a loop that only adds: a passing node is appended unless
    it is there already. *)
Definition or_step (pass : nref -> bool) (r : list nref) (sl : nref) : list nref :=
  if pass sl then (if nref_in sl r then r else r ++ [sl]) else r.

(** One step of a loop that adds and removes. *)
Definition and_step (pass : nref -> bool) (r : list nref) (sl : nref) : list nref :=
  if pass sl then (if nref_in sl r then r else r ++ [sl])
  else (if nref_in sl r then nref_remove sl r else r).

(** Every element of the list is a node of the tree. *)
Definition within (root : LopperNode) (l : list nref) : Prop :=
  forall x, x ∈ l -> x ∈ preorder root.

(** The store holds the pool, the result and the tree's selection under the
    three names, and the result is a list of its own. *)
Definition sel_inv (root : LopperNode) (st : sel_store * sel_vars)
    (pool res selected : list nref) : Prop :=
  let '(h, v) := st in
  rd h (v_selected_nodes_possible v) = pool /\
  rd h (v_selected_nodes v) = res /\
  rd h (v_tree_selected v) = selected /\
  (v_selected_nodes v < fresh h)%nat /\
  (v_selected_nodes_possible v < fresh h)%nat /\
  (v_tree_selected v < fresh h)%nat /\
  v_selected_nodes v <> v_tree_selected v /\
  within root pool /\ within root res /\ within root selected.

(** ** The [modify] lop *)

(** [pathlib.Path] on a POSIX path, as far as [modify] uses it: the root
    ([/], or [//] for exactly two leading slashes, or none) and the
    components, empty ones and [.] dropped. *)
Record PurePath : Type := {
  pp_root : string;
  pp_parts : list string
}.

Definition Path (s : string) : PurePath :=
  {| pp_root :=
       if PyStr.startswith s "///" then "/"
       else if PyStr.startswith s "//" then "//"
       else if PyStr.startswith s "/" then "/"
       else "";
     pp_parts :=
       filter (fun c => c <> "" /\ c <> ".") (PyStr.split "/"%char s) |}.

(** [p.parent] *)
Definition pp_parent (p : PurePath) : PurePath :=
  {| pp_root := pp_root p; pp_parts := removelast (pp_parts p) |}.

(** [p.name] *)
Definition pp_name (p : PurePath) : string := List.last (pp_parts p) "".

Fixpoint join_parts (l : list string) : string :=
  match l with
  | [] => ""
  | [x] => x
  | x :: r => String.append x (String.append "/" (join_parts r))
  end.

(** [str(p)] *)
Definition pp_str (p : PurePath) : string :=
  match pp_root p, pp_parts p with
  | "", [] => "."
  | r, l => String.append r (join_parts l)
  end.

Definition pp_eqb (p q : PurePath) : bool :=
  String.eqb (pp_root p) (pp_root q) && bool_decide (pp_parts p = pp_parts q).

(** *** Tree operations
    Modelled from the spec (section 4.1), each on the node at a position. *)

(** The node at position [p] is replaced by [g] of it; no node there, no
    change. *)
Fixpoint update_at (p : list nat) (g : LopperNode -> LopperNode) (n : LopperNode)
  : LopperNode :=
  match p with
  | [] => g n
  | i :: p' =>
      LNode (n_name n) (n_label n) (n_phandle n) (n_props n)
            (alter (update_at p' g) i (n_children n))
  end.

Definition with_props (f : list LopperProp -> list LopperProp) (n : LopperNode) : LopperNode :=
  LNode (n_name n) (n_label n) (n_phandle n) (f (n_props n)) (n_children n).

Definition with_name (name : string) (n : LopperNode) : LopperNode :=
  LNode name (n_label n) (n_phandle n) (n_props n) (n_children n).

(** Modelled from the spec: [node.delete(prop)] leaves the node without a
    property of that name. *)
Definition remove_prop (name : string) (ps : list LopperProp) : list LopperProp :=
  filter (fun p => p_name p <> name) ps.

(** Modelled from the spec: [node[name] = value] replaces the value of the
    property of that name, or adds the property after the others. *)
Fixpoint set_prop (name : string) (value : list pyval) (ps : list LopperProp)
  : list LopperProp :=
  match ps with
  | [] => [{| p_name := name; p_value := value |}]
  | p :: r =>
      if String.eqb (p_name p) name then {| p_name := name; p_value := value |} :: r
      else p :: set_prop name value r
  end.

(** Modelled from the spec: [delete(n)] removes [n] and its descendants.
    The root stays. *)
Fixpoint delete_at (p : list nat) (n : LopperNode) : LopperNode :=
  match p with
  | [] => n
  | [i] =>
      LNode (n_name n) (n_label n) (n_phandle n) (n_props n) (delete i (n_children n))
  | i :: p' =>
      LNode (n_name n) (n_label n) (n_phandle n) (n_props n)
            (alter (delete_at p') i (n_children n))
  end.

(** Where the node object at position [p] is found after the node at [q]
    was deleted; [None] when it went with it. *)
Fixpoint pos_after_delete (q p : list nat) : option (list nat) :=
  match q, p with
  | [], _ => Some p
  | _ :: _, [] => Some []
  | [j], i :: p' =>
      if Nat.eqb i j then None
      else if Nat.ltb j i then Some (Nat.pred i :: p')
      else Some p
  | j :: q', i :: p' =>
      if Nat.eqb i j then cons i <$> pos_after_delete q' p' else Some p
  end.

(** Modelled from the spec: lookup-by-path, [tree[path]]; [None] is
    not-found. *)
Definition tree_lookup (root : LopperNode) (path : string) : option nref :=
  List.find (fun f => String.eqb (abs_path f) path) (preorder root).

(** Modelled from the spec: [add(n)] inserts [n] under the parent implied by
    its path, as that parent's last child; it fails if the path is occupied
    or the parent is missing. *)
Definition tree_add (root : LopperNode) (path : string) (n : LopperNode)
  : option LopperNode :=
  let dest := Path path in
  match tree_lookup root (pp_str dest), tree_lookup root (pp_str (pp_parent dest)) with
  | None, Some parent =>
      Some (update_at (nr_pos parent)
              (fun m => LNode (n_name m) (n_label m) (n_phandle m) (n_props m)
                          (n_children m ++ [with_name (pp_name dest) n]))
              root)
  | _, _ => None
  end.

(** What is stored at a position of a tree: the node's own data and the
    names of its children. *)
Record node_data : Type := {
  d_path : string;
  d_name : string;
  d_label : string;
  d_phandle : Z;
  d_props : list LopperProp;
  d_children : list string
}.

Fixpoint node_at (path : string) (p : list nat) (n : LopperNode) : option node_data :=
  match p with
  | [] =>
      Some {| d_path := path; d_name := n_name n; d_label := n_label n;
              d_phandle := n_phandle n; d_props := n_props n;
              d_children := map n_name (n_children n) |}
  | i :: p' =>
      match n_children n !! i with
      | Some c => node_at (child_path path (n_name c)) p' c
      | None => None
      end
  end.

Definition data_at (root : LopperNode) (p : list nat) : option node_data :=
  node_at "/" p root.

Definition map_props (f : list LopperProp -> list LopperProp) (d : node_data) : node_data :=
  {| d_path := d_path d; d_name := d_name d; d_label := d_label d;
     d_phandle := d_phandle d; d_props := f (d_props d); d_children := d_children d |}.

(** *** The handler *)

(** The three fields of [modify = "PATH:PROP:VAL"]; fewer than three is an
    [IndexError]. *)
Definition parse_modify (s : string) : option (string * string * string) :=
  match PyStr.split ":"%char s with
  | a :: b :: c :: _ => Some (a, b, c)
  | _ => None
  end.

(** The targets: the tree's selection when [PATH] is empty ([None]: there
    is none, the handler returns [False]), else the node at [PATH] with its
    descendants, or nothing when there is no such node. *)
Definition modify_targets (root : LopperNode) (selected : list nref) (modify_path : string)
  : option (list nref) :=
  if String.eqb modify_path "" then
    match selected with
    | [] => None
    | _ => Some selected
    end
  else
    match tree_lookup root modify_path with
    | Some n => Some (subnodes n)
    | None => Some []
    end.

(** [for n in nodes: try: n.delete( modify_prop ) except: pass] *)
Definition modify_delete_prop (root : LopperNode) (targets : list nref) (modify_prop : string)
  : LopperNode :=
  fold_left (fun r n => update_at (nr_pos n) (with_props (remove_prop modify_prop)) r)
    targets root.

(** The first of the lists that is not empty. *)
Fixpoint first_nonempty {A : Type} (ls : list (list A)) : list A :=
  match ls with
  | [] => []
  | [] :: r => first_nonempty r
  | l :: _ => l
  end.

(** The nodes a reference [&NAME] may stand for: [NAME] as a path regex in
    the tree, else as a label in the tree, else as a path regex in the lop
    tree, else as a label there. *)
Definition phandle_nodes `{Externals} (root lops_root : LopperNode) (name : string)
  : list nref :=
  first_nonempty [nodes root name; lnodes root name;
                  nodes lops_root name; lnodes lops_root name].

(** The value a [VAL] with [&] is replaced by. *)
Definition phandle_value `{Externals} (root lops_root : LopperNode) (modify_val : string)
  : list pyval :=
  let fields := PyStr.split "#"%char modify_val in
  let node := List.hd "" fields in
  let node_property := List.nth 1 fields "" in      (* None or "" : no property *)
  let phandle_node_name := PyStr.remove_char "&"%char node in
  match phandle_nodes root lops_root phandle_node_name with
  | [] => [VInt 0]
  | f :: _ =>
      if String.eqb node_property "" then [VInt (n_phandle (nr_node f))]
      else match nref_prop f node_property with
           | Some p => p_value p
           | None => [VInt (n_phandle (nr_node f))]
           end
  end.

(** The value assigned by [modify = "PATH:PROP:VAL"]. *)
Definition modify_value `{Externals} (root lops_root : LopperNode) (modify_val : string)
  : list pyval :=
  if PyStr.has_char "&"%char modify_val then phandle_value root lops_root modify_val
  else property_convert modify_val.

(** The nodes assigned to: [tree.nodes( modify_path )], or the selection. *)
Definition assign_targets `{Externals} (root : LopperNode) (selected : list nref)
    (modify_path : string) : list nref :=
  if String.eqb modify_path "" then selected else nodes root modify_path.

(** [for n in nodes: n[modify_prop] = modify_val] *)
Definition modify_assign `{Externals} (root lops_root : LopperNode) (selected : list nref)
    (modify_path modify_prop modify_val : string) : LopperNode :=
  let value := modify_value root lops_root modify_val in
  fold_left (fun r n => update_at (nr_pos n) (with_props (set_prop modify_prop value)) r)
    (assign_targets root selected modify_path) root.

(** The node operation for a nonempty [VAL]: a move when the parent paths
    differ, then a rename when the names differ. *)
Definition modify_node (root : LopperNode) (node : nref) (modify_val : string)
  : pyresult LopperNode :=
  let modify_source_path := Path (abs_path node) in
  let modify_dest_path :=
    if PyStr.startswith modify_val "/" then Path modify_val
    else Path (String.append "/" modify_val) in
  (* the move: deep copy, add at the new path, delete the old node *)
  let moved :=
    if negb (pp_eqb (pp_parent modify_source_path) (pp_parent modify_dest_path)) then
      match tree_add root modify_val (nr_node node) with
      | Some r => PyOk (delete_at (nr_pos node) r, true)
      | None => PyRaise "Exception"
      end
    else PyOk (root, false) in
  match moved with
  | PyOk (root, was_moved) =>
      if negb (String.eqb (pp_name modify_source_path) (pp_name modify_dest_path)) then
        let modify_val := PyStr.remove_char "/"%char modify_val in
        (* is there already a node at the new destination path ? *)
        match tree_lookup root (pp_str modify_dest_path) with
        | Some old_node =>
            let root := delete_at (nr_pos old_node) root in
            (* change the name of the node, if it is still in the tree *)
            match (if was_moved then None
                   else pos_after_delete (nr_pos old_node) (nr_pos node)) with
            | Some p => PyOk (update_at p (with_name modify_val) root)
            | None => PyOk root
            end
        | None =>
            if was_moved then PyOk root
            else PyOk (update_at (nr_pos node) (with_name modify_val) root)
        end
      else PyOk root
  | PyRaise e => PyRaise e
  | PyExit c => PyExit c
  end.

(** The [modify] handler of [exec_lop] for the lop's [modify] string: the
    tree it leaves.  It returns [False] on every path that returns. *)
Definition exec_modify `{Externals} (root lops_root : LopperNode) (selected : list nref)
    (modify : string) : pyresult LopperNode :=
  if String.eqb modify "" then PyOk root
  else
    match parse_modify modify with
    | None => PyRaise "IndexError"
    | Some (modify_path, modify_prop, modify_val) =>
        match modify_targets root selected modify_path with
        | None => PyOk root      (* no nodes supplied, and no nodes are selected *)
        | Some nodes_ =>
            if negb (String.eqb modify_prop "") then
              if String.eqb modify_val "" then
                PyOk (modify_delete_prop root nodes_ modify_prop)
              else
                PyOk (modify_assign root lops_root selected modify_path modify_prop modify_val)
            else
              match nodes_ with
              | [] => PyExit 1    (* no nodes found *)
              | node :: _ =>
                  if negb (String.eqb modify_val "") then modify_node root node modify_val
                  else PyOk (delete_at (nr_pos node) root)
              end
        end
    end.

(** The subtree at a position below [n]. *)
Fixpoint subtree_at (p : list nat) (n : LopperNode) : option LopperNode :=
  match p with
  | [] => Some n
  | i :: p' =>
      match n_children n !! i with
      | Some c => subtree_at p' c
      | None => None
      end
  end.

(** The position is that of one of the nodes [l]. *)
Definition touched (l : list nref) (q : list nat) : bool :=
  bool_decide (q ∈ map nr_pos l).

(** What a change of the properties of the nodes [l] does to the data at
    a position. *)
Definition props_changed (l : list nref) (f : list LopperProp -> list LopperProp)
    (q : list nat) (d : node_data) : node_data :=
  if touched l q then map_props f d else d.

(** The node a reference [&NAME] stands for: the first of [phandle_nodes]. *)
Definition phandle_node `{Externals} (root lops_root : LopperNode) (name : string)
  : option nref :=
  List.head (phandle_nodes root lops_root name).

(** The name and the field of a value [&NAME#FIELD] ([""]: no field). *)
Definition ref_name (modify_val : string) : string :=
  PyStr.remove_char "&"%char (List.hd "" (PyStr.split "#"%char modify_val)).

Definition ref_field (modify_val : string) : string :=
  List.nth 1 (PyStr.split "#"%char modify_val) "".

(** As the specification words it: [NAME] is resolved as a label, in the
    main tree and then in the lop tree. *)
Definition claim_phandle_node `{Externals} (root lops_root : LopperNode) (name : string)
  : option nref :=
  List.head (first_nonempty [lnodes root name; lnodes lops_root name]).

(** A loop body acts on the list at [a] as [step] and leaves the rest of
    the store alone. *)
Definition acts_as (a : nat) (body : sel_store -> nref -> sel_store)
    (step : list nref -> nref -> list nref) : Prop :=
  forall h sl,
    rd (body h sl) a = step (rd h a) sl /\
    (forall b, b <> a -> rd (body h sl) b = rd h b) /\
    fresh (body h sl) = fresh h.

(** ** Setup: the input files *)

(** [for line in datafile: if not found:
       if re.search( "system-device-tree-v1,lop", line ): ... found = True] *)
Definition lop_marker_found (datafile : list string) : bool :=
  fold_left (fun found line =>
               if negb found then
                 if PyStr.contains "system-device-tree-v1,lop" line then true else found
               else found)
            datafile false.

(** A [.dts] or [.yaml] input is read: with the marker on one of its lines
    it is a lop file, without it a part of the system device tree.
    [readlines] is [open(ifile).readlines()], which may raise. *)
Definition classify_by_content (readlines : string -> pyresult (list string))
    (st : list string * list string) (ifile : string)
  : pyresult (list string * list string) :=
  let '(lop_files, sdt_files) := st in
  match readlines ifile with
  | PyOk datafile =>
      if lop_marker_found datafile then PyOk (lop_files ++ [ifile], sdt_files)
      else PyOk (lop_files, sdt_files ++ [ifile])
  | PyRaise e => PyRaise e
  | PyExit c => PyExit c
  end.

(** The body of [for ifile in input_files] in [setup], on
    [(lop_files, sdt_files)]. *)
Definition classify_input (readlines : string -> pyresult (list string))
    (yaml_support : bool) (st : list string * list string) (ifile : string)
  : pyresult (list string * list string) :=
  if PyStr.search_any_then_end "dts" ifile then classify_by_content readlines st ifile
  else if PyStr.search_any_then_end "dtb" ifile then PyOk (fst st ++ [ifile], snd st)
  else if PyStr.search_any_then_end "yaml" ifile then
    if yaml_support then classify_by_content readlines st ifile
    else PyExit 1      (* YAML support is not loaded *)
  else PyOk st.

Fixpoint classify_inputs (readlines : string -> pyresult (list string))
    (yaml_support : bool) (st : list string * list string) (input_files : list string)
  : pyresult (list string * list string) :=
  match input_files with
  | [] => PyOk st
  | ifile :: r =>
      match classify_input readlines yaml_support st ifile with
      | PyOk st' => classify_inputs readlines yaml_support st' r
      | PyRaise e => PyRaise e
      | PyExit c => PyExit c
      end
  end.

(** The start of [LopperSDT.setup]: the support binaries are looked for
    ([which] is [shutil.which]), then the input files are sorted into
    [(lop_files, sdt_files)]. *)
Definition setup_inputs (which : string -> bool)
    (readlines : string -> pyresult (list string)) (yaml_support : bool)
    (input_files : list string) : pyresult (list string * list string) :=
  if forallb which ["dtc"; "cpp"] then
    classify_inputs readlines yaml_support ([], []) input_files
  else PyExit 2.

(** The file has the marker of a lop file on one of its lines. *)
Definition has_lop_marker (readlines : string -> pyresult (list string))
    (ifile : string) : bool :=
  match readlines ifile with
  | PyOk datafile => existsb (PyStr.contains "system-device-tree-v1,lop") datafile
  | _ => false
  end.

(** The inputs read for the marker: names that end in [dts] or, failing
    that and [dtb], in [yaml], after some character. *)
Definition read_for_marker (ifile : string) : bool :=
  PyStr.search_any_then_end "dts" ifile
  || (negb (PyStr.search_any_then_end "dtb" ifile) && PyStr.search_any_then_end "yaml" ifile).

Definition is_lop_input (readlines : string -> pyresult (list string))
    (ifile : string) : bool :=
  if read_for_marker ifile then has_lop_marker readlines ifile
  else PyStr.search_any_then_end "dtb" ifile.

Definition is_sdt_input (readlines : string -> pyresult (list string))
    (ifile : string) : bool :=
  read_for_marker ifile && negb (has_lop_marker readlines ifile).

(** ** Locating an assist: [assist_find] *)

(** What [Path.resolve( True )] does: it resolves the path, raises
    [FileNotFoundError], or raises something else.  (Before Python 3.6
    [resolve()] is strict as well.) *)
Inductive resolved : Type :=
| Resolves
| NotFound
| ResolveError (exc : string).

Section AssistFind.

(** The file system, asked with [str(path)]. *)
Variable resolve : string -> resolved.

(** The directory lopper.py runs from. *)
Variable lopper_directory : string.

(** [try: mod_file_abs = mod_file.resolve( True ) ...
     except FileNotFoundError: mod_file_abs = ""]: is [mod_file_abs] truthy? *)
Definition try_resolve (mod_file : PurePath) : pyresult bool :=
  match resolve (pp_str mod_file) with
  | Resolves => PyOk true
  | NotFound => PyOk false
  | ResolveError e => PyRaise e
  end.

(** The body of [for s in search_paths], on [(mod_file, mod_file_abs)]. *)
Definition assist_find_step (st : PurePath * bool) (s : string)
  : pyresult (PurePath * bool) :=
  let mod_file := Path (String.append s (String.append "/" (pp_name (fst st)))) in
  match try_resolve mod_file with
  | PyOk mod_file_abs =>
      if negb mod_file_abs && negb (PyStr.endswith (pp_name mod_file) ".py") then
        (* try it with a .py *)
        let mod_file :=
          Path (String.append s
                  (String.append "/" (String.append (pp_name mod_file) ".py"))) in
        match try_resolve mod_file with
        | PyOk mod_file_abs => PyOk (mod_file, mod_file_abs)
        | PyRaise e => PyRaise e
        | PyExit c => PyExit c
        end
      else PyOk (mod_file, mod_file_abs)
  | PyRaise e => PyRaise e
  | PyExit c => PyExit c
  end.

Fixpoint assist_find_loop (st : PurePath * bool) (search_paths : list string)
  : pyresult (PurePath * bool) :=
  match search_paths with
  | [] => PyOk st
  | s :: r =>
      match assist_find_step st s with
      | PyOk st' => assist_find_loop st' r
      | PyRaise e => PyRaise e
      | PyExit c => PyExit c
      end
  end.

(** The directories searched when the name does not resolve as given. *)
Definition search_paths (local_load_paths : list string) : list string :=
  [lopper_directory] ++ [String.append lopper_directory "/assists/"] ++ local_load_paths.

(** [LopperSDT.assist_find(assist_name, local_load_paths)]: the path of the
    module, or [None].  [mod_file.with_suffix('')] raises [ValueError] for a
    path without a name. *)
Definition assist_find (werror : bool) (assist_name : string)
    (local_load_paths : list string) : pyresult (option PurePath) :=
  let mod_file := Path assist_name in
  if String.eqb (pp_name mod_file) "" then PyRaise "ValueError"
  else
    match resolve (pp_str mod_file) with
    | Resolves => PyOk (Some mod_file)
    | ResolveError e => PyRaise e
    | NotFound =>
        match assist_find_loop (mod_file, false) (search_paths local_load_paths) with
        | PyOk (mod_file, true) => PyOk (Some mod_file)
        | PyOk (_, false) =>
            (* module file not found *)
            if werror then PyExit 1 else PyOk None
        | PyRaise e => PyRaise e
        | PyExit c => PyExit c
        end
    end.

End AssistFind.

(** ** Assists run from the command line *)

(** [for m in module_args: module_arg_string = module_arg_string + " " + m] *)
Definition module_arg_string (module_args : list string) : string :=
  fold_left (fun s m => String.append (String.append s " ") m) module_args "".

(** [assist_autorun_setup(module_name, module_args)]: the lop file generated
    for an assist that is to run by itself. *)
Definition assist_autorun_setup (module_name : string) (module_args : list string)
  : LopperFile :=
  {| lf_dts := "";
     lf_tree :=
       LNode "" "" 0
         [ {| p_name := "compatible"; p_value := [VStr "system-device-tree-v1"] |};
           {| p_name := "priority"; p_value := [VInt 3] |} ]
         [ LNode "lops" "" 0 []
             [ LNode "lop_0" "" 0
                 ([ {| p_name := "compatible";
                       p_value := [VStr "system-device-tree-v1,lop,assist-v1"] |};
                    {| p_name := "node"; p_value := [VStr "/"] |} ]
                  ++ match module_args with
                     | [] => []
                     | _ => [ {| p_name := "options";
                                 p_value := [VStr (module_arg_string module_args)] |} ]
                     end
                  ++ [ {| p_name := "id";
                          p_value := [VStr (String.append "module," module_name)] |} ])
                 [] ] ] |}.

(** The end of the main program's setup: with [--auto] every assist of the
    command line gets a generated file, the module named after [--] with its
    arguments; without, the module alone.  Each generated file is inserted
    at the front of [self.lops]. *)
Definition autorun_lops (auto_run : bool) (cmdline_assists : list string)
    (module_name : string) (module_args : list string) (lops : list LopperFile)
  : list LopperFile :=
  if auto_run then
    fold_left (fun lops a =>
                 let assist_args := if String.eqb a module_name then module_args else [] in
                 assist_autorun_setup a assist_args :: lops)
              cmdline_assists lops
  else if negb (String.eqb module_name "") then
    assist_autorun_setup module_name module_args :: lops
  else lops.

(** The lop of a generated file, as the walk of [perform_lops] reaches it. *)
Definition generated_lop (x : LopperFile) : option nref :=
  tree_lookup (lf_tree x) "/lops/lop_0".

(** [cb_opts = lop_node.propval('options')[0]; cb_opts = cb_opts.lstrip();
     if cb_opts: cb_opts = cb_opts.split( ' ' ) else: cb_opts = []], for the
    value [propval] hands back; an exception here ends the process. *)
Definition assist_cb_opts (options : list pyval) : pyresult (list string) :=
  match options with
  | VStr cb_opts :: _ =>
      let cb_opts := PyStr.lstrip cb_opts in
      if String.eqb cb_opts "" then PyOk [] else PyOk (PyStr.split " "%char cb_opts)
  | _ => PyExit 1     (* callback options are missing *)
  end.

(** One call of an assist by the [assist-v1] lop. *)
Record AssistCall : Type := {
  ac_func : Callable;
  ac_node : nref;
  ac_verbose : Z;
  ac_args : list string
}.

Section AssistLop.

Context `{Externals}.

(** [node.propval(name)] of lopper_tree.py, as the handler uses it: a list. *)
Variable propval : nref -> string -> list pyval.

(** [self.find_compatible_assist( cb_node, cb_id )] with a node object as
    [cb_node]: the callables, or the exception. *)
Variable compatible_assists : nref -> pyval -> pyresult (list Callable).

Variable cb_run : Callable -> cb_outcome.

(** [for cb_func in cb_funcs: try: if not cb_func( cb_node, self, ... ) ...]  *)
Fixpoint assist_calls_loop (sdt : LopperSDT) (cb_node : nref) (cb_opts : list string)
    (cb_funcs : list Callable) : list AssistCall * pyresult unit :=
  match cb_funcs with
  | [] => ([], PyOk tt)
  | cb_func :: r =>
      let call := {| ac_func := cb_func; ac_node := cb_node;
                     ac_verbose := verbose sdt; ac_args := cb_opts |} in
      match cb_run cb_func with
      | CbReturn _ =>
          let '(calls, res) := assist_calls_loop sdt cb_node cb_opts r in (call :: calls, res)
      | CbRaise =>
          if werror sdt then ([call], PyExit 1)
          else let '(calls, res) := assist_calls_loop sdt cb_node cb_opts r in
               (call :: calls, res)
      end
  end.

(** The [assist-v1] handler of [exec_lop] on the tree with root [root]: the
    calls made and what the handler returns ([False] at the end of
    [exec_lop] when it does not return before). *)
Definition exec_assist (sdt : LopperSDT) (root : LopperNode) (lop_node : nref)
  : list AssistCall * pyresult pyret :=
  match nref_prop lop_node "node" with
  | None => ([], PyExit 1)         (* cannot find target node for the assist *)
  | Some p =>
      match p_value p with
      | [] => ([], PyExit 1)
      | cb_tgt_node_name :: _ =>
          match propval lop_node "assist", propval lop_node "id",
                assist_cb_opts (propval lop_node "options") with
          | _ :: _, cb_id :: _, PyOk cb_opts =>
              (* try: cb_node = self.tree.nodes(cb_tgt_node_name )[0]
                 except: cb_node = None *)
              let cb_node :=
                match cb_tgt_node_name with
                | VStr name => List.head (nodes root name)
                | VInt _ => None
                end in
              match cb_node with
              | None => if werror sdt then ([], PyExit 1) else ([], PyOk RetNone)
              | Some cb_node =>
                  match compatible_assists cb_node cb_id with
                  | PyOk cb_funcs =>
                      match assist_calls_loop sdt cb_node cb_opts cb_funcs with
                      | (calls, PyOk _) => (calls, PyOk (RetBool false))
                      | (calls, PyRaise e) => (calls, PyRaise e)
                      | (calls, PyExit c) => (calls, PyExit c)
                      end
                  | PyRaise e => ([], PyRaise e)
                  | PyExit c => ([], PyExit c)
                  end
              end
          | _, _, _ => ([], PyExit 1)     (* callback options are missing *)
          end
      end
  end.

End AssistLop.

(** ** The tree a lop works on *)

(** A tree of the engine: its root and its selection. *)
Record LopperTree : Type := {
  t_root : LopperNode;
  t_selected : list nref
}.

(** [try: tree_name = lop_node['tree'].value[0]
          try: tree = self.subtrees[tree_name]
          except: ... sys.exit(1)
     except: tree = self.tree]: the outer [except] takes the exit as well. *)
Definition lop_tree (main : LopperTree) (subtrees : gmap string LopperTree)
    (lop_node : nref) : LopperTree :=
  match nref_prop lop_node "tree" with
  | Some p =>
      match p_value p with
      | VStr tree_name :: _ => default main (subtrees !! tree_name)
      | _ => main
      end
  | None => main
  end.

(** ** The [conditional] lop: the handler *)

Section ConditionalLop.

Context `{Externals} {World : Type}.

Variable exec_block : nref -> string -> World -> World * lop_outcome.
Variable node_path : World -> nref -> string.

(** [re.sub( pattern, "", s )] of Python's [re]. *)
Variable re_sub_empty : string -> string -> string.

(** [try: root = lop_node["cond_root"].value[0] except: root = "/"] *)
Definition cond_root (lop_node : nref) : pyval :=
  match nref_prop lop_node "cond_root" with
  | Some p => match p_value p with v :: _ => v | [] => VStr "/" end
  | None => VStr "/"
  end.

(** [try: conditional_start = lops_tree[lop_node.abs_path + "/" + root]
     except: ... return False]: [None] is the return.  A root that is no
    string makes the concatenation raise, inside the same [try]. *)
Definition conditional_start (lops_root : LopperNode) (lop_node : nref) : option nref :=
  match cond_root lop_node with
  | VStr root =>
      tree_lookup lops_root (String.append (abs_path lop_node) (String.append "/" root))
  | VInt _ => None
  end.

(** The deepest node of the chain and the targets (1467-1479):
    [cond_last_node = conditional_start.subnodes()[-1]], its path without
    the path of the lop is looked up with [tree.nodes]; [None] when the
    handler returns [False] here, the chain not found or no target in the
    tree. *)
Definition cond_targets (lops_root root : LopperNode) (lop_node : nref)
  : option (nref * list nref) :=
  match conditional_start lops_root lop_node with
  | None => None
  | Some start =>
      let cond_nodes := subnodes start in
      let cond_last_node := List.last cond_nodes start in
      let cond_path := re_sub_empty (abs_path lop_node) (abs_path cond_last_node) in
      match nodes root cond_path with
      | [] => None
      | sdt_tgt_nodes => Some (cond_last_node, sdt_tgt_nodes)
      end
  end.

(** The [conditional] handler of [exec_lop] (1436-1585, and the
    [return False] the function ends with), for the engine's trees, the
    tree of the lop file and the lop node. *)
Definition exec_conditional (main : LopperTree) (subtrees : gmap string LopperTree)
    (lops_root : LopperNode) (lop_node : nref) (w : World) : cond_run :=
  let tree := lop_tree main subtrees lop_node in
  match cond_targets lops_root (t_root tree) lop_node with
  | None =>
      {| true_runs := []; false_runs := []; cond_world := w;
         cond_result := PyOk (RetBool false) |}
  | Some (cond_last_node, sdt_tgt_nodes) =>
      cond_dispatch exec_block node_path lop_node cond_last_node sdt_tgt_nodes w
  end.

End ConditionalLop.

(** ** The [output] and [tree] lops *)

(** What a new tree is made of: the whole tree, or copies of nodes. *)
Inductive tree_source : Type :=
| WholeTree
| CopiesOf (l : list nref).

Section OutputLop.

Context `{Externals}.

(** [node.propval(name)] of lopper_tree.py, as the handlers use it: a list. *)
Variable propval : nref -> string -> list pyval.

(** [split_node = regex.split(":")] and the three fields read from it. *)
Definition split_node (regex : string) : string * string * string :=
  let split_node := PyStr.split ":"%char regex in
  (List.hd "" split_node, List.nth 1 split_node "", List.nth 2 split_node "").

(** The body of [for o in o_nodes]. *)
Definition gather_node (o_prop_name o_prop_val : string) (output_nodes : list nref)
    (o : nref) : list nref :=
  if negb (String.eqb o_prop_name "") then
    (* we test for a property in the node if it was defined *)
    let p := propval o o_prop_name in
    if negb (String.eqb o_prop_val "") then
      if value_truthy p then
        if existsb (pyval_eqb (VStr o_prop_val)) p then
          if nref_in o output_nodes then output_nodes else output_nodes ++ [o]
        else output_nodes
      else output_nodes
    else output_nodes
  else
    if nref_in o output_nodes then output_nodes else output_nodes ++ [o].

(** The body of [for regex in output_regex] for a string. *)
Definition gather_regex (root : LopperNode) (output_nodes : list nref) (regex : string)
  : list nref :=
  let '(o_node_regex, o_prop_name, o_prop_val) := split_node regex in
  (* if there's no / anywhere in the regex, then it is just a node name *)
  let o_node_regex :=
    if PyStr.has_char "/"%char o_node_regex then o_node_regex
    else String.append ".*" o_node_regex in
  let o_nodes :=
    match nodes root o_node_regex with
    | [] => lnodes root o_node_regex      (* was it a label ? *)
    | l => l
    end in
  fold_left (gather_node o_prop_name o_prop_val) o_nodes output_nodes.

(** [for regex in output_regex]: an entry that is no string has no
    [split].  (The [try] around the search of one entry turns an exception
    of the regular expression engine into a warning; the interface above
    has none.) *)
Fixpoint gather_nodes (root : LopperNode) (output_regex : list pyval)
    (output_nodes : list nref) : pyresult (list nref) :=
  match output_regex with
  | [] => PyOk output_nodes
  | VStr regex :: r => gather_nodes root r (gather_regex root output_nodes regex)
  | VInt _ :: _ => PyRaise "AttributeError"
  end.

(** [try: x = lop_node['nodes'].value except: x = []] *)
Definition nodes_prop (lop_node : nref) : list pyval :=
  match nref_prop lop_node "nodes" with
  | Some p => p_value p
  | None => []
  end.

(** The tree built under [if output_regex:] ([if tree_regex:]); [None]: no
    tree. *)
Definition regex_tree (root : LopperNode) (output_regex : list pyval)
  : pyresult (option tree_source) :=
  if existsb (pyval_eqb (VStr "*")) output_regex then PyOk (Some WholeTree)
  else
    match gather_nodes root output_regex [] with
    | PyOk [] => PyOk None
    | PyOk output_nodes => PyOk (Some (CopiesOf output_nodes))
    | PyRaise e => PyRaise e
    | PyExit c => PyExit c
    end.

(** A call [self.write( out_fdt, output_file_full, True, self.enhanced )]. *)
Record WriteCall : Type := {
  wc_tree : tree_source;
  wc_filename : string;
  wc_overwrite : bool;
  wc_enhanced : bool
}.

(** The [output] handler of [exec_lop]: the write it asks for, if any, and
    what it returns.  (A tree object is truthy; the copies of the nodes and
    their addition to the new tree are taken not to raise.) *)
Definition exec_output (main : LopperTree) (subtrees : gmap string LopperTree)
    (outdir : string) (dryrun enhanced : bool) (lop_node : nref)
  : option WriteCall * pyresult pyret :=
  match nref_prop lop_node "outfile" with
  | None => (None, PyExit 1)       (* cannot get output file name from lop *)
  | Some p =>
      match p_value p with
      | [] => (None, PyExit 1)
      | output_file_name :: _ =>
          let tree := lop_tree main subtrees lop_node in
          let output_regex := nodes_prop lop_node in
          let output_nodes :=
            match output_regex with
            | [] => t_selected tree
            | _ => []
            end in
          match output_regex, output_nodes with
          | [], [] => (None, PyOk (RetBool false))
          | _, _ =>
              let output_tree :=
                match output_regex with
                | [] => PyOk None
                | _ => regex_tree (t_root tree) output_regex
                end in
              match output_tree with
              | PyOk (Some src) =>
                  if negb dryrun then
                    match output_file_name with
                    | VStr name =>
                        (Some {| wc_tree := src;
                                 wc_filename := String.append outdir (String.append "/" name);
                                 wc_overwrite := true;
                                 wc_enhanced := enhanced |},
                         PyOk (RetBool false))
                    | VInt _ => (None, PyRaise "TypeError")
                    end
                  else (None, PyOk (RetBool false))
              | PyOk None => (None, PyOk (RetBool false))
              | PyRaise e => (None, PyRaise e)
              | PyExit c => (None, PyExit c)
              end
          end
      end
  end.

(** The [tree] handler of [exec_lop]: the entry it adds to
    [self.subtrees], if any, and what it returns.  The nodes are looked for
    in the main tree. *)
Definition exec_tree (main : LopperTree) (lop_node : nref)
  : option (pyval * tree_source) * pyresult pyret :=
  match nref_prop lop_node "tree" with
  | None => (None, PyExit 1)       (* tree lop: cannot get tree name from lop *)
  | Some p =>
      match p_value p with
      | [] => (None, PyExit 1)
      | tree_name :: _ =>
          let tree_regex := nodes_prop lop_node in
          let tree_nodes :=
            match tree_regex with
            | [] => t_selected main
            | _ => []
            end in
          match tree_regex, tree_nodes with
          | [], [] => (None, PyOk (RetBool false))
          | _, _ =>
              let new_tree :=
                match tree_regex with
                | [] => PyOk None
                | _ => regex_tree (t_root main) tree_regex
                end in
              match new_tree with
              | PyOk (Some src) => (Some (tree_name, src), PyOk (RetBool false))
              | PyOk None => (None, PyExit 1)      (* no tree created, exiting *)
              | PyRaise e => (None, PyRaise e)
              | PyExit c => (None, PyExit c)
              end
          end
      end
  end.

End OutputLop.

(** ** The command line: [main] *)

(** The globals [main] sets. *)
Record Globals : Type := mkGlobals {
  g_debug : bool;
  g_sdt : option string;
  g_verbose : Z;
  g_output : string;
  g_inputfiles : list string;
  g_force : bool;
  g_dump_dtb : bool;
  g_dryrun : bool;
  g_target_domain : string;
  g_cmdline_assists : list string;
  g_werror : bool;
  g_save_temps : bool;
  g_enhanced_print : bool;
  g_outdir : string;
  g_load_paths : list string;
  g_server : bool;
  g_auto_run : bool;
  g_permissive : bool;
  g_xlate : list string;
  g_module_name : string;
  g_module_args : list string
}.

Definition initial_globals : Globals :=
  {| g_debug := false; g_sdt := None; g_verbose := 0; g_output := "";
     g_inputfiles := []; g_force := false; g_dump_dtb := false; g_dryrun := false;
     g_target_domain := ""; g_cmdline_assists := []; g_werror := false;
     g_save_temps := false; g_enhanced_print := false; g_outdir := "./";
     g_load_paths := []; g_server := false; g_auto_run := false;
     g_permissive := false; g_xlate := []; g_module_name := ""; g_module_args := [] |}.

Definition set_debug (v : bool) (g : Globals) : Globals :=
  let 'mkGlobals _ a2 a3 a4 a5 a6 a7 a8 a9 a10 a11 a12 a13 a14 a15 a16 a17 a18 a19 a20 a21 := g in
  mkGlobals v a2 a3 a4 a5 a6 a7 a8 a9 a10 a11 a12 a13 a14 a15 a16 a17 a18 a19 a20 a21.
Definition set_sdt (v : option string) (g : Globals) : Globals :=
  let 'mkGlobals a1 _ a3 a4 a5 a6 a7 a8 a9 a10 a11 a12 a13 a14 a15 a16 a17 a18 a19 a20 a21 := g in
  mkGlobals a1 v a3 a4 a5 a6 a7 a8 a9 a10 a11 a12 a13 a14 a15 a16 a17 a18 a19 a20 a21.
Definition set_verbose (v : Z) (g : Globals) : Globals :=
  let 'mkGlobals a1 a2 _ a4 a5 a6 a7 a8 a9 a10 a11 a12 a13 a14 a15 a16 a17 a18 a19 a20 a21 := g in
  mkGlobals a1 a2 v a4 a5 a6 a7 a8 a9 a10 a11 a12 a13 a14 a15 a16 a17 a18 a19 a20 a21.
Definition set_output (v : string) (g : Globals) : Globals :=
  let 'mkGlobals a1 a2 a3 _ a5 a6 a7 a8 a9 a10 a11 a12 a13 a14 a15 a16 a17 a18 a19 a20 a21 := g in
  mkGlobals a1 a2 a3 v a5 a6 a7 a8 a9 a10 a11 a12 a13 a14 a15 a16 a17 a18 a19 a20 a21.
Definition set_inputfiles (v : list string) (g : Globals) : Globals :=
  let 'mkGlobals a1 a2 a3 a4 _ a6 a7 a8 a9 a10 a11 a12 a13 a14 a15 a16 a17 a18 a19 a20 a21 := g in
  mkGlobals a1 a2 a3 a4 v a6 a7 a8 a9 a10 a11 a12 a13 a14 a15 a16 a17 a18 a19 a20 a21.
Definition set_force (v : bool) (g : Globals) : Globals :=
  let 'mkGlobals a1 a2 a3 a4 a5 _ a7 a8 a9 a10 a11 a12 a13 a14 a15 a16 a17 a18 a19 a20 a21 := g in
  mkGlobals a1 a2 a3 a4 a5 v a7 a8 a9 a10 a11 a12 a13 a14 a15 a16 a17 a18 a19 a20 a21.
Definition set_dump_dtb (v : bool) (g : Globals) : Globals :=
  let 'mkGlobals a1 a2 a3 a4 a5 a6 _ a8 a9 a10 a11 a12 a13 a14 a15 a16 a17 a18 a19 a20 a21 := g in
  mkGlobals a1 a2 a3 a4 a5 a6 v a8 a9 a10 a11 a12 a13 a14 a15 a16 a17 a18 a19 a20 a21.
Definition set_dryrun (v : bool) (g : Globals) : Globals :=
  let 'mkGlobals a1 a2 a3 a4 a5 a6 a7 _ a9 a10 a11 a12 a13 a14 a15 a16 a17 a18 a19 a20 a21 := g in
  mkGlobals a1 a2 a3 a4 a5 a6 a7 v a9 a10 a11 a12 a13 a14 a15 a16 a17 a18 a19 a20 a21.
Definition set_target_domain (v : string) (g : Globals) : Globals :=
  let 'mkGlobals a1 a2 a3 a4 a5 a6 a7 a8 _ a10 a11 a12 a13 a14 a15 a16 a17 a18 a19 a20 a21 := g in
  mkGlobals a1 a2 a3 a4 a5 a6 a7 a8 v a10 a11 a12 a13 a14 a15 a16 a17 a18 a19 a20 a21.
Definition set_cmdline_assists (v : list string) (g : Globals) : Globals :=
  let 'mkGlobals a1 a2 a3 a4 a5 a6 a7 a8 a9 _ a11 a12 a13 a14 a15 a16 a17 a18 a19 a20 a21 := g in
  mkGlobals a1 a2 a3 a4 a5 a6 a7 a8 a9 v a11 a12 a13 a14 a15 a16 a17 a18 a19 a20 a21.
Definition set_werror (v : bool) (g : Globals) : Globals :=
  let 'mkGlobals a1 a2 a3 a4 a5 a6 a7 a8 a9 a10 _ a12 a13 a14 a15 a16 a17 a18 a19 a20 a21 := g in
  mkGlobals a1 a2 a3 a4 a5 a6 a7 a8 a9 a10 v a12 a13 a14 a15 a16 a17 a18 a19 a20 a21.
Definition set_save_temps (v : bool) (g : Globals) : Globals :=
  let 'mkGlobals a1 a2 a3 a4 a5 a6 a7 a8 a9 a10 a11 _ a13 a14 a15 a16 a17 a18 a19 a20 a21 := g in
  mkGlobals a1 a2 a3 a4 a5 a6 a7 a8 a9 a10 a11 v a13 a14 a15 a16 a17 a18 a19 a20 a21.
Definition set_enhanced_print (v : bool) (g : Globals) : Globals :=
  let 'mkGlobals a1 a2 a3 a4 a5 a6 a7 a8 a9 a10 a11 a12 _ a14 a15 a16 a17 a18 a19 a20 a21 := g in
  mkGlobals a1 a2 a3 a4 a5 a6 a7 a8 a9 a10 a11 a12 v a14 a15 a16 a17 a18 a19 a20 a21.
Definition set_outdir (v : string) (g : Globals) : Globals :=
  let 'mkGlobals a1 a2 a3 a4 a5 a6 a7 a8 a9 a10 a11 a12 a13 _ a15 a16 a17 a18 a19 a20 a21 := g in
  mkGlobals a1 a2 a3 a4 a5 a6 a7 a8 a9 a10 a11 a12 a13 v a15 a16 a17 a18 a19 a20 a21.
Definition set_load_paths (v : list string) (g : Globals) : Globals :=
  let 'mkGlobals a1 a2 a3 a4 a5 a6 a7 a8 a9 a10 a11 a12 a13 a14 _ a16 a17 a18 a19 a20 a21 := g in
  mkGlobals a1 a2 a3 a4 a5 a6 a7 a8 a9 a10 a11 a12 a13 a14 v a16 a17 a18 a19 a20 a21.
Definition set_server (v : bool) (g : Globals) : Globals :=
  let 'mkGlobals a1 a2 a3 a4 a5 a6 a7 a8 a9 a10 a11 a12 a13 a14 a15 _ a17 a18 a19 a20 a21 := g in
  mkGlobals a1 a2 a3 a4 a5 a6 a7 a8 a9 a10 a11 a12 a13 a14 a15 v a17 a18 a19 a20 a21.
Definition set_auto_run (v : bool) (g : Globals) : Globals :=
  let 'mkGlobals a1 a2 a3 a4 a5 a6 a7 a8 a9 a10 a11 a12 a13 a14 a15 a16 _ a18 a19 a20 a21 := g in
  mkGlobals a1 a2 a3 a4 a5 a6 a7 a8 a9 a10 a11 a12 a13 a14 a15 a16 v a18 a19 a20 a21.
Definition set_permissive (v : bool) (g : Globals) : Globals :=
  let 'mkGlobals a1 a2 a3 a4 a5 a6 a7 a8 a9 a10 a11 a12 a13 a14 a15 a16 a17 _ a19 a20 a21 := g in
  mkGlobals a1 a2 a3 a4 a5 a6 a7 a8 a9 a10 a11 a12 a13 a14 a15 a16 a17 v a19 a20 a21.
Definition set_xlate (v : list string) (g : Globals) : Globals :=
  let 'mkGlobals a1 a2 a3 a4 a5 a6 a7 a8 a9 a10 a11 a12 a13 a14 a15 a16 a17 a18 _ a20 a21 := g in
  mkGlobals a1 a2 a3 a4 a5 a6 a7 a8 a9 a10 a11 a12 a13 a14 a15 a16 a17 a18 v a20 a21.
Definition set_module_name (v : string) (g : Globals) : Globals :=
  let 'mkGlobals a1 a2 a3 a4 a5 a6 a7 a8 a9 a10 a11 a12 a13 a14 a15 a16 a17 a18 a19 _ a21 := g in
  mkGlobals a1 a2 a3 a4 a5 a6 a7 a8 a9 a10 a11 a12 a13 a14 a15 a16 a17 a18 a19 v a21.
Definition set_module_args (v : list string) (g : Globals) : Globals :=
  let 'mkGlobals a1 a2 a3 a4 a5 a6 a7 a8 a9 a10 a11 a12 a13 a14 a15 a16 a17 a18 a19 a20 _ := g in
  mkGlobals a1 a2 a3 a4 a5 a6 a7 a8 a9 a10 a11 a12 a13 a14 a15 a16 a17 a18 a19 a20 v.

(** [o in (a, b)] for a tuple of two strings. *)
Definition is_one_of (o a b : string) : bool := String.eqb o a || String.eqb o b.

(** [o in (a)]: the parentheses make no tuple, the test asks whether [o] is
    a part of the string [a]. *)
Definition is_part_of (o a : string) : bool := PyStr.contains o a.

(** The body of [for o, a in opts]. *)
Definition main_opt (g : Globals) (oa : string * string) : pyresult Globals :=
  let '(o, a) := oa in
  if is_one_of o "-v" "--verbose" then PyOk (set_verbose (g_verbose g + 1) g)
  else if is_one_of o "-d" "--dump" then PyOk (set_dump_dtb true g)
  else if is_one_of o "-f" "--force" then PyOk (set_force true g)
  else if is_one_of o "-h" "--help" then PyExit 0
  else if is_one_of o "-i" "--input" then PyOk (set_inputfiles (g_inputfiles g ++ [a]) g)
  else if is_one_of o "-a" "--assist" then
    PyOk (set_cmdline_assists (g_cmdline_assists g ++ [a]) g)
  else if is_one_of o "-A" "--assist-path" then
    PyOk (set_load_paths (g_load_paths g ++ PyStr.split ":"%char a) g)
  else if is_one_of o "-O" "--outdir" then PyOk (set_outdir a g)
  else if is_one_of o "-D" "--debug" then PyOk (set_debug true g)
  else if is_one_of o "-t" "--target" then PyOk (set_target_domain a g)
  else if is_one_of o "-o" "--output" then PyOk (set_output a g)
  else if is_part_of o "--dryrun" then PyOk (set_dryrun true g)
  else if is_part_of o "--werror" then PyOk (set_werror true g)
  else if is_part_of o "--server" then PyOk (set_server true g)
  else if is_one_of o "-S" "--save-temps" then PyOk (set_save_temps true g)
  else if is_part_of o "--enhanced" then PyOk (set_enhanced_print true g)
  else if is_part_of o "--auto" then PyOk (set_auto_run true g)
  else if is_part_of o "--permissive" then PyOk (set_permissive true g)
  else if is_one_of o "-x" "--xlate" then PyOk (set_xlate (g_xlate g ++ [a]) g)
  else if is_part_of o "--version" then PyExit 0
  else PyRaise "AssertionError".

Fixpoint main_opts (g : Globals) (opts : list (string * string)) : pyresult Globals :=
  match opts with
  | [] => PyOk g
  | oa :: r =>
      match main_opt g oa with
      | PyOk g' => main_opts g' r
      | PyRaise e => PyRaise e
      | PyExit c => PyExit c
      end
  end.

Section MainArgs.

(** [Path(sdt).resolve()] does not raise [FileNotFoundError]. *)
Variable sdt_resolves : string -> bool.

(** [Path(p).exists()] *)
Variable path_exists : string -> bool.

(** The body of [for idx, item in enumerate(args)], on the globals and
    [module_args_found]. *)
Definition main_arg (idx : nat) (st : Globals * bool) (item : string)
  : pyresult (Globals * bool) :=
  let '(g, module_args_found) := st in
  match idx with
  | O =>
      if sdt_resolves item then PyOk (set_sdt (Some item) g, module_args_found)
      else PyExit 1     (* system device tree does not exist *)
  | S _ =>
      let module_args_found := String.eqb item "--" || module_args_found in
      if negb module_args_found then
        match idx with
        | 1%nat =>
            if negb (String.eqb (g_output g) "") then
              PyExit 1     (* output was already provided via -o *)
            else if path_exists item && negb (g_force g) then
              PyExit 1     (* output file exists, and -f was not passed *)
            else PyOk (set_output item g, module_args_found)
        | _ => PyOk (g, module_args_found)
        end
      else
        (* module arguments *)
        if negb (String.eqb item "--") then
          if String.eqb (g_module_name g) "" then
            PyOk (set_cmdline_assists (g_cmdline_assists g ++ [item])
                    (set_module_name item g), module_args_found)
          else PyOk (set_module_args (g_module_args g ++ [item]) g, module_args_found)
        else PyOk (g, module_args_found)
  end.

Fixpoint main_args (idx : nat) (st : Globals * bool) (args : list string)
  : pyresult (Globals * bool) :=
  match args with
  | [] => PyOk st
  | item :: r =>
      match main_arg idx st item with
      | PyOk st' => main_args (S idx) st' r
      | PyRaise e => PyRaise e
      | PyExit c => PyExit c
      end
  end.

(** [Path(p).suffix]: the name from its last dot on, unless that dot is the
    first or the last character of the name. *)
Definition pp_suffix (p : PurePath) : string :=
  let name := pp_name p in
  let i := PyStr.rfind1 "."%char name in
  if (1 <? i)%nat && (i <? String.length name)%nat then PyStr.drop (i - 1) name else "".

(** The body of [for x in xlate]: the new [x_files]. *)
Definition xlate_file (x : string) : list string :=
  match PyStr.split ":"%char x with
  | _ :: x_lop_0 :: _ => [x_lop_0]
  | x_type :: [] =>
      (* generate the lop name *)
      let extension := PyStr.remove_char "."%char (pp_suffix (Path x_type)) in
      [String.append "lop-xlate-" (String.append extension ".dts")]
  | [] => []
  end.

(** [for x in xlate: ... x_files = [] ...]: [x_files] as the loop leaves
    it. *)
Definition xlate_files (xlate : list string) : list string :=
  fold_left (fun x_files x => xlate_file x) xlate [].

(** [for x in x_files]: the file is taken as named or from [lops/]. *)
Fixpoint check_xlate_files (inputfiles : list string) (x_files : list string)
  : pyresult (list string) :=
  match x_files with
  | [] => PyOk inputfiles
  | x :: r =>
      if path_exists x then check_xlate_files (inputfiles ++ [x]) r
      else
        let x := String.append "lops/" x in
        if path_exists x then check_xlate_files (inputfiles ++ [x]) r
        else PyExit 1      (* input file does not exist *)
  end.

(** [if xlate: ...] at the end of [main]. *)
Definition main_xlate (g : Globals) : pyresult Globals :=
  match g_xlate g with
  | [] => PyOk g
  | xlate =>
      match check_xlate_files (g_inputfiles g) (xlate_files xlate) with
      | PyOk inputfiles => PyOk (set_inputfiles inputfiles g)
      | PyRaise e => PyRaise e
      | PyExit c => PyExit c
      end
  end.

(** [Path( outdir ).resolve()] raises nothing. *)
Variable outdir_resolves : string -> bool.

(** [Lopper.input_file_type(i)] of lopper_fdt.py. *)
Variable input_file_type : string -> string.

(** [for i in inputfiles]: each input exists and has a known type. *)
Definition valid_input (i : string) : bool :=
  path_exists i
  && existsb (String.eqb (input_file_type i)) [".dtsi"; ".dtb"; ".dts"; ".yaml"].

(** [main()], from the options and arguments [getopt] hands back. *)
Definition main (opts : list (string * string)) (args : list string) : pyresult Globals :=
  match opts, args with
  | [], [] => PyExit 1
  | _, _ =>
      match main_opts initial_globals opts with
      | PyOk g =>
          match main_args 0 (g, false) args with
          | PyOk (g, _) =>
              match g_sdt g with
              | None | Some "" => PyExit 1     (* no system device tree was supplied *)
              | Some _ =>
                  if negb (String.eqb (g_outdir g) "./") && negb (outdir_resolves (g_outdir g))
                  then PyExit 1
                  else if forallb valid_input (g_inputfiles g) then main_xlate g
                  else PyExit 1
              end
          | PyRaise e => PyRaise e
          | PyExit c => PyExit c
          end
      | PyRaise e => PyRaise e
      | PyExit c => PyExit c
      end
  end.

End MainArgs.

(** ** Notions for the statements on the handlers above *)

(** A path component: not empty, not [.], and without slash. *)
Definition is_component (n : string) : Prop :=
  n <> "" /\ n <> "." /\ PyStr.has_char "/"%char n = false.

(** The values given with an option, in the order of the command line. *)
Definition option_values (short long : string) (opts : list (string * string))
  : list string :=
  map snd (filter (fun oa => is_one_of (fst oa) short long = true) opts).

(** The arguments, each after a space. *)
Fixpoint spaced (module_args : list string) : string :=
  match module_args with
  | [] => ""
  | m :: r => String.append " " (String.append m (spaced r))
  end.

(** What [write] may do to a file that exists when it is not to overwrite:
    hand it to [Lopper.write_fdt] with [overwrite] false, or to an assist. *)
Definition keeps_existing (e : WriteEvent) : Prop :=
  match e with
  | EvWriteFdt _ overwrite => overwrite = false
  | EvPrintDts _ | EvWriteYaml _ => False
  | EvAssistCall _ _ _ | EvWarning _ => True
  end.

(** A call of [exec_lop] the walk may make: on a node of the file's tree
    that is a lop and carries no [noexec]. *)
Definition sound_call (c : lop_call) : Prop :=
  snd c ∈ preorder (lf_tree (fst c)) /\ is_lop (snd c) = true /\ has_noexec (snd c) = false.

(** The run ended in its last call, with what that call ended in. *)
Definition ended_in {World : Type}
    (exec_lop : LopperFile -> nref -> World -> pyresult World)
    (calls : list lop_call) (res : pyresult World) : Prop :=
  exists init x f w', calls = init ++ [(x, f)] /\ exec_lop x f w' = res.

(** The first registered assist that has a module. *)
Definition first_loaded (assists : list LopperAssist) : option LopperAssist :=
  List.find (fun a => match a_module a with Some _ => true | None => false end) assists.

(** ** An implementation of the interface, for the examples *)

(** A regular expression of the fragment the examples use: literal
    characters, [.], an atom followed by [*], a backslash before a literal
    character, [^] first and [$] last.  Other operators of Python's [re] are
    read as literal characters. *)
Inductive re_atom : Type :=
| ReChar (c : ascii)
| ReAny.

Inductive re_item : Type :=
| ReOne (a : re_atom)
| ReStar (a : re_atom).

Fixpoint re_parse (s : string) : list re_item :=
  match s with
  | EmptyString => []
  | String c r =>
      if Ascii.eqb c "\"%char then
        match r with
        | EmptyString => [ReOne (ReChar c)]
        | String d r' =>
            match r' with
            | String e r'' =>
                if Ascii.eqb e "*"%char then ReStar (ReChar d) :: re_parse r''
                else ReOne (ReChar d) :: re_parse r'
            | EmptyString => [ReOne (ReChar d)]
            end
        end
      else
        let a := if Ascii.eqb c "."%char then ReAny else ReChar c in
        match r with
        | String e r' =>
            if Ascii.eqb e "*"%char then ReStar a :: re_parse r'
            else ReOne a :: re_parse r
        | EmptyString => [ReOne a]
        end
  end.

Definition re_atom_ok (a : re_atom) (c : ascii) : bool :=
  match a with
  | ReAny => negb (Ascii.eqb c "010"%char)
  | ReChar d => Ascii.eqb d c
  end.

(** The items match a prefix of [s], all of [s] when [to_end]. *)
Fixpoint re_match_here (items : list re_item) (to_end : bool) (s : string)
    {struct items} : bool :=
  match items with
  | [] => if to_end then String.eqb s "" else true
  | ReOne a :: r =>
      match s with
      | String c s' => re_atom_ok a c && re_match_here r to_end s'
      | EmptyString => false
      end
  | ReStar a :: r =>
      (fix star (s : string) : bool :=
         re_match_here r to_end s ||
         match s with
         | String c s' => re_atom_ok a c && star s'
         | EmptyString => false
         end) s
  end.

Fixpoint re_match_anywhere (items : list re_item) (to_end : bool) (s : string) : bool :=
  re_match_here items to_end s ||
  match s with
  | String _ s' => re_match_anywhere items to_end s'
  | EmptyString => false
  end.

(** [re.search(pattern, s)] on this fragment, for a one-line [s]. *)
Definition mini_re_search (pattern s : string) : bool :=
  let at_start := PyStr.startswith pattern "^" in
  let pattern := if at_start then PyStr.drop 1 pattern else pattern in
  let to_end := PyStr.endswith pattern "$" in
  let pattern := if to_end then PyStr.take (String.length pattern - 1) pattern else pattern in
  if at_start then re_match_here (re_parse pattern) to_end s
  else re_match_anywhere (re_parse pattern) to_end s.

(** Modelled from the spec: property comparison, for lists, is
    set-membership of the literal value: every value of the test property
    is among the values of the property ([LopperProp.compare] of
    lopper_tree.py). *)
Definition mini_compare (test p : LopperProp) : bool :=
  match p_value test with
  | [] => match p_value p with [] => true | _ => false end
  | vs => forallb (fun v => existsb (pyval_eqb v) (p_value p)) vs
  end.

Definition is_digit (c : ascii) : bool :=
  let n := nat_of_ascii c in (48 <=? n)%nat && (n <=? 57)%nat.

Fixpoint parse_decimal (acc : Z) (s : string) : option Z :=
  match s with
  | EmptyString => Some acc
  | String c r =>
      if is_digit c then parse_decimal (10 * acc + Z.of_nat (nat_of_ascii c - 48)) r
      else None
  end.

(** Modelled from the spec: best-effort parsing of a literal, here a decimal
    integer or else a string ([Lopper.property_convert] of lopper_fdt.py). *)
Definition mini_property_convert (s : string) : list pyval :=
  match s with
  | EmptyString => [VStr s]
  | _ => match parse_decimal 0 s with
         | Some z => [VInt z]
         | None => [VStr s]
         end
  end.

Definition mini_externals : Externals :=
  {| re_search := mini_re_search;
     prop_compare := mini_compare;
     property_convert := mini_property_convert |}.

(** [re.sub( pattern, "", s )] for a pattern of literal characters: every
    occurrence of the pattern is dropped, from the left.  [skip] counts the
    characters of an occurrence still to drop. *)
Fixpoint drop_literal (pattern s : string) (skip : nat) : string :=
  match s with
  | EmptyString => EmptyString
  | String c r =>
      match skip with
      | S k => drop_literal pattern r k
      | O =>
          if PyStr.startswith s pattern
          then drop_literal pattern r (String.length pattern - 1)
          else String c (drop_literal pattern r 0)
      end
  end.

Definition mini_re_sub_empty (pattern s : string) : string :=
  if String.eqb pattern "" then s else drop_literal pattern s 0.

(** ** Example trees *)

Definition prop (name : string) (v : list pyval) : LopperProp :=
  {| p_name := name; p_value := v |}.

(** A lop node of the given kind. *)
Definition lop (name kind : string) (ps : list LopperProp) (cs : list LopperNode)
  : LopperNode :=
  LNode name "" 0
    (prop "compatible" [VStr (String.append "system-device-tree-v1,lop," kind)] :: ps) cs.

(** The root of a lop file with its priority and its lops under [/lops]. *)
Definition lop_root (priority : Z) (lops : list LopperNode) : LopperNode :=
  LNode "" "" 0
    [prop "compatible" [VStr "system-device-tree-v1"]; prop "priority" [VInt priority]]
    [LNode "lops" "" 0 [] lops].

(** File A, priority 3, adds [/foo]; file B, priority 1, deletes [/foo]. *)
Definition ex_file_a : LopperFile :=
  {| lf_dts := "a.dts";
     lf_tree := lop_root 3 [lop "lop_0" "add" [prop "node_src" [VStr "foo"]]
                               [LNode "foo" "" 0 [] []]] |}.

Definition ex_file_b : LopperFile :=
  {| lf_dts := "b.dts";
     lf_tree := lop_root 1 [lop "lop_0" "modify" [prop "modify" [VStr "/foo::"]] []] |}.

(** An [exec_lop] that records which lop of which file it was called on. *)
Definition ex_exec (x : LopperFile) (f : nref) (w : list (string * string))
  : pyresult (list (string * string)) :=
  PyOk (w ++ [(lf_dts x, abs_path f)]).

(** A conditional lop with a [true] block, a lop with [noexec], and a plain
    lop after them. *)
Definition ex_file_cond : LopperFile :=
  {| lf_dts := "cond.dts";
     lf_tree := lop_root 5
       [ lop "lop_0" "conditional" []
           [ LNode "cpus" "" 0 [] [LNode "cpu@0" "" 0 [prop "status" [VStr "okay"]] []];
             lop "true_1" "modify" [prop "modify" [VStr "/cpus/cpu@0:enabled:1"]] [] ];
         lop "lop_1" "modify" [prop "noexec" []; prop "modify" [VStr "/chosen:bootargs:"]] [];
         lop "lop_2" "modify" [prop "modify" [VStr "/chosen:bootargs:"]] [] ] |}.

(** A lop nested in the [true] block of a conditional lop: its parent is a
    code lop, not the conditional. *)
Definition ex_file_deep : LopperFile :=
  {| lf_dts := "deep.dts";
     lf_tree := lop_root 5
       [ lop "lop_0" "conditional" []
           [ lop "true_1" "code-v1" [prop "code" [VStr "return True"]]
               [ lop "inner" "modify" [prop "modify" [VStr "/chosen:bootargs:"]] [] ] ] ] |}.

(** A conditional lop as the [true] block of a conditional lop, followed by
    a second block. *)
Definition ex_file_nested : LopperFile :=
  {| lf_dts := "nested.dts";
     lf_tree := lop_root 5
       [ lop "lop_0" "conditional" []
           [ lop "true_1" "conditional" [] [];
             lop "true_2" "modify" [prop "modify" [VStr "/chosen:bootargs:"]] [] ] ] |}.

(** *** Assists for the examples *)

(** An assist whose [is_compat] always hands back the callable [cb], with
    the given [mask] property ([""]: none registered). *)
Definition ex_assist (file cb mask : string) : LopperAssist :=
  {| a_file := file;
     a_module := Some {| is_compat := fun _ _ => Some cb |};
     a_properties := if String.eqb mask "" then ∅ else {[ "mask" := mask ]} |}.

(** Two assists that registered no mask. *)
Definition ex_sdt_two : LopperSDT :=
  {| assists := [ex_assist "cdo.py" "cdo_write" ""; ex_assist "baremetal.py" "bm_write" ""];
     verbose := 1; werror := false; output_file := "" |}.

(** Every callable returns a truthy value. *)
Definition ex_cb_run (cb : Callable) : cb_outcome := CbReturn true.


(** An assist that registered an id; its callable is named after the id
    [is_compat] was asked with. *)
Definition ex_assist_id (file id : string) : LopperAssist :=
  {| a_file := file;
     a_module := Some {| is_compat := fun _ i => Some (String.append "cb:" i) |};
     a_properties := {[ "id" := id ]} |}.

(** *** A conditional lop and its targets *)

(** The chain [cpus/cpu@0] with the condition [status = "okay"], a [true]
    block and two [false] blocks. *)
Definition ex_cond_chain_leaf : LopperNode :=
  LNode "cpu@0" "" 0 [prop "status" [VStr "okay"]] [].

Definition ex_cond_lop : LopperNode :=
  lop "lop_0" "conditional" []
    [ LNode "cpus" "" 0 [] [ex_cond_chain_leaf];
      lop "true_1" "modify" [prop "modify" [VStr "/cpus/cpu@0:enabled:1"]] [];
      lop "true_2" "code-v1" [prop "code" [VStr "return True"]] [];
      lop "false_1" "code-v1" [prop "code" [VStr "return True"]] [];
      lop "false_2" "modify" [prop "modify" [VStr "/cpus/cpu@0:enabled:"]] [] ].

Definition ex_cond_lop_ref : nref :=
  {| nr_pos := [0; 0]%nat; abs_path := "/lops/lop_0"; nr_node := ex_cond_lop |}.

(** The same lop with its chain named by [cond_root], the leaf of the
    chain a regular expression that both cpus match. *)
Definition ex_cond_named : LopperNode :=
  lop "lop_0" "conditional" [prop "cond_root" [VStr "cpus"]]
    [ LNode "cpus" "" 0 [] [LNode "cpu@.*" "" 0 [prop "status" [VStr "okay"]] []];
      lop "true_1" "modify" [prop "modify" [VStr "/cpus/cpu@0:enabled:1"]] [];
      lop "true_2" "code-v1" [prop "code" [VStr "return True"]] [];
      lop "false_1" "code-v1" [prop "code" [VStr "return True"]] [];
      lop "false_2" "modify" [prop "modify" [VStr "/cpus/cpu@0:enabled:"]] [] ].

Definition ex_cond_named_ref : nref :=
  {| nr_pos := [0; 0]%nat; abs_path := "/lops/lop_0"; nr_node := ex_cond_named |}.

(** A conditional lop for [/cpus/cpu@0] whose first [true] block, a code
    lop, has a block of its own below it; a second [true] block follows. *)
Definition ex_cond_deep : LopperNode :=
  lop "lop_0" "conditional" [prop "cond_root" [VStr "cpus"]]
    [ LNode "cpus" "" 0 [] [ex_cond_chain_leaf];
      lop "true_1" "code-v1" [prop "code" [VStr "return True"]]
        [ lop "true_inner" "modify" [prop "modify" [VStr "/cpus/cpu@0:enabled:1"]] [] ];
      lop "true_2" "code-v1" [prop "code" [VStr "return True"]] [] ].

Definition ex_cond_deep_ref : nref :=
  {| nr_pos := [0; 0]%nat; abs_path := "/lops/lop_0"; nr_node := ex_cond_deep |}.

(** A system device tree with two cpus, one enabled. *)
Definition ex_sdt_tree : LopperNode :=
  LNode "" "" 0 []
    [ LNode "cpus" "" 0 []
        [ LNode "cpu@0" "cpu0" 7 [prop "status" [VStr "okay"]] [];
          LNode "cpu@1" "cpu1" 8 [prop "status" [VStr "disabled"]] [] ];
      LNode "chosen" "" 0 [prop "bootargs" [VStr "console=ttyPS0"]; prop "cpu" [VStr ""]] [] ].

(** The engine's main tree for the examples, nothing selected. *)
Definition ex_sdt_main : LopperTree := {| t_root := ex_sdt_tree; t_selected := [] |}.

(** Blocks that are [modify] lops return [False] (the default of
    [exec_lop]); code blocks return [True].  The state is the log of the
    calls: the block and the [start_node] it was handed. *)
Definition ex_exec_block (n : nref) (start_node : string) (w : list (string * string))
  : list (string * string) * lop_outcome :=
  (w ++ [(abs_path n, start_node)],
   if existsb (fun t => PyStr.endswith t ",lop,modify") (node_type n)
   then Returned (RetBool false) else Returned (RetBool true)).

(** No block moves a node. *)
Definition ex_node_path (w : list (string * string)) (m : nref) : string := abs_path m.

(** The runs of a conditional lop by paths: per match, the blocks called. *)
Definition run_paths (runs : list (nref * list block_call)) : list (string * list string) :=
  map (fun mc => (abs_path (fst mc), map (fun c => abs_path (bc_lop c)) (snd mc))) runs.

(** *** A tree for the selectors *)

(** [/a], [/a/b] with [foo = 1], [/a/c], and [/b] with [/b/x], which has
    a property [bar]. *)
Definition ex_abc : LopperNode :=
  LNode "" "" 0 []
    [ LNode "a" "" 0 []
        [ LNode "b" "" 0 [prop "foo" [VInt 1]] [];
          LNode "c" "" 0 [] [] ];
      LNode "b" "" 0 [] [ LNode "x" "" 0 [prop "bar" [VStr "y"]] [] ] ].

(** *** Trees for [modify] *)

(** [/amba/uart@0] with two properties, next to [/amba/gpio]. *)
Definition ex_amba : LopperNode :=
  LNode "" "" 0 []
    [ LNode "amba" "" 0 []
        [ LNode "gpio" "" 0 [] [];
          LNode "uart@0" "uart0" 0
            [prop "compatible" [VStr "xlnx,uart"]; prop "reg" [VInt 4096]] [] ];
      LNode "cpus" "" 0 [prop "enable-method" [VStr "psci"]] [] ].

(** [/chosen] with [bootargs], and a node below it that has [bootargs]
    too. *)
Definition ex_chosen : LopperNode :=
  LNode "" "" 0 []
    [ LNode "chosen" "" 0
        [prop "bootargs" [VStr "console=ttyPS0"]; prop "stdout-path" [VStr "serial0"]]
        [ LNode "domain" "" 0 [prop "bootargs" [VStr "quiet"]] [] ];
      LNode "memory" "" 0 [prop "bootargs" [VStr "unused"]] [] ].

(** A node at [/cpus/cpu0] with phandle 3 and, after it, the node labelled
    [cpu0] with phandle 7. *)
Definition ex_two_cpu0 : LopperNode :=
  LNode "" "" 0 []
    [ LNode "cpus" "" 0 []
        [ LNode "cpu0" "" 3 [] [];
          LNode "cpu@1" "cpu0" 7 [prop "reg" [VInt 1]] [] ];
      LNode "chosen" "" 0 [prop "cpu" [VStr ""]] [] ].

(** An empty lop tree. *)
Definition ex_no_lops : LopperNode := lop_root 5 [].

(** The paths of a tree in document order. *)
Definition tree_paths (root : LopperNode) : list string := map abs_path (preorder root).

(** The properties of the node at a path. *)
Definition props_at_path (root : LopperNode) (path : string) : option (list LopperProp) :=
  (fun f => n_props (nr_node f)) <$> tree_lookup root path.

(** *** Examples for the handlers of [nodes], the assist search and the
    command line *)

(** A [propval] that hands back the value of the property, and [['']] for
    a node without it. *)
Definition ex_propval (o : nref) (name : string) : list pyval :=
  match nref_prop o name with
  | Some p => p_value p
  | None => [VStr ""]
  end.

(** A lop that names a tree and an output file, and has no [nodes]. *)
Definition ex_tree_lop : nref :=
  {| nr_pos := [0; 0]%nat; abs_path := "/lops/lop_0";
     nr_node := lop "lop_0" "tree"
                  [prop "tree" [VStr "chosen-only"]; prop "outfile" [VStr "chosen.dts"]] [] |}.

(** The tree of [ex_chosen] with all its nodes selected. *)
Definition ex_chosen_selected : LopperTree :=
  {| t_root := ex_chosen; t_selected := preorder ex_chosen |}.

(** A file system that holds the module [domains.py] in one directory. *)
Definition ex_resolve (dir : string) (s : string) : resolved :=
  if String.eqb s (String.append dir "/domains.py") then Resolves else NotFound.

(** Two [.dts] inputs, one of them with the marker of a lop file. *)
Definition ex_readlines (f : string) : pyresult (list string) :=
  if String.eqb f "lop.dts" then
    PyOk ["/dts-v1/;"; "compatible = system-device-tree-v1,lop,modify;"]
  else if String.eqb f "extra.dts" then PyOk ["/dts-v1/;"; "/ { };"]
  else PyRaise "FileNotFoundError".

(** An [assist-v1] lop for [/chosen] with an id and two options. *)
Definition ex_assist_lop : nref :=
  {| nr_pos := [0; 0]%nat; abs_path := "/lops/lop_0";
     nr_node := lop "lop_0" "assist-v1"
                  [prop "node" [VStr "/chosen"]; prop "id" [VStr "openamp,domain-v1"];
                   prop "options" [VStr " --mode safe"]] [] |}.

(** * Properties *)

(** ** The runqueue *)

Section RunQueueFacts.
Context {World : Type}.
Variable exec_lop : LopperFile -> nref -> World -> pyresult World.

Lemma run_file_calls x fs skip w :
  fst (run_file exec_lop x fs skip w) `prefix_of` map (pair x) (top_walk fs skip) /\
  (completes (snd (run_file exec_lop x fs skip w)) = true ->
   fst (run_file exec_lop x fs skip w) = map (pair x) (top_walk fs skip)).
Proof.
  revert skip w. induction fs as [|f r IH]; intros skip w; simpl.
  - split; [apply prefix_nil | reflexivity].
  - destruct (negb (is_lop f)); [apply IH|].
    destruct (has_noexec f || nref_in f (next_skip skip f)); [apply IH|].
    destruct (exec_lop x f w) as [w'|e|c]; simpl.
    + specialize (IH (next_skip skip f) w').
      destruct (run_file exec_lop x r (next_skip skip f) w') as [calls res]; simpl in *.
      destruct IH as [IH1 IH2]. split.
      * by apply prefix_cons.
      * intros H. by rewrite IH2.
    + split; [apply prefix_cons, prefix_nil | discriminate].
    + split; [apply prefix_cons, prefix_nil | discriminate].
Qed.

Lemma run_bucket_calls xs w :
  fst (run_bucket exec_lop xs w) `prefix_of` calls_of xs /\
  (completes (snd (run_bucket exec_lop xs w)) = true ->
   fst (run_bucket exec_lop xs w) = calls_of xs).
Proof.
  revert w. induction xs as [|x r IH]; intros w; simpl.
  - split; [apply prefix_nil | reflexivity].
  - pose proof (run_file_calls x (preorder (lf_tree x)) [] w) as [H1 H2].
    fold (file_lops x). fold (calls_of r).
    destruct (run_file exec_lop x (preorder (lf_tree x)) [] w) as [calls [w'|e|c]]; simpl in *.
    + specialize (IH w'). destruct (run_bucket exec_lop r w') as [calls' res]; simpl in *.
      destruct IH as [IH1 IH2]. rewrite H2 by reflexivity. split.
      * by apply prefix_app.
      * intros H. by rewrite IH2.
    + split; [by apply prefix_app_r | discriminate].
    + split; [by apply prefix_app_r | discriminate].
Qed.

Lemma run_queue_calls (rq : gmap Z (list LopperFile)) (b : Z -> list LopperFile) pris w :
  (forall pri, pri ∈ pris -> rq !! pri = Some (b pri)) ->
  fst (run_queue exec_lop rq pris w) `prefix_of` calls_of (flat_map b pris) /\
  (completes (snd (run_queue exec_lop rq pris w)) = true ->
   fst (run_queue exec_lop rq pris w) = calls_of (flat_map b pris)).
Proof.
  revert w. induction pris as [|pri r IH]; intros w Hrq; simpl.
  - split; [apply prefix_nil | reflexivity].
  - rewrite (Hrq pri) by constructor.
    assert (Happ : calls_of (b pri ++ flat_map b r) = calls_of (b pri) ++ calls_of (flat_map b r))
      by apply flat_map_app.
    rewrite Happ. clear Happ.
    pose proof (run_bucket_calls (b pri) w) as [H1 H2].
    destruct (run_bucket exec_lop (b pri) w) as [calls [w'|e|c]]; simpl in *.
    + assert (Hr : forall p, p ∈ r -> rq !! p = Some (b p)) by (intros; apply Hrq; by constructor).
      specialize (IH w' Hr). destruct (run_queue exec_lop rq r w') as [calls' res]; simpl in *.
      destruct IH as [IH1 IH2]. rewrite H2 by reflexivity. split.
      * by apply prefix_app.
      * intros H. by rewrite IH2.
    + split; [by apply prefix_app_r | discriminate].
    + split; [by apply prefix_app_r | discriminate].
Qed.
Hypothesis exec_returns : forall x f w, completes (exec_lop x f w) = true.

Lemma run_file_completes x fs skip w :
  completes (snd (run_file exec_lop x fs skip w)) = true.
Proof.
  revert skip w. induction fs as [|f r IH]; intros skip w; simpl; [done|].
  destruct (negb (is_lop f)); [apply IH|].
  destruct (has_noexec f || nref_in f (next_skip skip f)); [apply IH|].
  pose proof (exec_returns x f w) as He.
  destruct (exec_lop x f w) as [w'|e|c]; try discriminate.
  specialize (IH (next_skip skip f) w').
  by destruct (run_file exec_lop x r (next_skip skip f) w').
Qed.

Lemma run_bucket_completes xs w :
  completes (snd (run_bucket exec_lop xs w)) = true.
Proof.
  revert w. induction xs as [|x r IH]; intros w; simpl; [done|].
  pose proof (run_file_completes x (preorder (lf_tree x)) [] w) as H.
  destruct (run_file exec_lop x (preorder (lf_tree x)) [] w) as [calls [w'|e|c]]; try discriminate.
  specialize (IH w'). by destruct (run_bucket exec_lop r w').
Qed.

Lemma run_queue_completes (rq : gmap Z (list LopperFile)) pris w :
  (forall pri, pri ∈ pris -> is_Some (rq !! pri)) ->
  completes (snd (run_queue exec_lop rq pris w)) = true.
Proof.
  revert w. induction pris as [|pri r IH]; intros w Hrq; simpl; [done|].
  destruct (Hrq pri) as [xs ->]; [by constructor|].
  pose proof (run_bucket_completes xs w) as H.
  destruct (run_bucket exec_lop xs w) as [calls [w'|e|c]]; try discriminate.
  assert (Hr : forall p, p ∈ r -> is_Some (rq !! p)) by (intros; apply Hrq; by constructor).
  specialize (IH w' Hr). by destruct (run_queue exec_lop rq r w').
Qed.
End RunQueueFacts.

Lemma priority_is_iff pri x : priority_is pri x = true <-> file_priority x = VInt pri.
Proof.
  unfold priority_is. destruct (file_priority x) as [z|s]; simpl.
  - rewrite Z.eqb_eq. split; congruence.
  - split; discriminate.
Qed.

Lemma build_runqueue_ok lops : forall rq,
  (forall x, x ∈ lops -> valid_priority x) ->
  (forall z, 1 <= z <= 9 -> is_Some (rq !! z)) ->
  exists rq', build_runqueue rq lops = PyOk rq' /\
    forall pri, rq' !! pri = (fun l => l ++ bucket lops pri) <$> (rq !! pri).
Proof.
  induction lops as [|x r IH]; intros rq Hv Hdom; simpl.
  - exists rq. split; [done|]. intros pri. unfold bucket. simpl.
    destruct (rq !! pri); simpl; [by rewrite app_nil_r | done].
  - destruct (Hv x) as (z & Hz & Hr); [by constructor|].
    unfold enqueue. rewrite Hz.
    destruct (Hdom z Hr) as [l Hl]. rewrite Hl.
    destruct (IH (<[z := l ++ [x]]> rq)) as (rq' & Hb & Hq).
    + intros y Hy. apply Hv. by constructor.
    + intros z' Hz'. destruct (decide (z = z')) as [->|Hne].
      * rewrite lookup_insert_eq. eauto.
      * rewrite lookup_insert_ne by done. by apply Hdom.
    + exists rq'. split; [done|]. intros pri. rewrite Hq. unfold bucket.
      destruct (decide (z = pri)) as [->|Hne].
      * rewrite lookup_insert_eq, Hl. simpl.
        rewrite filter_cons_True by (by apply priority_is_iff).
        by rewrite <- app_assoc.
      * rewrite lookup_insert_ne by done.
        rewrite filter_cons_False; [done|].
        rewrite priority_is_iff, Hz. congruence.
Qed.

Lemma empty_runqueue_lookup z : 1 <= z <= 9 -> empty_runqueue !! z = Some [].
Proof.
  intros H. assert (z = 1 \/ z = 2 \/ z = 3 \/ z = 4 \/ z = 5 \/ z = 6 \/ z = 7 \/ z = 8 \/ z = 9) as Hc by lia.
  repeat destruct Hc as [->|Hc]; try subst z; reflexivity.
Qed.

Lemma run_order_perm lops :
  (forall x, x ∈ lops -> valid_priority x) -> run_order lops ≡ₚ lops.
Proof.
  unfold run_order. induction lops as [|x r IH]; intros Hv.
  - reflexivity.
  - destruct (Hv x) as (z & Hz & Hr); [by constructor|].
    assert (IHr : flat_map (fun pri => filter (fun x => priority_is pri x = true) r) priorities ≡ₚ r)
      by (apply IH; intros y Hy; apply Hv; by constructor).
    transitivity (x :: flat_map (fun pri => filter (fun x => priority_is pri x = true) r) priorities);
      [|by f_equiv].
    clear IH IHr Hv.
    assert (Hin : z ∈ priorities).
    { unfold priorities. assert (z = 1 \/ z = 2 \/ z = 3 \/ z = 4 \/ z = 5 \/ z = 6 \/ z = 7 \/ z = 8 \/ z = 9) as Hc by lia.
      repeat destruct Hc as [->|Hc]; try subst z; set_solver. }
    assert (Hnd : NoDup priorities) by (unfold priorities; repeat constructor; set_solver).
    revert Hin Hnd. generalize priorities as ks.
    induction ks as [|k ks IHk]; intros Hin Hnd; [by inversion Hin|].
    simpl. inversion Hnd as [|? ? Hk Hnd']; subst.
    destruct (decide (k = z)) as [->|Hne].
    + rewrite filter_cons_True by (by apply priority_is_iff). simpl.
      f_equiv. f_equiv.
      clear IHk Hin Hnd Hnd'. induction ks as [|k' ks IHk]; [done|].
      simpl. rewrite filter_cons_False.
      * f_equiv. apply IHk. set_solver.
      * rewrite priority_is_iff, Hz. intros [= ->]. set_solver.
    + rewrite filter_cons_False by (rewrite priority_is_iff, Hz; congruence).
      rewrite IHk; [|set_solver|done].
      by rewrite Permutation_middle.
Qed.

Lemma same_priority_sorted k (l : list LopperFile) :
  Forall (fun x => priority_of x = k) l ->
  StronglySorted (fun x y => priority_of x <= priority_of y) l.
Proof.
  induction 1 as [|x l Hx Hall IHl]; [constructor|].
  constructor; [exact IHl|].
  eapply Forall_impl; [exact Hall|]. simpl. intros y Hy. lia.
Qed.

Lemma run_order_sorted lops :
  StronglySorted (fun x y => priority_of x <= priority_of y) (run_order lops).
Proof.
  unfold run_order.
  assert (Hs : StronglySorted Z.lt priorities) by (unfold priorities; repeat constructor; lia).
  revert Hs. generalize priorities as ks. induction ks as [|k ks IH]; intros Hs; simpl.
  - constructor.
  - inversion Hs as [|? ? Hs' Hk]; subst.
    assert (H1 : StronglySorted (fun x y => priority_of x <= priority_of y)
                   (filter (fun x => priority_is k x = true) lops)).
    { apply (same_priority_sorted k).
      apply Forall_forall. intros x [Hx _]%list_elem_of_filter.
      apply priority_is_iff in Hx. unfold priority_of. by rewrite Hx. }
    assert (H3 : forall x y, x ∈ filter (fun x => priority_is k x = true) lops ->
                   y ∈ flat_map (fun pri => filter (fun x => priority_is pri x = true) lops) ks ->
                   priority_of x <= priority_of y).
    { intros x y [Hx _]%list_elem_of_filter Hy.
      apply list_elem_of_In, in_flat_map in Hy as (k' & Hk' & Hy%list_elem_of_In).
      apply list_elem_of_filter in Hy as [Hy _].
      apply priority_is_iff in Hx, Hy. unfold priority_of. rewrite Hx, Hy.
      rewrite Forall_forall in Hk. apply list_elem_of_In in Hk'. specialize (Hk _ Hk'). lia. }
    apply StronglySorted_app_2; [exact H3 | exact H1 | by apply IH].
Qed.

Lemma top_walk_sublist fs skip : top_walk fs skip `sublist_of` fs.
Proof.
  revert skip. induction fs as [|f r IH]; intros skip; simpl.
  - constructor.
  - destruct (negb (is_lop f)); [by apply sublist_cons|].
    destruct (has_noexec f || nref_in f (next_skip skip f)).
    + by apply sublist_cons.
    + by apply sublist_skip.
Qed.

(** C1. Lop files are bucketed by their file-level priority and run in
    ascending priority order, priority 1 first; within one file the lops
    run in document order.  For lop files whose priority is one of 1..9,
    the calls of [exec_lop] that [perform_lops] makes are an initial segment
    of [schedule] and all of it when the run is not cut short; the run is
    not cut short when every [exec_lop] returns.  [schedule] takes the files
    in a rearrangement of [self.lops] that is sorted by priority, and each
    file's lops as a subsequence of the file's nodes in document order. *)
Theorem perform_lops_priority_order {World : Type}
    (exec_lop : LopperFile -> nref -> World -> pyresult World)
    (target_domain : string) (lops : list LopperFile) (w : World) :
  Forall valid_priority lops ->
  let files := effective_lops target_domain lops in
  let run := perform_lops exec_lop target_domain lops w in
  fst run `prefix_of` schedule files /\
  (completes (snd run) = true -> fst run = schedule files) /\
  ((forall x f w', completes (exec_lop x f w') = true) -> completes (snd run) = true) /\
  schedule files = flat_map (fun x => map (pair x) (file_lops x)) (run_order files) /\
  run_order files ≡ₚ files /\
  StronglySorted (fun x y => priority_of x <= priority_of y) (run_order files) /\
  Forall (fun x => 1 <= priority_of x <= 9) (run_order files) /\
  (forall x, file_lops x `sublist_of` preorder (lf_tree x)).
Proof.
  intros Hv files run.
  assert (Hvf : forall x, x ∈ files -> valid_priority x).
  { subst files. unfold effective_lops. rewrite Forall_forall in Hv.
    destruct (String.eqb target_domain ""); [exact Hv|].
    intros x [->|Hx]%elem_of_cons; [|by apply Hv].
    exists 3. split; [reflexivity | lia]. }
  destruct (build_runqueue_ok files empty_runqueue Hvf) as (rq & Hb & Hq).
  { intros z Hz. rewrite empty_runqueue_lookup by done. eauto. }
  assert (Hrq : forall pri, pri ∈ priorities -> rq !! pri = Some (bucket files pri)).
  { intros pri Hp. rewrite Hq, empty_runqueue_lookup; [done|].
    unfold priorities in Hp. set_solver by lia. }
  assert (Hrun : run = run_queue exec_lop rq priorities w).
  { subst run. unfold perform_lops. fold files. by rewrite Hb. }
  pose proof (run_queue_calls exec_lop rq (bucket files) priorities w Hrq) as [H1 H2].
  rewrite Hrun. split_and!.
  - exact H1.
  - exact H2.
  - intros He. apply run_queue_completes; [exact He|].
    intros pri Hp. rewrite Hrq by done. eauto.
  - reflexivity.
  - by apply run_order_perm.
  - apply run_order_sorted.
  - apply Forall_forall. intros x Hx.
    rewrite (run_order_perm files Hvf) in Hx.
    destruct (Hvf x Hx) as (z & Hz & Hr). unfold priority_of. by rewrite Hz.
  - intros x. apply top_walk_sublist.
Qed.
(** ** Tree walks *)

Lemma LopperNode_forall_ind (P : LopperNode -> Prop) :
  (forall nm lb ph ps cs, Forall P cs -> P (LNode nm lb ph ps cs)) ->
  forall n, P n.
Proof.
  intros H. fix IH 1. intros [nm lb ph ps cs]. apply H.
  induction cs as [|c r IHr]; constructor; [apply IH | exact IHr].
Qed.

Lemma walk_unfold path pos n :
  walk path pos n =
  {| nr_pos := pos; abs_path := path; nr_node := n |} :: walk_list path pos 0 (n_children n).
Proof.
  destruct n as [nm lb ph ps cs]. simpl. f_equal.
  generalize O. induction cs as [|c r IH]; intros i; simpl; [done|]. by rewrite IH.
Qed.

Lemma walk_under_unfold u path pos n :
  walk_under u path pos n =
  let me := {| nr_pos := pos; abs_path := path; nr_node := n |} in
  (me, u) :: walk_under_list (u || is_cond_lop me) path pos 0 (n_children n).
Proof.
  destruct n as [nm lb ph ps cs]. simpl. f_equal.
  generalize O. induction cs as [|c r IH]; intros i; simpl; [done|]. by rewrite IH.
Qed.

Lemma walk_under_fst n : forall u path pos,
  map fst (walk_under u path pos n) = walk path pos n.
Proof.
  induction n as [nm lb ph ps cs IH] using LopperNode_forall_ind. intros u path pos.
  rewrite walk_under_unfold, walk_unfold. simpl. f_equal.
  generalize (u || is_cond_lop {| nr_pos := pos; abs_path := path; nr_node := LNode nm lb ph ps cs |}).
  generalize O. induction IH as [|c r Hc Hr IHr]; intros i b; simpl; [done|].
  by rewrite map_app, Hc, IHr.
Qed.

Lemma preorder_under_fst root : map fst (preorder_under root) = preorder root.
Proof. apply walk_under_fst. Qed.

(** Every node of a subtree has a position that extends the position of
    the subtree's root. *)
Lemma walk_pos n : forall path pos g,
  g ∈ walk path pos n -> pos `prefix_of` nr_pos g.
Proof.
  induction n as [nm lb ph ps cs IH] using LopperNode_forall_ind. intros path pos g.
  rewrite walk_unfold. simpl. intros [->|Hg]%elem_of_cons; [done|].
  revert Hg. generalize O. induction IH as [|c r Hc Hr IHr]; intros i Hg; simpl in Hg.
  - by apply elem_of_nil in Hg.
  - apply elem_of_app in Hg as [Hg|Hg].
    + apply Hc in Hg. etransitivity; [|exact Hg]. by apply prefix_app_r.
    + by apply (IHr (S i)).
Qed.

Lemma walk_list_pos cs : forall path pos i g,
  g ∈ walk_list path pos i cs ->
  exists j, (i <= j)%nat /\ (pos ++ [j]) `prefix_of` nr_pos g.
Proof.
  induction cs as [|c r IH]; intros path pos i g Hg; simpl in Hg.
  - by apply elem_of_nil in Hg.
  - apply elem_of_app in Hg as [Hg|Hg].
    + exists i. split; [lia|]. by apply walk_pos in Hg.
    + destruct (IH _ _ _ _ Hg) as (j & Hj & Hp). exists j. split; [lia|done].
Qed.

Lemma prefix_snoc_inj (p q : list nat) i j :
  (p ++ [i]) `prefix_of` q -> (p ++ [j]) `prefix_of` q -> i = j.
Proof.
  intros [k1 ->] [k2 H]. rewrite <- !app_assoc in H.
  apply app_inv_head in H. simpl in H. congruence.
Qed.

Lemma prefix_snoc_not_self (p : list nat) i : ~ (p ++ [i]) `prefix_of` p.
Proof.
  intros H. apply prefix_length in H. rewrite length_app in H. simpl in H. lia.
Qed.

Lemma nref_in_spec f l :
  nref_in f l = true <-> exists g, g ∈ l /\ nr_pos f = nr_pos g.
Proof.
  unfold nref_in. rewrite existsb_exists. split.
  - intros (g & Hg & He). exists g. split; [by apply list_elem_of_In|].
    unfold nref_eqb in He. by apply bool_decide_eq_true in He.
  - intros (g & Hg & He). exists g. split; [by apply list_elem_of_In|].
    unfold nref_eqb. by apply bool_decide_eq_true.
Qed.

Lemma nref_remove_head f l : nref_remove f (f :: l) = l.
Proof. simpl. unfold nref_eqb. by rewrite bool_decide_eq_true_2. Qed.

Lemma next_skip_cond skip f :
  is_conditional f = true ->
  next_skip skip f = walk_list (abs_path f) (nr_pos f) 0 (n_children (nr_node f)).
Proof.
  intros H. unfold next_skip, subnodes. rewrite H, walk_unfold.
  destruct f as [pos path n]. simpl. apply nref_remove_head.
Qed.

Lemma top_walk_app fs1 fs2 skip :
  top_walk (fs1 ++ fs2) skip = top_walk fs1 skip ++ top_walk fs2 (final_skip fs1 skip).
Proof.
  revert skip. induction fs1 as [|f r IH]; intros skip; simpl; [done|].
  destruct (negb (is_lop f)); [apply IH|].
  destruct (has_noexec f || nref_in f (next_skip skip f)); [apply IH|].
  by rewrite IH.
Qed.

Lemma final_skip_app fs1 fs2 skip :
  final_skip (fs1 ++ fs2) skip = final_skip fs2 (final_skip fs1 skip).
Proof.
  revert skip. induction fs1 as [|f r IH]; intros skip; simpl; [done|].
  destruct (negb (is_lop f)); apply IH.
Qed.

Lemma top_walk_all_skipped fs skip :
  (forall f, f ∈ fs -> is_cond_lop f = false) ->
  (forall f, f ∈ fs -> nref_in f skip = true) ->
  top_walk fs skip = [] /\ final_skip fs skip = skip.
Proof.
  induction fs as [|f r IH]; intros Hc Hs; simpl; [done|].
  assert (IHr : top_walk r skip = [] /\ final_skip r skip = skip).
  { apply IH; intros g Hg; [apply Hc | apply Hs]; by constructor. }
  destruct (is_lop f) eqn:Hl; simpl; [|exact IHr].
  assert (Hn : next_skip skip f = skip).
  { unfold next_skip. specialize (Hc f ltac:(by constructor)).
    unfold is_cond_lop in Hc. rewrite Hl in Hc. simpl in Hc. by rewrite Hc. }
  rewrite Hn, (Hs f) by (by constructor). by rewrite orb_true_r.
Qed.

Lemma walk_under_true n : forall path pos fu,
  fu ∈ walk_under true path pos n -> snd fu = true.
Proof.
  induction n as [nm lb ph ps cs IH] using LopperNode_forall_ind. intros path pos fu.
  rewrite walk_under_unfold. simpl. intros [->|Hg]%elem_of_cons; [done|].
  revert Hg. generalize O. induction IH as [|c r Hc Hr IHr]; intros i Hg; simpl in Hg.
  - by apply elem_of_nil in Hg.
  - apply elem_of_app in Hg as [Hg|Hg]; [by apply Hc in Hg | by apply (IHr (S i))].
Qed.

Lemma walk_under_list_true cs : forall path pos i fu,
  fu ∈ walk_under_list true path pos i cs -> snd fu = true.
Proof.
  induction cs as [|c r IH]; intros path pos i fu Hg; simpl in Hg.
  - by apply elem_of_nil in Hg.
  - apply elem_of_app in Hg as [Hg|Hg]; [by apply walk_under_true in Hg | by apply IH in Hg].
Qed.

Lemma walk_under_list_fst cs : forall u path pos i,
  map fst (walk_under_list u path pos i cs) = walk_list path pos i cs.
Proof.
  induction cs as [|c r IH]; intros u path pos i; simpl; [done|].
  by rewrite map_app, walk_under_fst, IH.
Qed.

Lemma filter_none {A} (P : A -> Prop) `{forall x, Decision (P x)} (l : list A) :
  (forall x, x ∈ l -> ~ P x) -> filter P l = [].
Proof.
  induction l as [|x r IH]; intros Hn; [done|].
  rewrite filter_cons_False by (apply Hn; by constructor).
  apply IH. intros y Hy. apply Hn. by constructor.
Qed.

(** Below a conditional lop nothing runs and the skip list stays. *)
Lemma top_walk_below_conditional cs path pos :
  forallb not_nested (walk_under_list true path pos 0 cs) = true ->
  let skip := walk_list path pos 0 cs in
  top_walk skip skip = [] /\ final_skip skip skip = skip /\
  filter (fun fu => runs_at_top fu = true) (walk_under_list true path pos 0 cs) = [].
Proof.
  intros Hnn skip. rewrite forallb_forall in Hnn.
  assert (Hflag := walk_under_list_true cs path pos 0).
  destruct (top_walk_all_skipped skip skip) as [H1 H2].
  - intros f Hf. subst skip. rewrite <- (walk_under_list_fst cs true) in Hf.
    apply list_elem_of_fmap in Hf as (fu & -> & Hfu).
    specialize (Hnn fu ltac:(by apply list_elem_of_In)). specialize (Hflag fu Hfu).
    unfold not_nested in Hnn. rewrite Hflag in Hnn. simpl in Hnn.
    by apply negb_true_iff in Hnn.
  - intros f Hf. apply nref_in_spec. by exists f.
  - split_and!; [done|done|].
    apply filter_none. intros fu Hfu. unfold runs_at_top.
    rewrite (Hflag fu Hfu). simpl. rewrite andb_false_r. discriminate.
Qed.

(** Outside every conditional lop the walk runs the lops without [noexec],
    and whatever it leaves on the skip list lies strictly below the subtree's
    root unless it was on the list before. *)
Lemma top_walk_outside n : forall path pos skip,
  forallb not_nested (walk_under false path pos n) = true ->
  (forall g, g ∈ skip -> ~ pos `prefix_of` nr_pos g) ->
  top_walk (walk path pos n) skip =
    map fst (filter (fun fu => runs_at_top fu = true) (walk_under false path pos n)) /\
  (forall g, g ∈ final_skip (walk path pos n) skip ->
     g ∈ skip \/ exists j, (pos ++ [j]) `prefix_of` nr_pos g).
Proof.
  induction n as [nm lb ph ps cs IH] using LopperNode_forall_ind. intros path pos skip.
  rewrite walk_under_unfold, walk_unfold. cbv zeta.
  set (n := LNode nm lb ph ps cs).
  set (me := {| nr_pos := pos; abs_path := path; nr_node := n |}).
  change (n_children n) with cs.
  intros Hnn Hskip. simpl in Hnn.
  (* the children, when [me] is no conditional lop *)
  assert (Hkids : forall i skip',
    forallb not_nested (walk_under_list false path pos i cs) = true ->
    (forall g, g ∈ skip' -> forall j, (i <= j)%nat -> ~ (pos ++ [j]) `prefix_of` nr_pos g) ->
    top_walk (walk_list path pos i cs) skip' =
      map fst (filter (fun fu => runs_at_top fu = true) (walk_under_list false path pos i cs)) /\
    (forall g, g ∈ final_skip (walk_list path pos i cs) skip' ->
       g ∈ skip' \/ exists j, (pos ++ [j]) `prefix_of` nr_pos g)).
  { clear Hnn Hskip. induction IH as [|c r Hc Hr IHr]; intros i skip' Hnn Hs; simpl.
    - split; [done|]. intros g Hg. by left.
    - simpl in Hnn. rewrite forallb_app in Hnn. apply andb_true_iff in Hnn as [Hn1 Hn2].
      destruct (Hc (child_path path (n_name c)) (pos ++ [i]) skip' Hn1) as [Hc1 Hc2].
      { intros g Hg. apply Hs; [done|lia]. }
      destruct (IHr (S i) (final_skip (walk (child_path path (n_name c)) (pos ++ [i]) c) skip') Hn2)
        as [Hr1 Hr2].
      { intros g Hg j Hj Hp. destruct (Hc2 g Hg) as [Hg'|(k & Hk)].
        - apply (Hs g Hg' j); [lia|done].
        - assert (Hk' : (pos ++ [i]) `prefix_of` nr_pos g).
          { etransitivity; [|exact Hk]. by apply prefix_app_r. }
          pose proof (prefix_snoc_inj _ _ _ _ Hp Hk'). lia. }
      rewrite top_walk_app, final_skip_app, filter_app, map_app, Hc1, Hr1.
      split; [done|]. intros g Hg. destruct (Hr2 g Hg) as [Hg'|Hg']; [|by right].
      destruct (Hc2 g Hg') as [?|(k & Hk)]; [by left|right].
      exists i. etransitivity; [|exact Hk]. by apply prefix_app_r. }
  assert (Hme : nref_in me skip = false).
  { apply not_true_iff_false. intros (g & Hg & He)%nref_in_spec.
    apply (Hskip g Hg). simpl in He. by rewrite <- He. }
  assert (Hskip' : forall g, g ∈ skip -> forall j, (0 <= j)%nat -> ~ (pos ++ [j]) `prefix_of` nr_pos g).
  { intros g Hg j _ Hp. apply (Hskip g Hg). etransitivity; [|exact Hp]. by apply prefix_app_r. }
  assert (Hrun : runs_at_top (me, false) = is_lop me && negb (has_noexec me)).
  { unfold runs_at_top. simpl. by rewrite andb_true_r. }
  simpl top_walk. simpl final_skip.
  destruct (is_lop me) eqn:Hl; simpl negb; cbv iota.
  2:{ rewrite filter_cons_False by (rewrite Hrun; discriminate).
      assert (Hu : false || is_cond_lop me = false) by (unfold is_cond_lop; by rewrite Hl).
      rewrite Hu. unfold is_cond_lop in Hnn. rewrite Hl in Hnn. simpl in Hnn.
      by apply Hkids. }
  destruct (is_conditional me) eqn:Hc.
  - (* a conditional lop: its subtree goes on the skip list *)
    rewrite (next_skip_cond skip me Hc). simpl nr_pos. simpl abs_path. simpl nr_node.
    change (n_children n) with cs.
    unfold is_cond_lop in Hnn. rewrite Hl, Hc in Hnn. simpl in Hnn.
    destruct (top_walk_below_conditional cs path pos Hnn) as (H1 & H2 & H3).
    assert (Hme' : nref_in me (walk_list path pos 0 cs) = false).
    { apply not_true_iff_false. intros (g & Hg & He)%nref_in_spec.
      apply walk_list_pos in Hg as (j & _ & Hp). rewrite <- He in Hp. simpl in Hp.
      by apply prefix_snoc_not_self in Hp. }
    assert (Hu : false || is_cond_lop me = true) by (unfold is_cond_lop; by rewrite Hl, Hc).
    rewrite Hme', H1, H2, orb_false_r, Hu. split.
    + destruct (has_noexec me); simpl in Hrun.
      * rewrite filter_cons_False by (rewrite Hrun; discriminate). by rewrite H3.
      * rewrite filter_cons_True by done. by rewrite H3.
    + intros g Hg. right.
      assert (Hg' : g ∈ walk_list path pos 0 cs) by (destruct (has_noexec me); exact Hg).
      apply walk_list_pos in Hg' as (j & _ & Hp). by exists j.
  - (* any other lop *)
    assert (Hn : next_skip skip me = skip) by (unfold next_skip; by rewrite Hc).
    assert (Hu : false || is_cond_lop me = false) by (unfold is_cond_lop; by rewrite Hl, Hc).
    rewrite Hn, Hme, orb_false_r, Hu.
    unfold is_cond_lop in Hnn. rewrite Hl, Hc in Hnn. simpl in Hnn.
    destruct (Hkids O skip Hnn Hskip') as [H1 H2].
    destruct (has_noexec me); simpl in Hrun.
    + rewrite filter_cons_False by (rewrite Hrun; discriminate). by split.
    + rewrite filter_cons_True by done. simpl. rewrite H1. by split.
Qed.

Lemma walk_nodup n : forall path pos, NoDup (map nr_pos (walk path pos n)).
Proof.
  induction n as [nm lb ph ps cs IH] using LopperNode_forall_ind. intros path pos.
  rewrite walk_unfold. simpl. change (n_children _) with cs.
  assert (Hl : forall i, NoDup (map nr_pos (walk_list path pos i cs))).
  { induction IH as [|c r Hc Hr IHr]; intros i; simpl; [constructor|].
    rewrite map_app. apply NoDup_app. split_and!; [apply Hc| |apply IHr].
    intros p (g & -> & Hg)%list_elem_of_fmap (g' & He & Hg')%list_elem_of_fmap.
    apply walk_pos in Hg. apply walk_list_pos in Hg' as (j & Hj & Hp).
    rewrite He in Hg. pose proof (prefix_snoc_inj _ _ _ _ Hg Hp). lia. }
  constructor; [|apply Hl].
  intros (g & He & Hg)%list_elem_of_fmap.
  apply walk_list_pos in Hg as (j & _ & Hp). rewrite <- He in Hp.
  by apply prefix_snoc_not_self in Hp.
Qed.

Lemma file_lops_expected root :
  no_nested_conditional root = true -> top_walk (preorder root) [] = expected_lops root.
Proof.
  intros Hnn. apply (top_walk_outside root "/" [] []); [exact Hnn|].
  intros g Hg. by apply elem_of_nil in Hg.
Qed.

(** C8, as amended.  In a lop tree where no conditional lop lies below
    another conditional lop, the top-level walk calls [exec_lop] on exactly
    the lops that carry no [noexec] property and have no conditional lop
    among their proper ancestors, each once and in document order: the
    calls are an initial segment of that list, and all of it when no call
    ends the run. *)
Theorem top_walk_runs_directives {World : Type}
    (exec_lop : LopperFile -> nref -> World -> pyresult World)
    (x : LopperFile) (w : World) :
  no_nested_conditional (lf_tree x) = true ->
  let run := run_file exec_lop x (preorder (lf_tree x)) [] w in
  fst run `prefix_of` map (pair x) (expected_lops (lf_tree x)) /\
  (completes (snd run) = true -> fst run = map (pair x) (expected_lops (lf_tree x))) /\
  ((forall y f w', completes (exec_lop y f w') = true) -> completes (snd run) = true) /\
  expected_lops (lf_tree x) `sublist_of` preorder (lf_tree x) /\
  map fst (preorder_under (lf_tree x)) = preorder (lf_tree x) /\
  NoDup (map nr_pos (preorder (lf_tree x))).
Proof.
  intros Hnn run.
  pose proof (run_file_calls exec_lop x (preorder (lf_tree x)) [] w) as [H1 H2].
  rewrite (file_lops_expected _ Hnn) in H1, H2.
  split_and!.
  - exact H1.
  - exact H2.
  - intros He. by apply run_file_completes.
  - rewrite <- (file_lops_expected _ Hnn). apply top_walk_sublist.
  - apply preorder_under_fst.
  - apply walk_nodup.
Qed.

(** Files A (priority 3) and B (priority 1): B's lop runs first. *)
Lemma perform_lops_priority_order_witness :
  Forall valid_priority [ex_file_a; ex_file_b] /\
  fst (perform_lops ex_exec "" [ex_file_a; ex_file_b] []) = schedule [ex_file_a; ex_file_b] /\
  snd (perform_lops ex_exec "" [ex_file_a; ex_file_b] [])
    = PyOk [("b.dts", "/lops/lop_0"); ("a.dts", "/lops/lop_0")].
Proof.
  assert (Hv : Forall valid_priority [ex_file_a; ex_file_b]).
  { repeat constructor; [exists 3 | exists 1]; (split; [reflexivity | lia]). }
  split; [exact Hv|]. split.
  - destruct (perform_lops_priority_order ex_exec "" [ex_file_a; ex_file_b] [] Hv)
      as (_ & Hall & _).
    apply Hall. reflexivity.
  - vm_compute. reflexivity.
Defined.

(** The walk of [ex_file_cond]: the conditional and the plain lop run, the
    [true] block and the [noexec] lop do not. *)
Lemma top_walk_runs_directives_witness :
  no_nested_conditional (lf_tree ex_file_cond) = true /\
  fst (run_file ex_exec ex_file_cond (preorder (lf_tree ex_file_cond)) [] [])
    = map (pair ex_file_cond) (expected_lops (lf_tree ex_file_cond)) /\
  map abs_path (expected_lops (lf_tree ex_file_cond)) = ["/lops/lop_0"; "/lops/lop_2"].
Proof.
  split; [reflexivity|]. split.
  - destruct (top_walk_runs_directives ex_exec ex_file_cond [] eq_refl) as (_ & Hall & _).
    apply Hall. reflexivity.
  - reflexivity.
Defined.

(** C8 as stated fails: [/lops/lop_0/true_1/inner] is a lop without
    [noexec] whose parent [true_1] is a code lop, not a conditional, and the
    walk does not execute it. *)
Lemma top_walk_skips_below_block :
  map abs_path (file_lops ex_file_deep) = ["/lops/lop_0"] /\
  map abs_path (claimed_lops (lf_tree ex_file_deep))
    = ["/lops/lop_0"; "/lops/lop_0/true_1/inner"] /\
  fst (run_file ex_exec ex_file_deep (preorder (lf_tree ex_file_deep)) [] [])
    = map (pair ex_file_deep) (file_lops ex_file_deep).
Proof. split_and!; reflexivity. Qed.

(** A conditional lop below a conditional lop replaces the skip list: the
    walk then executes it and the blocks that follow it. *)
Example top_walk_nested_conditional :
  map abs_path (file_lops ex_file_nested)
    = ["/lops/lop_0"; "/lops/lop_0/true_1"; "/lops/lop_0/true_2"].
Proof. reflexivity. Qed.

(** ** Assists *)

Lemma fca_loop_app cb_node mask st l1 l2 :
  fca_loop cb_node mask st (l1 ++ l2) =
  match fca_loop cb_node mask st l1 with
  | PyOk st' => fca_loop cb_node mask st' l2
  | PyRaise e => PyRaise e
  | PyExit c => PyExit c
  end.
Proof.
  revert st. induction l1 as [|a r IH]; intros st; simpl; [done|].
  destruct (fca_step cb_node mask st a); [apply IH|done|done].
Qed.

Lemma fca_loop_no_module cb_node mask st l :
  Forall (fun a => a_module a = None) l -> fca_loop cb_node mask st l = PyOk st.
Proof.
  induction 1 as [|a r Ha Hr IH]; simpl; [done|].
  unfold fca_step. by rewrite Ha.
Qed.

Lemma mask_ok_mismatch mask assist_mask :
  mask <> "" -> assist_mask <> "" -> assist_mask <> mask -> mask_ok mask assist_mask = false.
Proof.
  intros H1 H2 H3. unfold mask_ok.
  apply String.eqb_neq in H1, H2. rewrite H1, H2. simpl.
  apply String.eqb_neq. congruence.
Qed.

(** C10. [find_compatible_assist] is not total.  (1) When the first
    registered assist with a loaded module declares a nonempty mask that
    differs from the nonempty [mask] argument, [cb_f] is read while unbound:
    the call raises [UnboundLocalError] (a [NameError]) and returns no list.
    (2) When the mask check rejects a later assist while [cb_f] still holds
    the callable of an earlier iteration, that callable is appended once
    more, whatever the rejected assist's module is. *)
Theorem find_compatible_assist_unbound_cb_f :
  (forall pre a rest m cb_node cb_id mask,
     Forall (fun x => a_module x = None) pre ->
     a_module a = Some m ->
     mask <> "" -> prop_or_empty a "mask" <> "" -> prop_or_empty a "mask" <> mask ->
     find_compatible_assist (pre ++ a :: rest) cb_node cb_id mask
       = PyRaise "UnboundLocalError") /\
  (forall pre a m st c cb_node cb_id mask,
     fca_loop cb_node mask (fca_init cb_id) pre = PyOk st ->
     cb_f st = Some (Some c) ->
     a_module a = Some m ->
     mask_ok mask (prop_or_empty a "mask") = false ->
     find_compatible_assist (pre ++ [a]) cb_node cb_id mask = PyOk (cb_func st ++ [c])).
Proof.
  split.
  - intros pre a rest m cb_node cb_id mask Hpre Hm H1 H2 H3.
    unfold find_compatible_assist.
    rewrite fca_loop_app, (fca_loop_no_module _ _ _ _ Hpre). simpl.
    unfold fca_step. rewrite Hm, (mask_ok_mismatch _ _ H1 H2 H3). reflexivity.
  - intros pre a m st c cb_node cb_id mask Hpre Hc Hm Hmask.
    unfold find_compatible_assist.
    rewrite fca_loop_app, Hpre. simpl.
    unfold fca_step. rewrite Hm, Hmask, Hc. reflexivity.
Qed.

(** An assist registered for [.cdo] first: a write of [out.bif] raises.
    After an assist without mask, the callable of that one is returned twice. *)
Lemma find_compatible_assist_unbound_cb_f_witness :
  find_compatible_assist [ex_assist "cdo.py" "cdo_write" ".cdo"] 0 "" ".bif"
    = PyRaise "UnboundLocalError" /\
  find_compatible_assist
    [ex_assist "any.py" "any_write" ""; ex_assist "cdo.py" "cdo_write" ".cdo"] 0 "" ".bif"
    = PyOk ["any_write"; "any_write"].
Proof.
  destruct find_compatible_assist_unbound_cb_f as [H1 H2]. split.
  - apply (H1 [] (ex_assist "cdo.py" "cdo_write" ".cdo") []
              {| is_compat := fun _ _ => Some "cdo_write" |} 0 "" ".bif").
    + constructor.
    + reflexivity.
    + discriminate.
    + discriminate.
    + discriminate.
  - apply (H2 [ex_assist "any.py" "any_write" ""] (ex_assist "cdo.py" "cdo_write" ".cdo")
              {| is_compat := fun _ _ => Some "cdo_write" |}
              {| cb_func := ["any_write"]; cb_id := ""; cb_f := Some (Some "any_write") |}
              "any_write" 0 "" ".bif"); reflexivity.
Defined.

(** ** Writing the output file *)


Lemma write_assists_events sdt cb_run fn cbs :
  Forall (fun e => is_assist_event e = true) (fst (write_assists sdt cb_run fn cbs)).
Proof.
  induction cbs as [|cb r IH]; simpl; [constructor|].
  destruct (write_assists sdt cb_run fn r) as [ev res]. simpl in IH.
  destruct (cb_run cb) as [[|]|]; simpl.
  - by constructor.
  - by repeat constructor.
  - destruct (werror sdt); simpl; by repeat constructor.
Qed.





(** The patterns are searched anywhere in the name: [xdtb.cdo] has the
    extension [.cdo] and is written as a flattened tree, no assist asked. *)
Example write_pattern_anywhere :
  snd (PyStr.splitext "xdtb.cdo") = ".cdo" /\
  fst (write ex_sdt_two (fun _ => false) ex_cb_run "xdtb.cdo" true false)
    = [EvWriteFdt "xdtb.cdo" true].
Proof. split; reflexivity. Qed.

(** ** The [conditional] lop *)

Lemma nref_eqb_eq f g : nref_eqb f g = true <-> nr_pos f = nr_pos g.
Proof. unfold nref_eqb. apply bool_decide_eq_true. Qed.

Lemma nref_in_app f l1 l2 : nref_in f (l1 ++ l2) = nref_in f l1 || nref_in f l2.
Proof. unfold nref_in. apply existsb_app. Qed.

Lemma nref_in_self f : nref_in f [f] = true.
Proof. unfold nref_in. simpl. unfold nref_eqb. by rewrite bool_decide_eq_true_2. Qed.

Lemma nref_in_remove_other f g l :
  nr_pos f <> nr_pos g -> nref_in f (nref_remove g l) = nref_in f l.
Proof.
  intros Hne. induction l as [|h r IH]; simpl; [done|].
  destruct (nref_eqb g h) eqn:Hg.
  - apply nref_eqb_eq in Hg.
    assert (Hf : nref_eqb f h = false).
    { apply not_true_iff_false. rewrite nref_eqb_eq. congruence. }
    by rewrite Hf.
  - simpl. by rewrite IH.
Qed.

Section ConditionalFacts.

Context `{Externals} {World : Type}.
Variable exec_block : nref -> string -> World -> World * lop_outcome.
Variable node_path : World -> nref -> string.

Lemma cond_check_keeps p st g t :
  nr_pos g <> nr_pos t -> nref_in t (fst st) = true ->
  nref_in t (fst (cond_check p st g)) = true.
Proof.
  intros Hne Hin. destruct st as [ms fs]. unfold cond_check. simpl in Hin.
  assert (Hfail : nref_in t (if nref_in g ms then nref_remove g ms else ms) = true).
  { destruct (nref_in g ms); [|done]. rewrite nref_in_remove_other by congruence. done. }
  destruct (nref_prop g (cond_prop_name p)) as [tp|]; [|exact Hfail].
  destruct (if cond_inverted p then negb (prop_compare p tp) else prop_compare p tp);
    [|exact Hfail].
  simpl. destruct (nref_in g ms); [done|]. by rewrite nref_in_app, Hin.
Qed.

Lemma cond_check_adds p st t :
  satisfies t p = true -> nref_in t (fst (cond_check p st t)) = true.
Proof.
  intros Hs. destruct st as [ms fs]. unfold cond_check, satisfies in *.
  destruct (nref_prop t (cond_prop_name p)) as [tp|]; [|discriminate].
  rewrite Hs. simpl. destruct (nref_in t ms) eqn:Hin; [done|].
  by rewrite nref_in_app, nref_in_self, orb_true_r.
Qed.

Lemma cond_fold_keeps p t l : forall st,
  (forall g, g ∈ l -> nr_pos g <> nr_pos t) -> nref_in t (fst st) = true ->
  nref_in t (fst (fold_left (cond_check p) l st)) = true.
Proof.
  induction l as [|g r IH]; intros st Hne Hin; simpl; [done|].
  apply IH.
  - intros g' Hg'. apply Hne. by constructor.
  - apply cond_check_keeps; [|done]. apply Hne. by constructor.
Qed.

Lemma cond_fold_adds p t l st :
  NoDup (map nr_pos l) -> t ∈ l -> satisfies t p = true ->
  nref_in t (fst (fold_left (cond_check p) l st)) = true.
Proof.
  intros Hnd Hin Hs.
  apply list_elem_of_split in Hin as (l1 & l2 & ->).
  rewrite fold_left_app. simpl. apply cond_fold_keeps; [|by apply cond_check_adds].
  intros g Hg He. rewrite map_app in Hnd. simpl in Hnd.
  apply NoDup_app in Hnd as (_ & _ & Hnd). apply NoDup_cons in Hnd as [Hn _].
  apply Hn. rewrite <- He. apply list_elem_of_fmap. by exists g.
Qed.

(** A target that passes every condition is a true match. *)
Lemma cond_match_true cond_props tgts t :
  NoDup (map nr_pos tgts) -> t ∈ tgts -> cond_props <> [] ->
  forallb (satisfies t) cond_props = true ->
  nref_in t (fst (cond_match cond_props tgts)) = true.
Proof.
  intros Hnd Hin Hne Hall. unfold cond_match.
  destruct (exists_last Hne) as (ps & p & ->).
  rewrite fold_left_app. simpl. apply cond_fold_adds; [done|done|].
  rewrite forallb_app in Hall. apply andb_true_iff in Hall as [_ Hp].
  simpl in Hp. by rewrite andb_true_r in Hp.
Qed.

Lemma run_blocks_chain kind subs m : forall w,
  chain exec_block node_path m (blocks_of kind subs) w
    (fst (fst (run_blocks exec_block node_path kind subs m w)))
    (snd (fst (run_blocks exec_block node_path kind subs m w)))
    (snd (run_blocks exec_block node_path kind subs m w)).
Proof.
  unfold blocks_of. induction subs as [|n r IH]; intros w; simpl.
  - constructor.
  - destruct (PyStr.startswith (n_name (nr_node n)) kind) eqn:Hk.
    2:{ rewrite filter_cons_False by congruence. apply IH. }
    rewrite filter_cons_True by done.
    destruct (exec_block n (node_path w m) w) as [w' o] eqn:He.
    destruct o as [ret| |c].
    + destruct (ret_is_false ret) eqn:Hr.
      * apply (chain_stop exec_block node_path m n _ w w' (Returned ret) He).
        simpl. by rewrite Hr.
      * specialize (IH w').
        destruct (run_blocks exec_block node_path kind r m w') as [[calls w''] ex].
        simpl in *. eapply chain_on; [exact He| |exact IH]. simpl. by rewrite Hr.
    + by apply (chain_stop exec_block node_path m n _ w w' Raised He).
    + by apply (chain_stop exec_block node_path m n _ w w' (Exited c) He).
Qed.

Lemma run_matches_serves kind subs matches : forall w,
  serves exec_block node_path (blocks_of kind subs) matches w
    (fst (fst (run_matches exec_block node_path kind subs matches w)))
    (snd (fst (run_matches exec_block node_path kind subs matches w)))
    (snd (run_matches exec_block node_path kind subs matches w)).
Proof.
  induction matches as [|m rest IH]; intros w; simpl.
  - constructor.
  - pose proof (run_blocks_chain kind subs m w) as Hc.
    destruct (run_blocks exec_block node_path kind subs m w) as [[calls w'] [c|]];
      simpl in *.
    + by apply serves_exit.
    + specialize (IH w').
      destruct (run_matches exec_block node_path kind subs rest w') as [[runs w''] ex].
      simpl in *. by eapply serves_on.
Qed.

(** What a chain says about the order of its calls: the blocks called are
    an initial segment of the blocks, every call but the last went on, and
    the segment is cut short only by a last call that did not go on. *)
Lemma chain_order m blocks w calls w' ex :
  chain exec_block node_path m blocks w calls w' ex ->
  map bc_lop calls `prefix_of` blocks /\
  (forall i c, calls !! i = Some c -> (S i < length calls)%nat ->
               goes_on (bc_outcome c) = true) /\
  (map bc_lop calls = blocks \/
   exists c, last calls = Some c /\ goes_on (bc_outcome c) = false).
Proof.
  induction 1 as [w|n r w w' o calls w'' ex He Ho Hc IH|n r w w' o He Ho].
  - split_and!; [done| |by left]. intros i c Hc. by rewrite lookup_nil in Hc.
  - destruct IH as (I1 & I2 & I3). split_and!.
    + simpl. by apply prefix_cons.
    + intros [|i] c Hi Hlen; simpl in *.
      * by injection Hi as <-.
      * apply (I2 i c Hi). lia.
    + destruct I3 as [I3|(c & Hl & Hg)].
      * left. simpl. by f_equal.
      * right. exists c. split; [|done]. destruct calls; [discriminate|exact Hl].
  - split_and!.
    + simpl. apply prefix_cons, prefix_nil.
    + intros i c Hi Hlen. simpl in Hlen. lia.
    + right. eexists. split; [reflexivity|exact Ho].
Qed.

End ConditionalFacts.

Lemma child_refs_from_sublist cs : forall path pos i,
  child_refs_from path pos i cs `sublist_of` walk_list path pos i cs.
Proof.
  induction cs as [|c r IH]; intros path pos i; simpl; [constructor|].
  rewrite walk_unfold. simpl. apply sublist_skip.
  apply sublist_inserts_l, IH.
Qed.

Lemma child_refs_sublist f : child_refs f `sublist_of` subnodes f.
Proof.
  unfold child_refs, subnodes. rewrite walk_unfold.
  apply sublist_cons, child_refs_from_sublist.
Qed.

Lemma filter_sublist {A} (P : A -> Prop) `{forall x, Decision (P x)} (l1 l2 : list A) :
  l1 `sublist_of` l2 -> filter P l1 `sublist_of` filter P l2.
Proof.
  induction 1 as [|x l1 l2 Hs IH|x l1 l2 Hs IH].
  - constructor.
  - rewrite !filter_cons. destruct (decide (P x)); [by apply sublist_skip|done].
  - rewrite filter_cons. destruct (decide (P x)); [by apply sublist_cons|done].
Qed.

(** The child lops with such a name are among the blocks, in the same
    order. *)
Lemma claimed_blocks_sublist kind lop_node :
  claimed_blocks kind lop_node `sublist_of` blocks_of kind (subnodes lop_node).
Proof.
  unfold claimed_blocks, blocks_of. apply filter_sublist.
  etrans; [apply sublist_filter|apply child_refs_sublist].
Qed.

Lemma nodes_nodup `{Externals} root regex : NoDup (map nr_pos (nodes root regex)).
Proof.
  unfold nodes. eapply sublist_NoDup; [apply (walk_nodup root "/" [])|].
  apply (fmap_sublist nr_pos), sublist_filter.
Qed.

(** C2, as amended.  For a conditional lop whose chain of conditions is
    found in the lop tree ([cond_root] names a node below the lop) and has
    targets in the tree: (1) a target that passes every condition of the
    chain's deepest node, of which there is at least one, is a true match;
    (2) the true matches are served in the order they were found, each with
    the nodes of the lop's subtree whose names begin with [true], at any
    depth and in document order: every one is called with [start_node]
    bound to the path of the match, on the state the call before it left,
    and the call after which the loop does not go on (it returned [False],
    or raised) is the last one for that match; (3) the false matches are
    served likewise with the nodes whose names begin with [false], starting
    in the state the true matches left; (4) a block that leaves the process
    ends the handler, which otherwise returns [False]. *)
Theorem conditional_runs_blocks_in_order `{Externals} {World : Type}
    (exec_block : nref -> string -> World -> World * lop_outcome)
    (node_path : World -> nref -> string) (re_sub_empty : string -> string -> string)
    (main : LopperTree) (subtrees : gmap string LopperTree)
    (lops_root : LopperNode) (lop_node cond_last_node : nref)
    (sdt_tgt_nodes : list nref) (w : World) :
  cond_targets re_sub_empty lops_root (t_root (lop_tree main subtrees lop_node)) lop_node
    = Some (cond_last_node, sdt_tgt_nodes) ->
  let run := exec_conditional exec_block node_path re_sub_empty main subtrees
               lops_root lop_node w in
  let conds := n_props (nr_node cond_last_node) in
  let found := cond_match conds sdt_tgt_nodes in
  (forall t, t ∈ sdt_tgt_nodes -> conds <> [] -> forallb (satisfies t) conds = true ->
     nref_in t (fst found) = true) /\
  exists w1 ex1,
    serves exec_block node_path (blocks_of "true" (subnodes lop_node))
      (fst found) w (true_runs run) w1 ex1 /\
    match ex1 with
    | Some c => false_runs run = [] /\ cond_world run = w1 /\ cond_result run = PyExit c
    | None =>
        exists ex2,
          serves exec_block node_path (blocks_of "false" (subnodes lop_node))
            (snd found) w1 (false_runs run) (cond_world run) ex2 /\
          cond_result run = match ex2 with
                            | Some c => PyExit c
                            | None => PyOk (RetBool false)
                            end
    end.
Proof.
  intros Htg run conds found. split.
  - intros t Hin Hne Hall. apply cond_match_true; [|done|done|done].
    unfold cond_targets in Htg.
    destruct (conditional_start lops_root lop_node) as [start|]; [|discriminate].
    match type of Htg with
    | context [nodes ?r ?p] => pose proof (nodes_nodup r p) as Hnd; destruct (nodes r p)
    end; [discriminate|].
    injection Htg as _ <-. exact Hnd.
  - subst run. unfold exec_conditional. rewrite Htg. unfold cond_dispatch.
    fold conds. fold found. destruct found as [tgt_matches tgt_false_matches].
    simpl fst. simpl snd.
    pose proof (run_matches_serves exec_block node_path "true" (subnodes lop_node)
                  tgt_matches w) as Ht.
    destruct (run_matches exec_block node_path "true" (subnodes lop_node) tgt_matches w)
      as [[truns w'] [c|]]; simpl in Ht.
    + exists w', (Some c). by split.
    + pose proof (run_matches_serves exec_block node_path "false" (subnodes lop_node)
                    tgt_false_matches w') as Hf.
      destruct (run_matches exec_block node_path "false" (subnodes lop_node)
                  tgt_false_matches w') as [[fruns w''] [c|]]; simpl in Hf.
      * exists w', None. split; [exact Ht|]. exists (Some c). by split.
      * exists w', None. split; [exact Ht|]. exists None. by split.
Qed.

(** The conditional of the example on the two cpus, its chain named by
    [cond_root]: [cpu@0] is the true match; its first block, a [modify]
    lop, returns [False] and ends the chain before [true_2]; [cpu@1] gets
    both [false] blocks.  The log of the calls is the state the handler
    leaves. *)
Lemma conditional_runs_blocks_in_order_witness :
  let lops_root := lop_root 5 [ex_cond_named] in
  let last :=
    {| nr_pos := [0; 0; 0; 0]%nat; abs_path := "/lops/lop_0/cpus/cpu@.*";
       nr_node := LNode "cpu@.*" "" 0 [prop "status" [VStr "okay"]] [] |} in
  let tgts := @nodes mini_externals ex_sdt_tree "/cpus/cpu@.*" in
  let run := @exec_conditional mini_externals _ ex_exec_block ex_node_path
               mini_re_sub_empty ex_sdt_main ∅ lops_root ex_cond_named_ref [] in
  let found := @cond_match mini_externals (n_props (nr_node last)) tgts in
  (exists w1 ex1,
     serves ex_exec_block ex_node_path (blocks_of "true" (subnodes ex_cond_named_ref))
       (fst found) [] (true_runs run) w1 ex1 /\
     match ex1 with
     | Some c => false_runs run = [] /\ cond_world run = w1 /\ cond_result run = PyExit c
     | None =>
         exists ex2,
           serves ex_exec_block ex_node_path
             (blocks_of "false" (subnodes ex_cond_named_ref))
             (snd found) w1 (false_runs run) (cond_world run) ex2 /\
           cond_result run = match ex2 with
                             | Some c => PyExit c
                             | None => PyOk (RetBool false)
                             end
     end) /\
  map abs_path tgts = ["/cpus/cpu@0"; "/cpus/cpu@1"] /\
  run_paths (true_runs run) = [("/cpus/cpu@0", ["/lops/lop_0/true_1"])] /\
  run_paths (false_runs run)
    = [("/cpus/cpu@1", ["/lops/lop_0/false_1"; "/lops/lop_0/false_2"])] /\
  cond_world run
    = [("/lops/lop_0/true_1", "/cpus/cpu@0");
       ("/lops/lop_0/false_1", "/cpus/cpu@1");
       ("/lops/lop_0/false_2", "/cpus/cpu@1")].
Proof.
  intros lops_root last tgts run found. split_and!.
  - apply (@conditional_runs_blocks_in_order mini_externals _ ex_exec_block ex_node_path
             mini_re_sub_empty ex_sdt_main ∅ lops_root ex_cond_named_ref last tgts []).
    reflexivity.
  - reflexivity.
  - reflexivity.
  - reflexivity.
  - reflexivity.
Defined.

(** C2 as stated fails.  The blocks are taken from all the subnodes of the
    lop, not from its children: [true_inner], a lop below the block
    [true_1], is called as a block of its own right after [true_1].  It is a
    [modify] lop and returns [False], which ends the chain: the child lop
    [true_2] is not executed for the match, although no child lop named
    [true...] returned [False]. *)
Lemma conditional_runs_nested_blocks :
  let lops_root := lop_root 5 [ex_cond_deep] in
  let run := @exec_conditional mini_externals _ ex_exec_block ex_node_path
               mini_re_sub_empty ex_sdt_main ∅ lops_root ex_cond_deep_ref [] in
  map abs_path (claimed_blocks "true" ex_cond_deep_ref)
    = ["/lops/lop_0/true_1"; "/lops/lop_0/true_2"] /\
  Forall (fun n => goes_on (snd (ex_exec_block n "/cpus/cpu@0" [])) = true)
    (claimed_blocks "true" ex_cond_deep_ref) /\
  run_paths (true_runs run)
    = [("/cpus/cpu@0", ["/lops/lop_0/true_1"; "/lops/lop_0/true_1/true_inner"])] /\
  cond_world run
    = [("/lops/lop_0/true_1", "/cpus/cpu@0");
       ("/lops/lop_0/true_1/true_inner", "/cpus/cpu@0")] /\
  (forall matches w' ex,
     ~ serves ex_exec_block ex_node_path (claimed_blocks "true" ex_cond_deep_ref)
         matches [] (true_runs run) w' ex).
Proof.
  intros lops_root run. split_and!.
  - reflexivity.
  - repeat constructor.
  - reflexivity.
  - reflexivity.
  - intros matches w' ex Hs.
    remember (true_runs run) as runs eqn:Hruns. vm_compute in Hruns.
    remember (claimed_blocks "true" ex_cond_deep_ref) as blocks eqn:Hblocks.
    vm_compute in Hblocks. subst runs blocks.
    inversion Hs as [|m r w0 calls w1 runs' w2 ex' Hc Hr|m r w0 calls w1 c Hc]; subst.
    + inversion Hc as [|n r0 v v' o calls' v'' ex'' He Ho Hc'|n r0 v v' o He Ho]; subst.
      inversion Hc' as [|n1 r1 u u' o1 calls1 u'' ex1 He1 Ho1 Hc1|n1 r1 u u' o1 He1 Ho1];
        subst; discriminate.
    + inversion Hc as [|n r0 v v' o calls' v'' ex'' He Ho Hc'|n r0 v v' o He Ho]; subst.
      inversion Hc' as [|n1 r1 u u' o1 calls1 u'' ex1 He1 Ho1 Hc1|n1 r1 u u' o1 He1 Ho1];
        subst; discriminate.
Qed.

(** Without [cond_root] the chain is looked for at the path of the lop
    followed by two slashes, where no node is: the handler returns [False]
    and calls no block. *)
Example conditional_without_cond_root :
  let run := @exec_conditional mini_externals _ ex_exec_block ex_node_path
               mini_re_sub_empty ex_sdt_main ∅ (lop_root 5 [ex_cond_lop]) ex_cond_lop_ref [] in
  true_runs run = [] /\ false_runs run = [] /\ cond_world run = [] /\
  cond_result run = PyOk (RetBool false).
Proof. split_and!; reflexivity. Qed.

(** ** The [select] lop *)

Lemma rd_wr_eq h a l : rd (wr h a l) a = l.
Proof. unfold rd, wr. simpl. by rewrite lookup_insert_eq. Qed.

Lemma rd_wr_ne h a b l : a <> b -> rd (wr h a l) b = rd h b.
Proof. intros Hne. unfold rd, wr. simpl. by rewrite lookup_insert_ne. Qed.

Lemma rd_alloc_eq h l : rd (snd (alloc h l)) (fst (alloc h l)) = l.
Proof. unfold rd, alloc. simpl. by rewrite lookup_insert_eq. Qed.

Lemma rd_alloc_ne h l b : (b < fresh h)%nat -> rd (snd (alloc h l)) b = rd h b.
Proof. intros Hlt. unfold rd, alloc. simpl. rewrite lookup_insert_ne; [done|lia]. Qed.

Lemma append_if_absent_rd h a sl :
  rd (append_if_absent h a sl) a = (if nref_in sl (rd h a) then rd h a else rd h a ++ [sl]) /\
  (forall b, b <> a -> rd (append_if_absent h a sl) b = rd h b) /\
  fresh (append_if_absent h a sl) = fresh h.
Proof.
  unfold append_if_absent. destruct (nref_in sl (rd h a)); [done|].
  split_and!; [apply rd_wr_eq | intros b Hb; by apply rd_wr_ne | done].
Qed.

Lemma remove_if_present_rd h a sl :
  rd (remove_if_present h a sl) a
    = (if nref_in sl (rd h a) then nref_remove sl (rd h a) else rd h a) /\
  (forall b, b <> a -> rd (remove_if_present h a sl) b = rd h b) /\
  fresh (remove_if_present h a sl) = fresh h.
Proof.
  unfold remove_if_present. destruct (nref_in sl (rd h a)); [|done].
  split_and!; [apply rd_wr_eq | intros b Hb; by apply rd_wr_ne | done].
Qed.

Lemma acts_as_fold a body step l : acts_as a body step -> forall h,
  rd (fold_left body l h) a = fold_left step l (rd h a) /\
  (forall b, b <> a -> rd (fold_left body l h) b = rd h b) /\
  fresh (fold_left body l h) = fresh h.
Proof.
  intros Hb. induction l as [|sl r IH]; intros h; simpl; [done|].
  destruct (Hb h sl) as (H1 & H2 & H3). destruct (IH (body h sl)) as (I1 & I2 & I3).
  split_and!.
  - by rewrite I1, H1.
  - intros b Hne. by rewrite I2, H2.
  - by rewrite I3, H3.
Qed.

Section SelectFacts.

Context `{Externals}.

Lemma val_body_or node_regex prop prop_val a :
  node_regex <> "" ->
  acts_as a (val_body node_regex prop prop_val a) (or_step (passes_val prop prop_val)).
Proof.
  intros Hr h sl. apply String.eqb_neq in Hr.
  unfold val_body, or_step, passes_val. rewrite Hr.
  destruct (val_test prop prop_val sl) as [[|]|]; try done.
  apply append_if_absent_rd.
Qed.

Lemma val_body_and prop prop_val a :
  acts_as a (val_body "" prop prop_val a) (and_step (passes_val prop prop_val)).
Proof.
  intros h sl. unfold val_body, and_step, passes_val. simpl.
  destruct (val_test prop prop_val sl) as [[|]|];
    [apply append_if_absent_rd | apply remove_if_present_rd | apply remove_if_present_rd].
Qed.

Lemma exists_body_and prop a :
  acts_as a (exists_body prop a) (and_step (passes_exists prop)).
Proof.
  intros h sl. unfold exists_body, and_step, passes_exists.
  destruct (Bool.eqb _ _); [apply append_if_absent_rd | apply remove_if_present_rd].
Qed.

End SelectFacts.

Lemma or_step_fold pass l : forall r,
  fold_left (or_step pass) l r = add_new r (filter (fun sl => pass sl = true) l).
Proof.
  unfold add_new. induction l as [|sl l IH]; intros r; simpl; [done|].
  rewrite IH. unfold or_step. rewrite filter_cons.
  destruct (pass sl) eqn:Hp.
  - destruct (decide (true = true)); [|done]. done.
  - destruct (decide (false = true)); [discriminate|]. done.
Qed.

(** Two references to nodes of one tree at the same position are equal. *)
Lemma preorder_pos_inj root x y :
  x ∈ preorder root -> y ∈ preorder root -> nr_pos x = nr_pos y -> x = y.
Proof.
  intros Hx Hy He. pose proof (walk_nodup root "/" []) as Hnd. fold (preorder root) in Hnd.
  apply list_elem_of_lookup in Hx as [i Hi]. apply list_elem_of_lookup in Hy as [j Hj].
  assert (i = j).
  { eapply NoDup_lookup; [exact Hnd| |].
    - rewrite list_lookup_fmap, Hi. reflexivity.
    - rewrite list_lookup_fmap, Hj. simpl. by rewrite He. }
  subst. congruence.
Qed.

Lemma nref_remove_middle sl (l1 l2 : list nref) :
  (forall x, x ∈ l1 -> nr_pos sl <> nr_pos x) ->
  nref_remove sl (l1 ++ sl :: l2) = l1 ++ l2.
Proof.
  induction l1 as [|x l1 IH]; intros Hne; simpl.
  - unfold nref_eqb. by rewrite bool_decide_eq_true_2.
  - assert (Hx : nref_eqb sl x = false).
    { apply not_true_iff_false. rewrite nref_eqb_eq. apply Hne. by constructor. }
    rewrite Hx, IH; [done|]. intros y Hy. apply Hne. by constructor.
Qed.

(** Filtering a list in place: the loop runs over a copy of the list and
    removes from the list itself. *)
Lemma and_step_in_place root pass todo : forall done_,
  within root (done_ ++ todo) ->
  fold_left (and_step pass) todo (filter (fun sl => pass sl = true) done_ ++ todo)
    = filter (fun sl => pass sl = true) (done_ ++ todo).
Proof.
  induction todo as [|sl todo IH]; intros done_ Hw; simpl.
  - by rewrite !app_nil_r.
  - assert (Hin : nref_in sl (filter (fun sl => pass sl = true) done_ ++ sl :: todo) = true).
    { apply nref_in_spec. exists sl. split; [|done]. apply elem_of_app. right. by constructor. }
    unfold and_step at 2. rewrite Hin.
    replace (done_ ++ sl :: todo) with ((done_ ++ [sl]) ++ todo) in * by (by rewrite <- app_assoc).
    destruct (pass sl) eqn:Hp.
    + rewrite <- (IH (done_ ++ [sl]) Hw). rewrite filter_app, filter_cons_True by done.
      simpl. by rewrite <- app_assoc.
    + rewrite nref_remove_middle.
      * rewrite <- (IH (done_ ++ [sl]) Hw). rewrite filter_app, filter_cons_False by congruence.
        simpl. by rewrite app_nil_r.
      * intros x [Hpx Hx]%list_elem_of_filter He.
        assert (sl = x).
        { apply (preorder_pos_inj root); [| |done]; apply Hw; set_solver. }
        congruence.
Qed.

(** The same loop on another list that holds passing nodes only. *)
Lemma and_step_other root pass l : forall r,
  within root (l ++ r) -> Forall (fun x => pass x = true) r ->
  fold_left (and_step pass) l r = add_new r (filter (fun sl => pass sl = true) l).
Proof.
  unfold add_new. induction l as [|sl l IH]; intros r Hw Hr; simpl; [done|].
  rewrite filter_cons. unfold and_step at 2.
  assert (Hw' : forall r', (forall x, x ∈ r' -> x ∈ r \/ x = sl) -> within root (l ++ r')).
  { intros r' Hr' x [Hx|Hx]%elem_of_app; [apply Hw; set_solver|].
    destruct (Hr' x Hx) as [?| ->]; apply Hw; set_solver. }
  destruct (pass sl) eqn:Hp.
  - destruct (decide (true = true)); [|done]. simpl.
    destruct (nref_in sl r) eqn:Hin.
    + apply IH; [|done]. apply Hw'. intros x Hx. by left.
    + apply IH.
      * apply Hw'. intros x [Hx| ->%list_elem_of_singleton]%elem_of_app; [by left|by right].
      * apply Forall_app. split; [done|]. by repeat constructor.
  - destruct (decide (false = true)); [discriminate|].
    destruct (nref_in sl r) eqn:Hin.
    + apply nref_in_spec in Hin as (x & Hx & He).
      assert (sl = x). { apply (preorder_pos_inj root); [| |done]; apply Hw; set_solver. }
      subst x. rewrite Forall_forall in Hr. specialize (Hr sl Hx). congruence.
    + apply IH; [|done]. apply Hw'. intros x Hx. by left.
Qed.

Lemma within_nil root : within root [].
Proof. intros x Hx. by apply elem_of_nil in Hx. Qed.

Lemma within_app root l1 l2 : within root l1 -> within root l2 -> within root (l1 ++ l2).
Proof. intros H1 H2 x [Hx|Hx]%elem_of_app; [by apply H1|by apply H2]. Qed.

Lemma within_filter root (P : nref -> Prop) `{forall x, Decision (P x)} l :
  within root l -> within root (filter P l).
Proof. intros Hw x [_ Hx]%list_elem_of_filter. by apply Hw. Qed.

Lemma within_add_new root l : forall r,
  within root r -> within root l -> within root (add_new r l).
Proof.
  unfold add_new. induction l as [|sl l IH]; intros r Hr Hl; simpl; [done|].
  apply IH.
  - destruct (nref_in sl r); [done|]. apply within_app; [done|].
    intros x ->%list_elem_of_singleton. apply Hl. by constructor.
  - intros x Hx. apply Hl. by constructor.
Qed.

Section SelectSim.

Context `{Externals}.

Lemma within_nodes root regex : within root (nodes root regex).
Proof. unfold nodes. intros x [_ Hx]%list_elem_of_filter. exact Hx. Qed.

Lemma passes_val_eq prop prop_val :
  prop_val <> "" -> passes prop prop_val = passes_val prop prop_val.
Proof. intros Hv. unfold passes. apply String.eqb_neq in Hv. by rewrite Hv. Qed.

(** One selector: the store follows the lists. *)
Lemma select_one_sim root st pool res selected s :
  sel_inv root st pool res selected ->
  plain_selector s = true ->
  sel_inv root (select_one root st s)
    (fst (spec_one root selected (pool, res) s))
    (snd (spec_one root selected (pool, res) s)) selected.
Proof.
  destruct st as [h v]. intros (Hp & Hr & Ht & Ls & Lp & Lt & Hne & Wp & Wr & Wt) Hplain.
  unfold select_one, spec_one. unfold plain_selector in Hplain.
  destruct (parse_selector s) as [[node_regex prop] prop_val].
  destruct (String.eqb node_regex "") eqn:Ereg; simpl negb; cbv iota.
  - (* no path regex: the predicate filters *)
    apply String.eqb_eq in Ereg. subst node_regex.
    destruct (String.eqb prop "") eqn:Eprop; [discriminate|]. simpl negb. simpl andb.
    set (possible := match rd h (v_selected_nodes v) with
                     | [] => (v_tree_selected v, h)
                     | _ => (v_selected_nodes v, h)
                     end).
    assert (Hposs : possible = ((if decide (res = []) then v_tree_selected v
                                 else v_selected_nodes v), h)).
    { subst possible. rewrite Hr. destruct res; [done|]. by destruct (decide _). }
    rewrite Hposs. clear Hposs possible.
    assert (Hloop : forall body pass,
      acts_as (v_selected_nodes v) body (and_step pass) ->
      let a := if decide (res = []) then v_tree_selected v else v_selected_nodes v in
      let h' := fold_left body (rd h a) h in
      let res' := if decide (res = []) then add_new [] (filter (fun sl => pass sl = true) selected)
                  else filter (fun sl => pass sl = true) res in
      rd h' (v_selected_nodes v) = res' /\
      rd h' a = (if decide (res = []) then selected else res') /\
      rd h' (v_tree_selected v) = selected /\ fresh h' = fresh h /\ within root res').
    { intros body pass Hact a h' res'.
      destruct (acts_as_fold _ _ _ (rd h a) Hact h) as (F1 & F2 & F3).
      fold h' in F1, F2, F3. subst a res'. destruct (decide (res = [])) as [->|Hnil].
      - rewrite Ht in F1. rewrite Hr in F1.
        rewrite (and_step_other root) in F1; [|by rewrite app_nil_r|constructor].
        split_and!; [done| |by rewrite F2, Ht|done|].
        + by rewrite F2, Ht.
        + apply within_add_new; [apply within_nil|by apply within_filter].
      - rewrite Hr in F1.
        pose proof (and_step_in_place root pass res [] Wr) as Hin. simpl in Hin.
        rewrite Hin in F1.
        split_and!; [done|done|by rewrite F2, Ht|done|by apply within_filter]. }
    destruct (String.eqb prop_val "") eqn:Eval; simpl negb; cbv iota.
    + (* presence or absence *)
      apply String.eqb_eq in Eval. subst prop_val. simpl in Hplain.
      apply negb_true_iff in Hplain. cbn [negb andb]. cbv beta iota zeta. rewrite Hplain.
      cbn [negb andb]. cbv beta iota zeta.
      destruct (Hloop _ _ (exists_body_and prop (v_selected_nodes v)))
        as (L1 & L2 & L3 & L4 & L5).
      revert L1 L2 L3 L4 L5. unfold passes. simpl String.eqb. cbv iota.
      destruct (decide (res = [])) as [->|Hnil]; intros L1 L2 L3 L4 L5.
      * simpl. split_and!; try done; lia.
      * destruct res as [|x res]; [done|]. simpl.
        split_and!; try done; lia.
    + (* PROP:VAL *)
      cbn [negb andb]. cbv beta iota zeta. rewrite Hplain.
      cbn [negb andb]. cbv beta iota zeta. rewrite Eprop. cbn [negb andb]. cbv beta iota zeta.
      assert (Hv : prop_val <> "") by (by apply String.eqb_neq).
      destruct (Hloop _ _ (val_body_and prop prop_val (v_selected_nodes v)))
        as (L1 & L2 & L3 & L4 & L5).
      revert L1 L2 L3 L4 L5. rewrite (passes_val_eq _ _ Hv).
      destruct (decide (res = [])) as [->|Hnil]; intros L1 L2 L3 L4 L5.
      * simpl. split_and!; try done; lia.
      * destruct res as [|x res]; [done|]. simpl.
        split_and!; try done; lia.
  - (* a path regex: its matches join the pool *)
    assert (Hreg : node_regex <> "") by (by apply String.eqb_neq).
    set (pool' := pool ++ nodes root node_regex).
    assert (Halloc : match rd h (v_selected_nodes_possible v) with
                     | [] => alloc h (nodes root node_regex)
                     | l => alloc h (l ++ nodes root node_regex)
                     end = alloc h pool').
    { rewrite Hp. subst pool'. by destruct pool. }
    rewrite Halloc. clear Halloc.
    assert (Wp' : within root pool') by (apply within_app; [done|apply within_nodes]).
    pose proof (rd_alloc_eq h pool') as A1.
    pose proof (rd_alloc_ne h pool') as A2.
    destruct (alloc h pool') as [a h1] eqn:Ea.
    assert (Ha : a = fresh h) by (unfold alloc in Ea; congruence).
    assert (Hf : fresh h1 = S (fresh h)) by (unfold alloc in Ea; injection Ea as _ <-; done).
    simpl in A1, A2.
    destruct (String.eqb prop "") eqn:Eprop; simpl negb; simpl andb; cbv iota.
    + (* no predicate *)
      destruct (String.eqb prop_val "") eqn:Eval; simpl.
      * rewrite Eprop. simpl. split_and!; try done; try lia.
        by rewrite A2.
      * rewrite Eprop. simpl. split_and!; try done; try lia; by rewrite A2.
    + destruct (String.eqb prop_val "") eqn:Eval; simpl negb; cbv iota.
      { simpl in Hplain. discriminate. }
      rewrite Hplain. simpl. rewrite Eprop. simpl.
      destruct (acts_as_fold _ _ _ (rd h1 a) (val_body_or node_regex prop prop_val
                  (v_selected_nodes v) Hreg) h1) as (F1 & F2 & F3).
      rewrite A1 in *. rewrite or_step_fold in F1. rewrite A2 in F1 by done. rewrite Hr in F1.
      split_and!.
      * rewrite F2 by lia. exact A1.
      * exact F1.
      * rewrite F2 by done. by rewrite A2.
      * lia.
      * lia.
      * lia.
      * done.
      * done.
      * apply within_add_new; [done|by apply within_filter].
      * done.
Qed.

End SelectSim.

Section SelectTheorems.

Context `{Externals}.

Lemma select_fold_sim root selected strings : forall st pool res,
  sel_inv root st pool res selected ->
  forallb plain_selector strings = true ->
  sel_inv root (fold_left (select_one root) strings st)
    (fst (fold_left (spec_one root selected) strings (pool, res)))
    (snd (fold_left (spec_one root selected) strings (pool, res))) selected.
Proof.
  induction strings as [|s r IH]; intros st pool res Hinv Hpl; cbn [fold_left]; [done|].
  simpl in Hpl. apply andb_true_iff in Hpl as [Hs Hr].
  pose proof (select_one_sim root st pool res selected s Hinv Hs) as Hstep.
  destruct (spec_one root selected (pool, res) s) as [pool' res'].
  by apply IH.
Qed.

Lemma select_prop_sim root st pool res selected value :
  sel_inv root st pool res selected ->
  plain_value value = true ->
  let r := spec_prop root (pool, res, selected) value in
  sel_inv root (select_prop root st value) (fst (fst r)) (snd (fst r)) (snd r).
Proof.
  intros Hinv Hpl.
  assert (Hclear : value = [""] ->
    let r := spec_prop root (pool, res, selected) value in
    sel_inv root (select_prop root st value) (fst (fst r)) (snd (fst r)) (snd r)).
  { intros ->. destruct st as [h v]. simpl.
    destruct Hinv as (Hp & Hr & Ht & Ls & Lp & Lt & Hne & Wp & Wr & Wt).
    unfold rd in *. simpl.
    split_and!; try done; try lia.
    - rewrite lookup_insert_ne; [done|lia].
    - rewrite lookup_insert_ne; [done|lia].
    - by rewrite lookup_insert_eq.
    - apply within_nil. }
  assert (Hfold : forallb plain_selector value = true ->
    let r := (fold_left (spec_one root selected) value (pool, res), selected) in
    sel_inv root (fold_left (select_one root) value st) (fst (fst r)) (snd (fst r)) (snd r)).
  { intros Hall. simpl. by apply select_fold_sim. }
  unfold plain_value in Hpl. unfold select_prop, spec_prop.
  destruct value as [|[|c s] [|s' r]]; try (by apply Hfold); by apply Hclear.
Qed.

Lemma select_props_sim root select_props : forall st pool res selected,
  sel_inv root st pool res selected ->
  forallb plain_value select_props = true ->
  let r := fold_left (spec_prop root) select_props (pool, res, selected) in
  sel_inv root (fold_left (select_prop root) select_props st)
    (fst (fst r)) (snd (fst r)) (snd r).
Proof.
  induction select_props as [|value r IH]; intros st pool res selected Hinv Hpl;
    cbn [fold_left]; [done|].
  simpl in Hpl. apply andb_true_iff in Hpl as [Hv Hr].
  pose proof (select_prop_sim root st pool res selected value Hinv Hv) as Hstep.
  destruct (spec_prop root (pool, res, selected) value) as [[pool' res'] selected'].
  by apply IH.
Qed.

Lemma select_init_inv root selected :
  within root selected -> sel_inv root (select_init selected) [] [] selected.
Proof.
  intros Hw. unfold select_init, sel_inv. simpl.
  split_and!; try done; try lia; apply within_nil.
Qed.

Lemma exec_select_spec root selected select_props :
  within root selected ->
  forallb plain_value select_props = true ->
  exec_select root selected select_props = select_spec root selected select_props.
Proof.
  intros Hw Hpl. unfold exec_select, select_spec.
  pose proof (select_props_sim root select_props _ _ _ _ (select_init_inv root selected Hw) Hpl)
    as Hsim.
  destruct (fold_left (select_prop root) select_props (select_init selected)) as [h v].
  destruct Hsim as (_ & Hr & _). exact Hr.
Qed.

End SelectTheorems.

Lemma plain_value_single `{Externals} s :
  s <> "" -> plain_selector s = true -> plain_value [s] = true.
Proof.
  intros Hs Hp. unfold plain_value. destruct s as [|c s]; [done|].
  simpl. by rewrite Hp.
Qed.

(** What the handler computes, for the selectors of [plain_value].  A
    [select] lop works through its selector strings in order, over a
    candidate pool and a result, both empty at first.  A selector with a
    path regex adds the nodes the regex matches to the pool; without
    predicate the result becomes the whole pool, with a [PROP:VAL]
    predicate the nodes of the pool that pass it are added to the result.
    A selector without path regex filters with its predicate the result so
    far, or the selection the tree holds from earlier lops when the result
    is empty, and what it filtered becomes the pool.  The value [['']]
    empties the tree's earlier selection.  The lop leaves the result as the
    tree's selection ([select_spec]).  In particular one selector
    [REGEX:PROP:VAL] selects the nodes matched by [REGEX] that pass the
    predicate, and two selectors that are path regexes select the matches
    of the first followed by the matches of the second. *)
Theorem exec_select_selection `{Externals} (root : LopperNode) (selected : list nref) :
  within root selected ->
  (forall select_props,
     forallb plain_value select_props = true ->
     exec_select root selected select_props = select_spec root selected select_props) /\
  (forall s node_regex prop prop_val,
     parse_selector s = (node_regex, prop, prop_val) ->
     node_regex <> "" -> prop <> "" -> prop_val <> "" ->
     plain_selector s = true ->
     exec_select root selected [[s]]
       = add_new [] (filter (fun sl => passes_val prop prop_val sl = true)
                       (nodes root node_regex))) /\
  (forall s1 s2 regex1 regex2,
     parse_selector s1 = (regex1, "", "") -> parse_selector s2 = (regex2, "", "") ->
     regex1 <> "" -> regex2 <> "" ->
     exec_select root selected [[s1]; [s2]] = nodes root regex1 ++ nodes root regex2).
Proof.
  intros Hw. split_and!.
  - intros select_props Hpl. by apply exec_select_spec.
  - intros s node_regex prop prop_val Hparse Hr Hp Hv Hplain.
    assert (Hs : s <> "").
    { intros ->. cbv in Hparse. congruence. }
    rewrite exec_select_spec; [|done|].
    2:{ cbn [forallb]. by rewrite (plain_value_single s Hs Hplain). }
    unfold select_spec. destruct s as [|c s]; [done|].
    cbn [fold_left spec_prop]. unfold spec_one. rewrite Hparse.
    apply String.eqb_neq in Hr, Hp. rewrite Hr, Hp. reflexivity.
  - intros s1 s2 regex1 regex2 Hp1 Hp2 Hr1 Hr2.
    assert (Hs1 : s1 <> "") by (intros ->; cbv in Hp1; congruence).
    assert (Hs2 : s2 <> "") by (intros ->; cbv in Hp2; congruence).
    assert (Hpl : forall s regex, parse_selector s = (regex, "", "") -> regex <> "" ->
                    plain_selector s = true).
    { intros s regex Hp Hr. unfold plain_selector. rewrite Hp. simpl.
      apply negb_true_iff. by apply String.eqb_neq. }
    rewrite exec_select_spec; [|done|].
    2:{ cbn [forallb]. rewrite (plain_value_single s1 Hs1 (Hpl _ _ Hp1 Hr1)).
        by rewrite (plain_value_single s2 Hs2 (Hpl _ _ Hp2 Hr2)). }
    unfold select_spec. destruct s1 as [|c1 s1]; [done|]. destruct s2 as [|c2 s2]; [done|].
    cbn [fold_left spec_prop]. unfold spec_one. rewrite Hp1.
    apply String.eqb_neq in Hr1, Hr2. rewrite Hr1. simpl. rewrite Hp2, Hr2. reflexivity.
Qed.

(** The selectors of the specification on [ex_abc]. *)
Lemma exec_select_selection_witness :
  within ex_abc [] /\
  map abs_path (@exec_select mini_externals ex_abc [] [["/a/.*:foo:1"]]) = ["/a/b"] /\
  map abs_path (@exec_select mini_externals ex_abc [] [["/a/.*:foo:1"]; [":foo:"]]) = ["/a/b"] /\
  map abs_path (@exec_select mini_externals ex_abc [] [["/a/.*"]; ["/b/.*"]])
    = ["/a/b"; "/a/c"; "/b/x"].
Proof.
  assert (Hw : within ex_abc []) by apply within_nil.
  destruct (@exec_select_selection mini_externals ex_abc [] Hw) as (Hall & Hone & Htwo).
  split; [exact Hw|]. split_and!.
  - rewrite (Hone "/a/.*:foo:1" "/a/.*" "foo" "1"); [reflexivity|reflexivity|done|done|done|reflexivity].
  - rewrite (Hall [["/a/.*:foo:1"]; [":foo:"]]); reflexivity.
  - rewrite (Htwo "/a/.*" "/b/.*" "/a/.*" "/b/.*"); [reflexivity|reflexivity|reflexivity|done|done].
Defined.

(** C4, at the failing input.  The lop has the shape the handler's comment
    gives for an "and" condition: [select_1 = "/a/.*:foo:2"], then
    [select_2 = ":bar:"] without path regex.  [select_1] matches [/a/b] and
    [/a/c] and selects neither, so the nodes selected so far are none and
    the filter of [select_2] has nothing to keep: the selection the
    specification describes is empty.  The handler asks [if selected_nodes:] to tell
    whether a selector came before, which an empty result answers as if
    none had: [select_2] filters the selection the tree holds from an
    earlier lop, and the lop selects [/b/x], a node that no path regex of
    the lop matches. *)
Lemma exec_select_falls_back_to_selection :
  let selected := @nodes mini_externals ex_abc "/b/x" in
  let lop := [["/a/.*:foo:2"]; [":bar:"]] in
  map abs_path selected = ["/b/x"] /\
  map abs_path (@nodes mini_externals ex_abc "/a/.*") = ["/a/b"; "/a/c"] /\
  map abs_path (@exec_select mini_externals ex_abc selected [["/a/.*:foo:2"]]) = [] /\
  map abs_path (@exec_select mini_externals ex_abc selected lop) = ["/b/x"] /\
  map abs_path (@select_claim mini_externals ex_abc selected lop) = [].
Proof. split_and!; reflexivity. Qed.

(** The pool of candidates is carried from one selector to the next: after
    [select_1 = "/a/.*:foo:1"], the path regex of [select_2 = "/b/.*"] adds
    its matches to the pool of [select_1], and the selection becomes the
    whole pool, [/a/c] included, which failed the predicate of
    [select_1]. *)
Example select_pool_carries_over :
  let lop := [["/a/.*:foo:1"]; ["/b/.*"]] in
  map abs_path (@exec_select mini_externals ex_abc [] lop) = ["/a/b"; "/a/c"; "/b/x"] /\
  map abs_path (@select_claim mini_externals ex_abc [] lop) = ["/a/b"; "/b/x"].
Proof. split; reflexivity. Qed.

(** C5, at the failing input.  A predicate value with [!] inside:
    [foo:1!] does not begin with [!], and is read as an inverted test for
    the value [1!].  [/a/b] has [foo = 1], which is not [1!], and is
    selected; the test is inverted whenever the value contains [!], and a
    leading [!] only is stripped. *)
Example select_inverts_on_inner_bang :
  PyStr.startswith "1!" "!" = false /\
  has_bang "1!" = true /\
  map abs_path (@exec_select mini_externals ex_abc [] [["/a/.*:foo:1!"]]) = ["/a/b"] /\
  map abs_path (@exec_select mini_externals ex_abc [] [["/a/.*:foo:!1"]]) = [] /\
  map abs_path (@exec_select mini_externals ex_abc [] [["/a/.*:foo:1"]]) = ["/a/b"].
Proof. split_and!; reflexivity. Qed.

(** ** The [modify] lop *)

Lemma update_at_props_name p f : forall n, n_name (update_at p (with_props f) n) = n_name n.
Proof. destruct p as [|i p]; intros n; reflexivity. Qed.

Lemma map_name_alter p f i cs :
  map n_name (alter (update_at p (with_props f)) i cs) = map n_name cs.
Proof.
  revert i. induction cs as [|c cs IH]; intros [|i]; simpl; try done.
  - by rewrite update_at_props_name.
  - f_equal. apply IH.
Qed.

(** A change of the properties at [p] shows at [p] and nowhere else. *)
Lemma node_at_update_props f p : forall n path q,
  node_at path q (update_at p (with_props f) n)
    = (if bool_decide (q = p) then map_props f else id) <$> node_at path q n.
Proof.
  induction p as [|i p IH]; intros n path q.
  - destruct q as [|j q]; cbn [node_at update_at]; case_bool_decide; try done.
    simpl. destruct (n_children n !! j) as [c|]; simpl; [|done].
    by destruct (node_at _ q c).
  - destruct q as [|j q]; cbn [node_at update_at].
    + case_bool_decide; [done|]. simpl. by rewrite map_name_alter.
    + simpl n_children. destruct (decide (j = i)) as [->|Hne].
      * rewrite list_lookup_alter_eq. destruct (n_children n !! i) as [c|]; simpl; [|done].
        rewrite update_at_props_name, IH.
        repeat case_bool_decide; try done; congruence.
      * rewrite list_lookup_alter_ne by done.
        case_bool_decide; [congruence|].
        destruct (n_children n !! j) as [c|]; simpl; [|done].
        by destruct (node_at _ q c).
Qed.

Lemma props_changed_nil f q d : props_changed [] f q d = d.
Proof. unfold props_changed, touched. cbn [map]. case_bool_decide; [|done]. set_solver. Qed.

(** The same change at each of the nodes [l], one after the other. *)
Lemma data_at_fold_props f l :
  (forall ps, f (f ps) = f ps) ->
  forall root q,
  data_at (fold_left (fun r n => update_at (nr_pos n) (with_props f) r) l root) q
    = props_changed l f q <$> data_at root q.
Proof.
  intros Hidem. induction l as [|n l IH]; intros root q; cbn [fold_left].
  - destruct (data_at root q) as [d|]; simpl; [|done]. by rewrite props_changed_nil.
  - rewrite IH. unfold data_at. rewrite node_at_update_props.
    destruct (node_at "/" q root) as [d|]; simpl; [|done]. f_equal.
    unfold props_changed, touched. cbn [map].
    repeat case_bool_decide; try done.
    all: try (exfalso; set_solver).
    destruct d. unfold map_props. simpl. by rewrite Hidem.
Qed.

Lemma remove_prop_idem name ps : remove_prop name (remove_prop name ps) = remove_prop name ps.
Proof.
  unfold remove_prop. induction ps as [|p ps IH]; [done|].
  rewrite filter_cons. destruct (decide (p_name p <> name)).
  - by rewrite filter_cons_True, IH.
  - exact IH.
Qed.

Lemma set_prop_idem name value ps :
  set_prop name value (set_prop name value ps) = set_prop name value ps.
Proof.
  induction ps as [|p ps IH]; simpl.
  - by rewrite String.eqb_refl.
  - destruct (String.eqb (p_name p) name) eqn:He; simpl.
    + by rewrite String.eqb_refl.
    + by rewrite He, IH.
Qed.

(** After [node[name] = value] the node has the property with that value,
    and its other properties as before. *)
Lemma find_prop_set_prop name value ps other :
  find_prop other (set_prop name value ps)
    = if String.eqb other name then Some {| p_name := name; p_value := value |}
      else find_prop other ps.
Proof.
  induction ps as [|p ps IH]; simpl.
  - rewrite (String.eqb_sym name other). by destruct (String.eqb other name).
  - destruct (String.eqb (p_name p) name) eqn:He; simpl.
    + apply String.eqb_eq in He. rewrite (String.eqb_sym name other).
      destruct (String.eqb other name) eqn:Ho; [done|].
      rewrite He, (String.eqb_sym name other), Ho. done.
    + rewrite IH. destruct (String.eqb (p_name p) other) eqn:Hp; [|done].
      apply String.eqb_eq in Hp. subst other. by rewrite He.
Qed.

Lemma find_prop_remove_prop name ps other :
  find_prop other (remove_prop name ps)
    = if String.eqb other name then None else find_prop other ps.
Proof.
  unfold remove_prop. induction ps as [|p ps IH]; simpl.
  - by destruct (String.eqb other name).
  - rewrite filter_cons. destruct (decide (p_name p <> name)) as [Hne|He]; simpl.
    + rewrite IH. destruct (String.eqb (p_name p) other) eqn:Hp; [|done].
      apply String.eqb_eq in Hp. subst other.
      apply String.eqb_neq in Hne. by rewrite Hne.
    + apply dec_stable in He. rewrite IH.
      destruct (String.eqb other name) eqn:Ho; [done|].
      rewrite He, (String.eqb_sym name other), Ho. done.
Qed.

Lemma walk_list_child path pos cs : forall i k c f,
  cs !! k = Some c ->
  f ∈ walk (child_path path (n_name c)) (pos ++ [(i + k)%nat]) c ->
  f ∈ walk_list path pos i cs.
Proof.
  induction cs as [|c' cs IH]; intros i k c f Hk Hf; [done|].
  simpl. apply elem_of_app. destruct k as [|k]; simpl in Hk.
  - injection Hk as ->. left. by rewrite Nat.add_0_r in Hf.
  - right. apply (IH (S i) k c f Hk). by replace (S i + k)%nat with (i + S k)%nat by lia.
Qed.

Lemma walk_list_subtree path pos cs f : forall i,
  Forall (fun n => forall path pos f, f ∈ walk path pos n ->
            exists q, nr_pos f = pos ++ q /\ subtree_at q n = Some (nr_node f)) cs ->
  f ∈ walk_list path pos i cs ->
  exists k c q, cs !! k = Some c /\ nr_pos f = pos ++ (i + k)%nat :: q /\
                subtree_at q c = Some (nr_node f).
Proof.
  intros i IH. revert i. induction IH as [|c r Hc Hr IHr]; intros i Hf; simpl in Hf.
  - by apply elem_of_nil in Hf.
  - apply elem_of_app in Hf as [Hf|Hf].
    + destruct (Hc _ _ _ Hf) as (q & Hq & Hs).
      exists O. exists c. exists q. split; [done|]. split; [|done].
      rewrite Hq, <- app_assoc. simpl. by rewrite Nat.add_0_r.
    + destruct (IHr (S i) Hf) as (k & c' & q & Hk & Hq & Hs).
      exists (S k). exists c'. exists q. split; [done|]. split; [|done].
      rewrite Hq. by replace (S i + k)%nat with (i + S k)%nat by lia.
Qed.

(** A node of a walk sits at its position below the walk's root. *)
Lemma walk_subtree n : forall path pos f,
  f ∈ walk path pos n ->
  exists q, nr_pos f = pos ++ q /\ subtree_at q n = Some (nr_node f).
Proof.
  induction n as [nm lb ph ps cs IH] using LopperNode_forall_ind. intros path pos f.
  rewrite walk_unfold. intros [->|Hf]%elem_of_cons.
  - exists []. split; [by rewrite app_nil_r|done].
  - simpl n_children in Hf.
    destruct (walk_list_subtree path pos cs f O IH Hf) as (k & c & q & Hk & Hq & Hs).
    exists (k :: q). split; [exact Hq|]. simpl. by rewrite Hk.
Qed.

(** Every position below the root of a walk is the position of one of its
    nodes. *)
Lemma subtree_walk q : forall n path pos m,
  subtree_at q n = Some m -> exists f, f ∈ walk path pos n /\ nr_pos f = pos ++ q.
Proof.
  induction q as [|k q IH]; intros n path pos m Hs.
  - exists {| nr_pos := pos; abs_path := path; nr_node := n |}.
    split; [rewrite walk_unfold; by constructor|by rewrite app_nil_r].
  - simpl in Hs. destruct (n_children n !! k) as [c|] eqn:Hk; [|done].
    destruct (IH c (child_path path (n_name c)) (pos ++ [k]) m Hs) as (f & Hf & Hp).
    exists f. split.
    + rewrite walk_unfold. apply elem_of_cons. right.
      by apply (walk_list_child path pos (n_children n) O k c f Hk).
    + rewrite Hp, <- app_assoc. done.
Qed.

Lemma subtree_at_app a : forall b n,
  subtree_at (a ++ b) n = subtree_at a n ≫= subtree_at b.
Proof.
  induction a as [|i a IH]; intros b n; simpl; [done|].
  destruct (n_children n !! i) as [c|]; simpl; [apply IH|done].
Qed.

Lemma node_at_subtree q : forall path n,
  is_Some (node_at path q n) <-> is_Some (subtree_at q n).
Proof.
  induction q as [|i q IH]; intros path n; simpl.
  - split; eauto.
  - destruct (n_children n !! i) as [c|]; [apply IH|]. split; intros [? ?]; done.
Qed.

(** The positions of a node's subnodes are the positions of the tree that
    extend the node's position. *)
Lemma subnodes_positions root t q :
  t ∈ preorder root -> is_Some (data_at root q) ->
  (touched (subnodes t) q = true <-> nr_pos t `prefix_of` q).
Proof.
  intros Ht Hq. unfold touched. rewrite bool_decide_eq_true. split.
  - intros (f & -> & Hf)%list_elem_of_fmap. by apply walk_pos in Hf.
  - intros [q' ->].
    destruct (walk_subtree root "/" [] t Ht) as (p & Hp & Hs). simpl in Hp.
    apply node_at_subtree in Hq as [m Hm].
    rewrite <- Hp in Hs. rewrite subtree_at_app, Hs in Hm. simpl in Hm.
    destruct (subtree_walk q' (nr_node t) (abs_path t) (nr_pos t) m Hm) as (f & Hf & Hpf).
    apply list_elem_of_fmap. exists f. split; [done|exact Hf].
Qed.

Lemma tree_lookup_in root path t : tree_lookup root path = Some t -> t ∈ preorder root.
Proof.
  unfold tree_lookup. intros Hf. apply find_some in Hf as [Hin _].
  by apply list_elem_of_In.
Qed.

Lemma parse_modify_nonempty modify x : parse_modify modify = Some x -> modify <> "".
Proof. intros Hp ->. cbv in Hp. discriminate. Qed.

(** C7, as amended.  For a modify lop with nonempty [PROP] and empty
    [VAL], the named property is deleted on each target node and nothing
    else in the tree changes: at every position the tree holds the same
    path, name, label, phandle and children, and the same properties except
    that a target has none named [PROP].  The targets are the tree's
    selection for an empty [PATH] and otherwise the node at [PATH] together
    with all its descendants; without targets the tree stays as it is. *)
Theorem modify_delete_prop_frame `{Externals} (root lops_root : LopperNode)
    (selected : list nref) (modify modify_path modify_prop : string) :
  parse_modify modify = Some (modify_path, modify_prop, "") ->
  modify_prop <> "" ->
  exists root',
    exec_modify root lops_root selected modify = PyOk root' /\
    (forall q, data_at root' q
       = props_changed (default [] (modify_targets root selected modify_path))
           (remove_prop modify_prop) q <$> data_at root q) /\
    (forall ps other, find_prop other (remove_prop modify_prop ps)
       = if String.eqb other modify_prop then None else find_prop other ps) /\
    (modify_path = "" -> default [] (modify_targets root selected modify_path) = selected) /\
    (forall t, modify_path <> "" -> tree_lookup root modify_path = Some t ->
       modify_targets root selected modify_path = Some (subnodes t) /\
       forall q, is_Some (data_at root q) ->
         (touched (subnodes t) q = true <-> nr_pos t `prefix_of` q)) /\
    (modify_path <> "" -> tree_lookup root modify_path = None -> root' = root).
Proof.
  intros Hparse Hprop.
  pose proof (parse_modify_nonempty _ _ Hparse) as Hm.
  exists (modify_delete_prop root (default [] (modify_targets root selected modify_path))
            modify_prop).
  split_and!.
  - unfold exec_modify. apply String.eqb_neq in Hm, Hprop. rewrite Hm, Hparse, Hprop. simpl.
    by destruct (modify_targets root selected modify_path).
  - intros q. unfold modify_delete_prop. apply data_at_fold_props. apply remove_prop_idem.
  - intros ps other. apply find_prop_remove_prop.
  - intros ->. unfold modify_targets. simpl. by destruct selected.
  - intros t Hpath Ht. unfold modify_targets. apply String.eqb_neq in Hpath.
    rewrite Hpath, Ht. split; [done|].
    intros q Hq. apply (subnodes_positions root); [|done].
    by apply (tree_lookup_in root modify_path).
  - intros Hpath Ht. unfold modify_targets. apply String.eqb_neq in Hpath.
    by rewrite Hpath, Ht.
Qed.

(** [modify = "/chosen:bootargs:"] on [ex_chosen]: [bootargs] leaves
    [/chosen] and the node below it; [/memory] keeps it. *)
Lemma modify_delete_prop_frame_witness :
  exists root',
    @exec_modify mini_externals ex_chosen ex_no_lops [] "/chosen:bootargs:" = PyOk root' /\
    tree_paths root' = tree_paths ex_chosen /\
    props_at_path root' "/chosen" = Some [prop "stdout-path" [VStr "serial0"]] /\
    props_at_path root' "/memory" = Some [prop "bootargs" [VStr "unused"]].
Proof.
  destruct (@modify_delete_prop_frame mini_externals ex_chosen ex_no_lops []
              "/chosen:bootargs:" "/chosen" "bootargs" eq_refl)
    as (root' & Hexec & _); [discriminate|].
  exists root'. split; [exact Hexec|].
  vm_compute in Hexec. injection Hexec as <-. split_and!; reflexivity.
Defined.

(** C7 as stated fails: after [modify = "/chosen:bootargs:"] the tree
    differs from the old one at [/chosen/domain] too, which had a
    [bootargs] of its own and is a target as a descendant of [/chosen]. *)
Lemma modify_delete_prop_reaches_descendants :
  exists root',
    @exec_modify mini_externals ex_chosen ex_no_lops [] "/chosen:bootargs:" = PyOk root' /\
    props_at_path ex_chosen "/chosen/domain" = Some [prop "bootargs" [VStr "quiet"]] /\
    props_at_path root' "/chosen/domain" = Some [] /\
    props_at_path root' "/chosen" = Some [prop "stdout-path" [VStr "serial0"]].
Proof. eexists. split_and!; reflexivity. Qed.

(** C3, as amended.  For a modify lop with nonempty [PROP] and a [VAL]
    that contains [&], [NAME] is what is left of the part before [#] without
    its [&], and [FIELD] the part after [#].  [NAME] is resolved as a path
    regex in the main tree, then as a label in the main tree, then as a path
    regex in the lop tree, then as a label in the lop tree: the referenced
    node is the first node of the first of these that finds any.  The value
    substituted is the value of the referenced node's property [FIELD] when
    [FIELD] is given and the node has it, the node's phandle otherwise, and
    0 when [NAME] resolves to no node.  Every node matched by [PATH] as a
    path regex (the selection for an empty [PATH]) gets [PROP] with that
    value; nothing else changes. *)
Theorem modify_phandle_substitution `{Externals} (root lops_root : LopperNode)
    (selected : list nref) (modify modify_path modify_prop modify_val : string) :
  parse_modify modify = Some (modify_path, modify_prop, modify_val) ->
  modify_prop <> "" -> modify_val <> "" ->
  PyStr.has_char "&"%char modify_val = true ->
  let name := ref_name modify_val in
  let field := ref_field modify_val in
  let value := phandle_value root lops_root modify_val in
  exists root',
    exec_modify root lops_root selected modify = PyOk root' /\
    (* where NAME is looked for *)
    (forall f l, nodes root name = f :: l -> phandle_node root lops_root name = Some f) /\
    (forall f l, nodes root name = [] -> lnodes root name = f :: l ->
       phandle_node root lops_root name = Some f) /\
    (forall f l, nodes root name = [] -> lnodes root name = [] ->
       nodes lops_root name = f :: l -> phandle_node root lops_root name = Some f) /\
    (forall f l, nodes root name = [] -> lnodes root name = [] ->
       nodes lops_root name = [] -> lnodes lops_root name = f :: l ->
       phandle_node root lops_root name = Some f) /\
    (* the value *)
    (phandle_node root lops_root name = None -> value = [VInt 0]) /\
    (forall f, phandle_node root lops_root name = Some f -> field = "" ->
       value = [VInt (n_phandle (nr_node f))]) /\
    (forall f p, phandle_node root lops_root name = Some f -> field <> "" ->
       nref_prop f field = Some p -> value = p_value p) /\
    (forall f, phandle_node root lops_root name = Some f -> field <> "" ->
       nref_prop f field = None -> value = [VInt (n_phandle (nr_node f))]) /\
    (* the assignment *)
    (forall q, data_at root' q
       = props_changed (assign_targets root selected modify_path)
           (set_prop modify_prop value) q <$> data_at root q) /\
    (forall ps other, find_prop other (set_prop modify_prop value ps)
       = if String.eqb other modify_prop
         then Some {| p_name := modify_prop; p_value := value |}
         else find_prop other ps).
Proof.
  intros Hparse Hprop Hval Hamp name field value.
  pose proof (parse_modify_nonempty _ _ Hparse) as Hm.
  exists (modify_assign root lops_root selected modify_path modify_prop modify_val).
  assert (Hvalue : modify_value root lops_root modify_val = value).
  { unfold modify_value. by rewrite Hamp. }
  assert (Hhead : forall f,
    phandle_node root lops_root name = Some f ->
    exists l, phandle_nodes root lops_root name = f :: l).
  { unfold phandle_node. intros f Hf.
    destruct (phandle_nodes root lops_root name) as [|g l]; [done|].
    injection Hf as ->. by exists l. }
  split_and!.
  - unfold exec_modify. apply String.eqb_neq in Hm, Hprop, Hval.
    rewrite Hm, Hparse, Hprop, Hval. simpl.
    unfold modify_targets. destruct (String.eqb modify_path "") eqn:Hpath.
    + destruct selected; [|done].
      unfold modify_assign, assign_targets. by rewrite Hpath.
    + by destruct (tree_lookup root modify_path).
  - intros f l Hn. unfold phandle_node, phandle_nodes. simpl. by rewrite Hn.
  - intros f l Hn Hl. unfold phandle_node, phandle_nodes. simpl. by rewrite Hn, Hl.
  - intros f l Hn Hl Hn2. unfold phandle_node, phandle_nodes. simpl. by rewrite Hn, Hl, Hn2.
  - intros f l Hn Hl Hn2 Hl2. unfold phandle_node, phandle_nodes. simpl.
    by rewrite Hn, Hl, Hn2, Hl2.
  - unfold phandle_node. intros Hnone. subst value. unfold phandle_value.
    fold (ref_name modify_val). fold name.
    by destruct (phandle_nodes root lops_root name).
  - intros f Hf Hfield. destruct (Hhead f Hf) as [l Hl].
    subst value. unfold phandle_value. fold (ref_name modify_val). fold name.
    fold (ref_field modify_val). fold field. by rewrite Hl, Hfield.
  - intros f p Hf Hfield Hp. destruct (Hhead f Hf) as [l Hl].
    subst value. unfold phandle_value. fold (ref_name modify_val). fold name.
    fold (ref_field modify_val). fold field. apply String.eqb_neq in Hfield.
    by rewrite Hl, Hfield, Hp.
  - intros f Hf Hfield Hp. destruct (Hhead f Hf) as [l Hl].
    subst value. unfold phandle_value. fold (ref_name modify_val). fold name.
    fold (ref_field modify_val). fold field. apply String.eqb_neq in Hfield.
    by rewrite Hl, Hfield, Hp.
  - intros q. unfold modify_assign. rewrite Hvalue.
    apply data_at_fold_props. intros ps. apply set_prop_idem.
  - intros ps other. apply find_prop_set_prop.
Qed.

(** The node labelled [cpu0] has phandle 7: [modify = "/chosen:cpu:&cpu0"]
    leaves [/chosen] with [cpu = [7]]. *)
Lemma modify_phandle_substitution_witness :
  exists root',
    @exec_modify mini_externals ex_sdt_tree ex_no_lops [] "/chosen:cpu:&cpu0" = PyOk root' /\
    map abs_path (@nodes mini_externals ex_sdt_tree "cpu0") = [] /\
    map abs_path (@lnodes mini_externals ex_sdt_tree "cpu0") = ["/cpus/cpu@0"] /\
    (props_at_path root' "/chosen" ≫= find_prop "cpu") = Some (prop "cpu" [VInt 7]).
Proof.
  destruct (@modify_phandle_substitution mini_externals ex_sdt_tree ex_no_lops []
              "/chosen:cpu:&cpu0" "/chosen" "cpu" "&cpu0" eq_refl)
    as (root' & Hexec & _); [discriminate|discriminate|reflexivity|].
  exists root'. split; [exact Hexec|].
  vm_compute in Hexec. injection Hexec as <-. split_and!; reflexivity.
Defined.

(** C3 as stated fails: [/cpus/cpu0] (phandle 3) is found by its path
    before the node labelled [cpu0] (phandle 7) is looked for, and [/chosen]
    gets [cpu = [3]]. *)
Lemma modify_phandle_resolves_path_first :
  exists root',
    @exec_modify mini_externals ex_two_cpu0 ex_no_lops [] "/chosen:cpu:&cpu0" = PyOk root' /\
    (props_at_path root' "/chosen" ≫= find_prop "cpu") = Some (prop "cpu" [VInt 3]) /\
    (abs_path <$> @claim_phandle_node mini_externals ex_two_cpu0 ex_no_lops "cpu0")
      = Some "/cpus/cpu@1" /\
    ((fun f => n_phandle (nr_node f))
       <$> @claim_phandle_node mini_externals ex_two_cpu0 ex_no_lops "cpu0") = Some 7 /\
    (abs_path <$> @phandle_node mini_externals ex_two_cpu0 ex_no_lops "cpu0")
      = Some "/cpus/cpu0".
Proof. eexists. split_and!; reflexivity. Qed.

(** C6, at the failing input.  The rename of the specification,
    [modify = "/amba/uart@0::/amba/serial0"]: every slash is taken out of
    the whole value, and the node is named [ambaserial0]; nothing is at
    [/amba/serial0], the properties are kept.  A node directly below the
    root is renamed as asked. *)
Example modify_rename_below_root_only :
  (exists root',
     @exec_modify mini_externals ex_amba ex_no_lops [] "/amba/uart@0::/amba/serial0"
       = PyOk root' /\
     tree_paths root' = ["/"; "/amba"; "/amba/gpio"; "/amba/ambaserial0"; "/cpus"] /\
     tree_lookup root' "/amba/serial0" = None /\
     props_at_path root' "/amba/ambaserial0" = props_at_path ex_amba "/amba/uart@0") /\
  (exists root',
     @exec_modify mini_externals ex_amba ex_no_lops [] "/cpus::/cpus_a72/" = PyOk root' /\
     tree_paths root' = ["/"; "/amba"; "/amba/gpio"; "/amba/uart@0"; "/cpus_a72"]).
Proof. split; eexists; split_and!; reflexivity. Qed.

(** * Further properties *)

(** ** Strings split at a separator *)

Lemma split_nonempty c s : PyStr.split c s <> [].
Proof.
  destruct s as [|d s]; simpl; [done|].
  destruct (Ascii.eqb d c); [done|]. by destruct (PyStr.split c s).
Qed.

Lemma split_cons_other c d s :
  Ascii.eqb d c = false ->
  PyStr.split c (String d s)
    = String d (List.hd "" (PyStr.split c s)) :: List.tl (PyStr.split c s).
Proof.
  intros Hd. simpl. rewrite Hd.
  pose proof (split_nonempty c s). by destruct (PyStr.split c s).
Qed.

Lemma split_app_sep c a b :
  PyStr.split c (String.append a (String c b)) = PyStr.split c a ++ PyStr.split c b.
Proof.
  induction a as [|d a IH].
  - simpl. by rewrite Ascii.eqb_refl.
  - change (String.append (String d a) (String c b))
      with (String d (String.append a (String c b))).
    destruct (Ascii.eqb d c) eqn:Hd.
    + simpl. rewrite Hd. by rewrite IH.
    + rewrite !split_cons_other by done. rewrite IH.
      pose proof (split_nonempty c a). by destruct (PyStr.split c a).
Qed.

Lemma split_no_sep c s : PyStr.has_char c s = false -> PyStr.split c s = [s].
Proof.
  induction s as [|d s IH]; simpl; [done|].
  intros Hh. apply orb_false_iff in Hh as [Hd Hs].
  rewrite Ascii.eqb_sym in Hd. rewrite Hd, (IH Hs). done.
Qed.

Lemma split_parts_no_sep c s x : x ∈ PyStr.split c s -> PyStr.has_char c x = false.
Proof.
  revert x. induction s as [|d s IH]; intros x Hx.
  - simpl in Hx. apply list_elem_of_singleton in Hx. by subst.
  - destruct (Ascii.eqb d c) eqn:Hd.
    + simpl in Hx. rewrite Hd in Hx. apply elem_of_cons in Hx as [->|Hx]; [done|by apply IH].
    + rewrite split_cons_other in Hx by done.
      pose proof (split_nonempty c s) as Hne.
      destruct (PyStr.split c s) as [|h t]; [done|]. simpl in Hx.
      apply elem_of_cons in Hx as [->|Hx].
      * simpl. rewrite Ascii.eqb_sym, Hd. simpl. apply IH. by left.
      * apply IH. by right.
Qed.

Lemma endswith_app a p : PyStr.endswith (String.append a p) p = true.
Proof.
  induction a as [|d a IH].
  - change (String.append "" p) with p.
    destruct p as [|c p]; [reflexivity|].
    change (PyStr.endswith (String c p) (String c p))
      with (String.eqb (String c p) (String c p) || PyStr.endswith p (String c p)).
    by rewrite String.eqb_refl.
  - simpl. by rewrite IH, orb_true_r.
Qed.

Lemma append_assoc (a b c : string) :
  String.append (String.append a b) c = String.append a (String.append b c).
Proof.
  induction a as [|d a IH]; [reflexivity|].
  change (String d (String.append (String.append a b) c)
          = String d (String.append a (String.append b c))).
  by rewrite IH.
Qed.

Lemma append_empty_r (a : string) : String.append a "" = a.
Proof.
  induction a as [|d a IH]; [reflexivity|].
  change (String d (String.append a "") = String d a). by rewrite IH.
Qed.

Lemma split_length c s : length (PyStr.split c s) = S (PyStr.count c s).
Proof.
  induction s as [|d s IH]; [reflexivity|].
  destruct (Ascii.eqb d c) eqn:Hd.
  - simpl. rewrite Hd. simpl. by rewrite IH.
  - rewrite split_cons_other by done. simpl. rewrite Hd.
    pose proof (split_nonempty c s). destruct (PyStr.split c s); [done|].
    simpl in *. done.
Qed.

(** ** The runqueue: priorities outside 1..9 *)

Lemma empty_runqueue_keys z : is_Some (empty_runqueue !! z) -> 1 <= z <= 9.
Proof.
  intros Hs. destruct (decide (1 <= z <= 9)) as [|Hn]; [done|].
  exfalso. unfold empty_runqueue, priorities in Hs. simpl in Hs.
  rewrite !lookup_insert_ne in Hs by lia. rewrite lookup_empty in Hs.
  by destruct Hs.
Qed.

Lemma build_runqueue_invalid lops : forall rq,
  (forall z, is_Some (rq !! z) -> 1 <= z <= 9) ->
  (exists x, x ∈ lops /\ ~ valid_priority x) ->
  build_runqueue rq lops = PyRaise "KeyError".
Proof.
  induction lops as [|y r IH]; intros rq Hkeys (x & Hx & Hbad).
  - by apply elem_of_nil in Hx.
  - simpl. unfold enqueue.
    destruct (file_priority y) as [z|s] eqn:Hy; [|done].
    destruct (rq !! z) as [l|] eqn:Hz; [|done].
    apply IH.
    + intros z' Hz'. destruct (decide (z = z')) as [<-|Hne].
      * apply Hkeys. rewrite Hz. eauto.
      * rewrite lookup_insert_ne in Hz' by done. by apply Hkeys.
    + exists x. split; [|done].
      apply elem_of_cons in Hx as [->|Hx]; [|done].
      exfalso. apply Hbad. exists z. split; [done|]. apply Hkeys. rewrite Hz. eauto.
Qed.

(** X1. A lop file whose priority is no integer from 1 to 9 has no bucket
    in the runqueue: [perform_lops] raises [KeyError] while it sorts the
    files, before any lop of any file is executed. *)
Theorem perform_lops_invalid_priority {World : Type}
    (exec_lop : LopperFile -> nref -> World -> pyresult World)
    (target_domain : string) (lops : list LopperFile) (w : World) (x : LopperFile) :
  x ∈ effective_lops target_domain lops ->
  ~ valid_priority x ->
  perform_lops exec_lop target_domain lops w = ([], PyRaise "KeyError").
Proof.
  intros Hx Hbad. unfold perform_lops.
  rewrite (build_runqueue_invalid _ _ empty_runqueue_keys); [done|].
  by exists x.
Qed.

(** File A (priority 3) comes with a file of priority 10: nothing runs. *)
Lemma perform_lops_invalid_priority_witness :
  perform_lops (fun _ _ (w : unit) => PyOk w) ""
    [ex_file_a; {| lf_dts := "late.dts"; lf_tree := lop_root 10 [] |}] tt
  = ([], PyRaise "KeyError").
Proof.
  apply (perform_lops_invalid_priority _ "" _ tt
           {| lf_dts := "late.dts"; lf_tree := lop_root 10 [] |}).
  - right. left.
  - intros (z & Hz & Hr). vm_compute in Hz. injection Hz as <-. lia.
Defined.

(** ** What the runqueue executes *)

Lemma top_walk_elems fs : forall skip f,
  f ∈ top_walk fs skip -> f ∈ fs /\ is_lop f = true /\ has_noexec f = false.
Proof.
  induction fs as [|g r IH]; intros skip f Hf; simpl in Hf.
  - by apply elem_of_nil in Hf.
  - destruct (is_lop g) eqn:Hl; simpl in Hf.
    2:{ destruct (IH _ _ Hf) as (I1 & I2 & I3). split_and!; [by right|done|done]. }
    destruct (has_noexec g) eqn:Hn; simpl in Hf.
    { destruct (IH _ _ Hf) as (I1 & I2 & I3). split_and!; [by right|done|done]. }
    destruct (nref_in g (next_skip skip g)).
    { destruct (IH _ _ Hf) as (I1 & I2 & I3). split_and!; [by right|done|done]. }
    apply elem_of_cons in Hf as [->|Hf].
    + split_and!; [by left|done|done].
    + destruct (IH _ _ Hf) as (I1 & I2 & I3). split_and!; [by right|done|done].
Qed.

Lemma calls_of_sound xs c : c ∈ calls_of xs -> fst c ∈ xs /\ sound_call c.
Proof.
  unfold calls_of. intros Hc.
  apply list_elem_of_In, in_flat_map in Hc as (x & Hx & Hc).
  apply list_elem_of_In in Hx, Hc. apply list_elem_of_fmap in Hc as (f & -> & Hf).
  split; [done|]. by apply top_walk_elems in Hf.
Qed.

Section RunQueueSound.

Context {World : Type}.
Variable exec_lop : LopperFile -> nref -> World -> pyresult World.

Lemma run_bucket_sound xs w c :
  c ∈ fst (run_bucket exec_lop xs w) -> fst c ∈ xs /\ sound_call c.
Proof.
  intros Hc. apply calls_of_sound.
  destruct (run_bucket_calls exec_lop xs w) as [[k Hk] _]. rewrite Hk.
  apply elem_of_app. by left.
Qed.

Lemma run_queue_sound rq pris : forall w c,
  c ∈ fst (run_queue exec_lop rq pris w) ->
  (exists pri xs, rq !! pri = Some xs /\ fst c ∈ xs) /\ sound_call c.
Proof.
  induction pris as [|pri r IH]; intros w c Hc; simpl in Hc.
  - by apply elem_of_nil in Hc.
  - destruct (rq !! pri) as [xs|] eqn:Hq; [|by apply elem_of_nil in Hc].
    pose proof (run_bucket_sound xs w) as Hb.
    destruct (run_bucket exec_lop xs w) as [calls [w'|e|e]]; simpl in *.
    + pose proof (IH w') as Hr.
      destruct (run_queue exec_lop rq r w') as [calls' res]. simpl in *.
      apply elem_of_app in Hc as [Hc|Hc]; [|by apply Hr].
      destruct (Hb c Hc). split; [|done]. by exists pri, xs.
    + destruct (Hb c Hc). split; [|done]. by exists pri, xs.
    + destruct (Hb c Hc). split; [|done]. by exists pri, xs.
Qed.

End RunQueueSound.

Lemma build_runqueue_members lops : forall rq rq',
  build_runqueue rq lops = PyOk rq' ->
  forall pri xs x, rq' !! pri = Some xs -> x ∈ xs ->
    x ∈ lops \/ exists xs0, rq !! pri = Some xs0 /\ x ∈ xs0.
Proof.
  induction lops as [|y r IH]; intros rq rq' Hb pri xs x Hq Hx; simpl in Hb.
  - injection Hb as <-. right. by exists xs.
  - unfold enqueue in Hb. destruct (file_priority y) as [z|s]; [|discriminate].
    destruct (rq !! z) as [l|] eqn:Hz; [|discriminate].
    destruct (IH _ _ Hb pri xs x Hq Hx) as [Hin|(xs0 & H0 & Hx0)].
    + left. by right.
    + destruct (decide (z = pri)) as [->|Hne].
      * rewrite lookup_insert_eq in H0. injection H0 as <-.
        apply elem_of_app in Hx0 as [Hx0|Hx0].
        -- right. by exists l.
        -- apply list_elem_of_singleton in Hx0. subst. left. by left.
      * rewrite lookup_insert_ne in H0 by done. right. by exists xs0.
Qed.

Lemma empty_runqueue_empty pri xs : empty_runqueue !! pri = Some xs -> xs = [].
Proof.
  intros Hq. assert (Hk : 1 <= pri <= 9) by (apply empty_runqueue_keys; by rewrite Hq).
  rewrite empty_runqueue_lookup in Hq by done. by injection Hq as <-.
Qed.

(** X2. Whatever the lop files are and however the run ends, every call
    of [exec_lop] that [perform_lops] makes is for a file of [self.lops]
    (the generated file of a target domain included) and a node of that
    file's tree which is a lop and carries no [noexec] property. *)
Theorem perform_lops_calls_sound {World : Type}
    (exec_lop : LopperFile -> nref -> World -> pyresult World)
    (target_domain : string) (lops : list LopperFile) (w : World) :
  Forall (fun c => fst c ∈ effective_lops target_domain lops /\ sound_call c)
         (fst (perform_lops exec_lop target_domain lops w)).
Proof.
  apply Forall_forall. intros c Hc. unfold perform_lops in Hc.
  destruct (build_runqueue empty_runqueue (effective_lops target_domain lops))
    as [rq|e|e] eqn:Hb; simpl in Hc; try (by apply elem_of_nil in Hc).
  destruct (run_queue_sound exec_lop rq priorities w c Hc) as [(pri & xs & Hq & Hx) Hs].
  split; [|done].
  destruct (build_runqueue_members _ _ _ Hb pri xs (fst c) Hq Hx) as [Hin|(xs0 & H0 & Hx0)];
    [done|].
  apply empty_runqueue_empty in H0. subst. by apply elem_of_nil in Hx0.
Qed.

Section RunQueueFailure.

Context {World : Type}.
Variable exec_lop : LopperFile -> nref -> World -> pyresult World.

Lemma run_file_failure x fs : forall skip w,
  completes (snd (run_file exec_lop x fs skip w)) = false ->
  ended_in exec_lop (fst (run_file exec_lop x fs skip w)) (snd (run_file exec_lop x fs skip w)).
Proof.
  induction fs as [|f r IH]; intros skip w; simpl; [done|].
  destruct (negb (is_lop f)); [apply IH|].
  destruct (has_noexec f || nref_in f (next_skip skip f)); [apply IH|].
  destruct (exec_lop x f w) as [w1|e|c] eqn:He.
  - specialize (IH (next_skip skip f) w1).
    destruct (run_file exec_lop x r (next_skip skip f) w1) as [calls res]. simpl in *.
    intros Hc. destruct (IH Hc) as (init & y & g & w' & -> & Hg).
    by exists ((x, f) :: init), y, g, w'.
  - intros _. by exists [], x, f, w.
  - intros _. by exists [], x, f, w.
Qed.

Lemma ended_in_app calls calls' res :
  ended_in exec_lop calls' res -> ended_in exec_lop (calls ++ calls') res.
Proof.
  intros (init & y & g & w' & -> & Hg). exists (calls ++ init), y, g, w'.
  by rewrite app_assoc.
Qed.

Lemma run_bucket_failure xs : forall w,
  completes (snd (run_bucket exec_lop xs w)) = false ->
  ended_in exec_lop (fst (run_bucket exec_lop xs w)) (snd (run_bucket exec_lop xs w)).
Proof.
  induction xs as [|x r IH]; intros w; simpl; [done|].
  pose proof (run_file_failure x (preorder (lf_tree x)) [] w) as Hf.
  destruct (run_file exec_lop x (preorder (lf_tree x)) [] w) as [calls [w1|e|c]]; simpl in *.
  - specialize (IH w1). destruct (run_bucket exec_lop r w1) as [calls' res]. simpl in *.
    intros Hc. by apply ended_in_app, IH.
  - exact Hf.
  - exact Hf.
Qed.

Lemma run_queue_failure rq pris : forall w,
  (forall pri, pri ∈ pris -> is_Some (rq !! pri)) ->
  completes (snd (run_queue exec_lop rq pris w)) = false ->
  ended_in exec_lop (fst (run_queue exec_lop rq pris w)) (snd (run_queue exec_lop rq pris w)).
Proof.
  induction pris as [|pri r IH]; intros w Hk; simpl; [done|].
  destruct (Hk pri) as [xs ->]; [by left|].
  pose proof (run_bucket_failure xs w) as Hb.
  destruct (run_bucket exec_lop xs w) as [calls [w1|e|c]]; simpl in *.
  - assert (Hr : forall p, p ∈ r -> is_Some (rq !! p)) by (intros; apply Hk; by right).
    specialize (IH w1 Hr). destruct (run_queue exec_lop rq r w1) as [calls' res]. simpl in *.
    intros Hc. by apply ended_in_app, IH.
  - exact Hb.
  - exact Hb.
Qed.

End RunQueueFailure.

Lemma build_runqueue_keys lops : forall rq rq',
  build_runqueue rq lops = PyOk rq' ->
  forall pri, is_Some (rq !! pri) -> is_Some (rq' !! pri).
Proof.
  induction lops as [|y r IH]; intros rq rq' Hb pri Hs; simpl in Hb.
  - by injection Hb as <-.
  - unfold enqueue in Hb. destruct (file_priority y) as [z|s]; [|discriminate].
    destruct (rq !! z) as [l|] eqn:Hz; [|discriminate].
    apply (IH _ _ Hb). destruct (decide (z = pri)) as [->|Hne].
    + rewrite lookup_insert_eq. eauto.
    + by rewrite lookup_insert_ne.
Qed.

(** X3. Nothing in [perform_lops] catches what a lop raises: a run that
    does not complete either failed while the files were sorted by priority,
    before the first call, or it ended in its last call of [exec_lop], with
    the exception or the exit status of that call; no lop is executed after
    it. *)
Theorem perform_lops_ends_at_failure {World : Type}
    (exec_lop : LopperFile -> nref -> World -> pyresult World)
    (target_domain : string) (lops : list LopperFile) (w : World) :
  let run := perform_lops exec_lop target_domain lops w in
  completes (snd run) = false ->
  run = ([], PyRaise "KeyError") \/
  exists init x f w', fst run = init ++ [(x, f)] /\ exec_lop x f w' = snd run.
Proof.
  intros run. subst run. unfold perform_lops.
  destruct (build_runqueue empty_runqueue (effective_lops target_domain lops))
    as [rq|e|c] eqn:Hb.
  - intros Hc. right. apply (run_queue_failure exec_lop rq priorities w); [|done].
    intros pri Hp. apply (build_runqueue_keys _ _ _ Hb).
    rewrite empty_runqueue_lookup; [eauto|]. unfold priorities in Hp. set_solver by lia.
  - intros _. left. f_equal.
    assert (He : forall l rq0, build_runqueue rq0 l = PyRaise e -> e = "KeyError").
    { induction l as [|y r IH]; intros rq0 H0; simpl in H0; [discriminate|].
      unfold enqueue in H0. destruct (file_priority y) as [z|s]; [|by injection H0].
      destruct (rq0 !! z); [by apply (IH _ H0) | by injection H0]. }
    by rewrite (He _ _ Hb).
  - exfalso.
    assert (He : forall l rq0, build_runqueue rq0 l <> PyExit c).
    { induction l as [|y r IH]; intros rq0 H0; simpl in H0; [discriminate|].
      unfold enqueue in H0. destruct (file_priority y) as [z|s]; [|discriminate].
      destruct (rq0 !! z); [by apply (IH _ H0) | discriminate]. }
    by apply (He _ _ Hb).
Qed.

(** File B runs first and its lop raises: file A is not reached. *)
Lemma perform_lops_ends_at_failure_witness :
  let exec_lop := fun (x : LopperFile) (f : nref) (w : unit) =>
                    if String.eqb (lf_dts x) "b.dts" then PyRaise "IndexError" else PyOk w in
  let run := perform_lops exec_lop "" [ex_file_a; ex_file_b] tt in
  map (fun c => (lf_dts (fst c), abs_path (snd c))) (fst run) = [("b.dts", "/lops/lop_0")] /\
  (run = ([], PyRaise "KeyError") \/
   exists init x f w', fst run = init ++ [(x, f)] /\ exec_lop x f w' = snd run).
Proof.
  intros exec_lop run. split; [reflexivity|].
  apply (perform_lops_ends_at_failure exec_lop "" [ex_file_a; ex_file_b] tt).
  reflexivity.
Defined.

(** ** The matches of a [conditional] lop *)

Lemma nref_in_false f l :
  nref_in f l = false <-> forall g, g ∈ l -> nr_pos f <> nr_pos g.
Proof.
  rewrite <- not_true_iff_false, nref_in_spec. split.
  - intros Hn g Hg He. apply Hn. by exists g.
  - intros Hn (g & Hg & He). by apply (Hn g).
Qed.

Lemma nref_in_same_pos f g l : nr_pos f = nr_pos g -> nref_in f l = nref_in g l.
Proof.
  intros He. unfold nref_in, nref_eqb. induction l as [|h r IH]; simpl; [done|].
  by rewrite IH, He.
Qed.

Lemma nref_in_snoc f l g : nref_in f (l ++ [g]) = nref_in f l || nref_eqb f g.
Proof. rewrite nref_in_app. simpl. unfold nref_in at 2. simpl. by rewrite orb_false_r. Qed.

Lemma nref_eqb_false f g : nref_eqb f g = false <-> nr_pos f <> nr_pos g.
Proof. unfold nref_eqb. apply bool_decide_eq_false. Qed.

Lemma nref_remove_sublist g l : nref_remove g l `sublist_of` l.
Proof.
  induction l as [|h r IH]; simpl; [done|].
  destruct (nref_eqb g h); [by apply sublist_cons | by apply sublist_skip].
Qed.

Lemma nref_remove_nodup g l :
  NoDup (map nr_pos l) -> NoDup (map nr_pos (nref_remove g l)).
Proof.
  intros Hnd. eapply sublist_NoDup; [exact Hnd|].
  apply (fmap_sublist nr_pos), nref_remove_sublist.
Qed.

Lemma nref_in_remove_self g l :
  NoDup (map nr_pos l) -> nref_in g (nref_remove g l) = false.
Proof.
  induction l as [|h r IH]; intros Hnd; simpl; [done|].
  simpl in Hnd. apply NoDup_cons in Hnd as [Hh Hr].
  destruct (nref_eqb g h) eqn:Hg.
  - apply nref_eqb_eq in Hg. apply nref_in_false. intros x Hx He.
    apply Hh. rewrite <- Hg, He. apply list_elem_of_fmap. by exists x.
  - unfold nref_in in *. simpl. rewrite Hg. simpl. by apply IH.
Qed.

Lemma nodup_snoc_pos l g :
  NoDup (map nr_pos l) -> nref_in g l = false -> NoDup (map nr_pos (l ++ [g])).
Proof.
  intros Hnd Hg. rewrite map_app. simpl. apply NoDup_app. split_and!.
  - exact Hnd.
  - intros p Hp Hp'. apply list_elem_of_fmap in Hp as (x & -> & Hx).
    apply list_elem_of_singleton in Hp'.
    rewrite nref_in_false in Hg. by apply (Hg x).
  - apply NoDup_singleton.
Qed.

Section CondMatch.

Context `{Externals}.

(** One check: where the target [g] stands afterwards is decided by the
    condition, every other node stays where it was. *)
Lemma cond_check_effect p st g t :
  NoDup (map nr_pos (fst st)) ->
  NoDup (map nr_pos (fst (cond_check p st g))) /\
  nref_in t (fst (cond_check p st g))
    = (if nref_eqb t g then satisfies g p else nref_in t (fst st)) /\
  nref_in t (snd (cond_check p st g))
    = nref_in t (snd st) || (nref_eqb t g && negb (satisfies g p)).
Proof.
  destruct st as [ms fs]. simpl. intros Hnd.
  assert (Hfail : satisfies g p = false ->
    let st' := ((if nref_in g ms then nref_remove g ms else ms),
                (if nref_in g fs then fs else fs ++ [g])) in
    NoDup (map nr_pos (fst st')) /\
    nref_in t (fst st') = (if nref_eqb t g then satisfies g p else nref_in t ms) /\
    nref_in t (snd st') = nref_in t fs || (nref_eqb t g && negb (satisfies g p))).
  { intros Hs. simpl. rewrite Hs. split_and!.
    - destruct (nref_in g ms); [by apply nref_remove_nodup | done].
    - destruct (nref_eqb t g) eqn:Ht.
      + apply nref_eqb_eq in Ht. rewrite (nref_in_same_pos t g _ Ht).
        destruct (nref_in g ms) eqn:Hin; [by apply nref_in_remove_self|].
        by rewrite <- (nref_in_same_pos t g _ Ht), (nref_in_same_pos t g _ Ht).
      + apply nref_eqb_false in Ht.
        destruct (nref_in g ms); [by apply nref_in_remove_other | done].
    - simpl. rewrite andb_true_r.
      destruct (nref_in g fs) eqn:Hin.
      + destruct (nref_eqb t g) eqn:Ht; [|by rewrite orb_false_r].
        apply nref_eqb_eq in Ht. by rewrite (nref_in_same_pos t g _ Ht), Hin.
      + by rewrite nref_in_snoc. }
  unfold cond_check. unfold satisfies in *.
  destruct (nref_prop g (cond_prop_name p)) as [tp|]; [|by apply Hfail].
  destruct (if cond_inverted p then negb (prop_compare p tp) else prop_compare p tp) eqn:Hc;
    [|by apply Hfail].
  simpl. split_and!.
  - destruct (nref_in g ms) eqn:Hin; [done | by apply nodup_snoc_pos].
  - destruct (nref_eqb t g) eqn:Ht.
    + apply nref_eqb_eq in Ht. rewrite (nref_in_same_pos t g _ Ht).
      destruct (nref_in g ms) eqn:Hin; [done|].
      rewrite nref_in_snoc. unfold nref_eqb. rewrite bool_decide_eq_true_2 by done.
      by rewrite orb_true_r.
    + destruct (nref_in g ms); [done|]. by rewrite nref_in_snoc, Ht, orb_false_r.
  - by rewrite andb_false_r, orb_false_r.
Qed.

Lemma cond_fold_nodup p l : forall st,
  NoDup (map nr_pos (fst st)) ->
  NoDup (map nr_pos (fst (fold_left (cond_check p) l st))).
Proof.
  induction l as [|g r IH]; intros st Hnd; simpl; [done|].
  apply IH. by apply (cond_check_effect p st g g).
Qed.

(** The checks of other targets leave a node where it was. *)
Lemma cond_fold_others p t l : forall st,
  NoDup (map nr_pos (fst st)) ->
  (forall g, g ∈ l -> nr_pos t <> nr_pos g) ->
  nref_in t (fst (fold_left (cond_check p) l st)) = nref_in t (fst st) /\
  nref_in t (snd (fold_left (cond_check p) l st)) = nref_in t (snd st).
Proof.
  induction l as [|g r IH]; intros st Hnd Hne; simpl; [done|].
  destruct (cond_check_effect p st g t Hnd) as (N & F & S).
  assert (Hg : nref_eqb t g = false) by (apply nref_eqb_false, Hne; by left).
  rewrite Hg in F, S. simpl in S. rewrite orb_false_r in S.
  destruct (IH (cond_check p st g) N) as [IF IS].
  { intros g' Hg'. apply Hne. by right. }
  by rewrite IF, IS, F, S.
Qed.

(** One condition over all targets. *)
Lemma cond_fold_target p t l st :
  NoDup (map nr_pos (fst st)) ->
  NoDup (map nr_pos l) -> t ∈ l ->
  nref_in t (fst (fold_left (cond_check p) l st)) = satisfies t p /\
  nref_in t (snd (fold_left (cond_check p) l st))
    = nref_in t (snd st) || negb (satisfies t p).
Proof.
  intros Hnd Hl Hin.
  apply list_elem_of_split in Hin as (l1 & l2 & ->).
  rewrite map_app in Hl. simpl in Hl.
  apply NoDup_app in Hl as (_ & H1 & H2). apply NoDup_cons in H2 as [H2 _].
  rewrite fold_left_app. simpl.
  destruct (cond_fold_others p t l1 st Hnd) as [A1 A2].
  { intros g Hg He. apply (H1 (nr_pos g)).
    - apply list_elem_of_fmap. by exists g.
    - rewrite He. by left. }
  pose proof (cond_fold_nodup p l1 st Hnd) as N1.
  destruct (cond_check_effect p (fold_left (cond_check p) l1 st) t t N1) as (N2 & B1 & B2).
  destruct (cond_fold_others p t l2 _ N2) as [C1 C2].
  { intros g Hg He. apply H2. rewrite He. apply list_elem_of_fmap. by exists g. }
  assert (Ht : nref_eqb t t = true) by (by apply nref_eqb_eq).
  rewrite Ht in B1, B2. simpl in B2.
  by rewrite C1, C2, B1, B2, A2.
Qed.

Lemma cond_props_nodup tgts conds : forall st,
  NoDup (map nr_pos (fst st)) ->
  NoDup (map nr_pos
    (fst (fold_left (fun st p => fold_left (cond_check p) tgts st) conds st))).
Proof.
  induction conds as [|p r IH]; intros st Hnd; simpl; [done|].
  apply IH. by apply cond_fold_nodup.
Qed.

Lemma cond_props_false t tgts conds : forall st,
  NoDup (map nr_pos (fst st)) ->
  NoDup (map nr_pos tgts) -> t ∈ tgts ->
  nref_in t (snd (fold_left (fun st p => fold_left (cond_check p) tgts st) conds st))
    = nref_in t (snd st) || negb (forallb (satisfies t) conds).
Proof.
  induction conds as [|p r IH]; intros st Hnd Hl Hin; simpl.
  - by rewrite orb_false_r.
  - rewrite IH by (try apply cond_fold_nodup; done).
    destruct (cond_fold_target p t tgts st Hnd Hl Hin) as [_ ->].
    rewrite <- orb_assoc. f_equal. by destruct (satisfies t p).
Qed.

Lemma cond_props_others t tgts conds : forall st,
  NoDup (map nr_pos (fst st)) ->
  (forall g, g ∈ tgts -> nr_pos t <> nr_pos g) ->
  nref_in t (fst (fold_left (fun st p => fold_left (cond_check p) tgts st) conds st))
    = nref_in t (fst st) /\
  nref_in t (snd (fold_left (fun st p => fold_left (cond_check p) tgts st) conds st))
    = nref_in t (snd st).
Proof.
  induction conds as [|p r IH]; intros st Hnd Hne; simpl; [done|].
  destruct (IH (fold_left (cond_check p) tgts st)) as [I1 I2];
    [by apply cond_fold_nodup | done |].
  destruct (cond_fold_others p t tgts st Hnd Hne) as [A1 A2].
  by rewrite I1, I2, A1, A2.
Qed.

End CondMatch.

(** X4. The matches of a conditional lop, for targets that are distinct
    nodes and conditions [conds] followed by a last condition [p]: a target
    is a true match exactly when it passes the last condition [p], whatever
    the earlier conditions said; it is a false match exactly when it fails
    one of the conditions.  A node that is no target is in neither list. *)
Theorem cond_match_last_condition `{Externals} (conds : list LopperProp) (p : LopperProp)
    (sdt_tgt_nodes : list nref) :
  NoDup (map nr_pos sdt_tgt_nodes) ->
  let found := cond_match (conds ++ [p]) sdt_tgt_nodes in
  (forall t, t ∈ sdt_tgt_nodes ->
     nref_in t (fst found) = satisfies t p /\
     nref_in t (snd found) = negb (forallb (satisfies t) (conds ++ [p]))) /\
  (forall t, (forall g, g ∈ sdt_tgt_nodes -> nr_pos t <> nr_pos g) ->
     nref_in t (fst found) = false /\ nref_in t (snd found) = false).
Proof.
  intros Hl found. subst found. unfold cond_match.
  assert (H0 : NoDup (map nr_pos (fst (([], []) : list nref * list nref))))
    by apply NoDup_nil_2.
  split.
  - intros t Hin. split.
    + rewrite fold_left_app. simpl.
      apply cond_fold_target; [|done|done]. by apply cond_props_nodup.
    + by rewrite cond_props_false.
  - intros t Hne. by apply cond_props_others.
Qed.

(** The two cpus against [status = "okay"] after [status = "disabled"]:
    [cpu@0] passes the last condition and is a true match, and it is a false
    match as well, for the first condition. *)
Lemma cond_match_last_condition_witness :
  let tgts := @nodes mini_externals ex_sdt_tree "/cpus/cpu@.*" in
  let found := @cond_match mini_externals
                 [prop "status" [VStr "disabled"]; prop "status" [VStr "okay"]] tgts in
  map abs_path tgts = ["/cpus/cpu@0"; "/cpus/cpu@1"] /\
  (forall t, t ∈ tgts ->
     nref_in t (fst found) = @satisfies mini_externals t (prop "status" [VStr "okay"]) /\
     nref_in t (snd found)
       = negb (forallb (@satisfies mini_externals t)
                 [prop "status" [VStr "disabled"]; prop "status" [VStr "okay"]])) /\
  map abs_path (fst found) = ["/cpus/cpu@0"] /\
  map abs_path (snd found) = ["/cpus/cpu@0"; "/cpus/cpu@1"].
Proof.
  intros tgts found. split; [reflexivity|]. split; [|split; reflexivity].
  apply (@cond_match_last_condition mini_externals
           [prop "status" [VStr "disabled"]] (prop "status" [VStr "okay"]) tgts).
  vm_compute. repeat constructor; set_solver.
Defined.

(** ** The selection of a [select] lop *)

(** X5. The nodes a [select] lop selects are nodes of the tree: when the
    selection it starts from holds nodes of the tree only, so does the
    selection it leaves (for the selectors of [select_spec]). *)
Theorem exec_select_within `{Externals} (root : LopperNode) (selected : list nref)
    (select_props : list (list string)) :
  within root selected ->
  forallb plain_value select_props = true ->
  within root (exec_select root selected select_props).
Proof.
  intros Hw Hpl. unfold exec_select.
  pose proof (select_props_sim root select_props _ _ _ _ (select_init_inv root selected Hw) Hpl)
    as Hsim.
  destruct (fold_left (select_prop root) select_props (select_init selected)) as [h v].
  destruct Hsim as (_ & Hr & _ & _ & _ & _ & _ & _ & Wr & _). by rewrite Hr.
Qed.

(** [/a/.*:foo:1] on the tree of the selectors, [/b/x] selected before. *)
Lemma exec_select_within_witness :
  within ex_abc
    (@exec_select mini_externals ex_abc (@nodes mini_externals ex_abc "/b/x")
       [["/a/.*:foo:1"]]).
Proof.
  apply (@exec_select_within mini_externals ex_abc (@nodes mini_externals ex_abc "/b/x")
           [["/a/.*:foo:1"]]).
  - apply (@within_nodes mini_externals).
  - reflexivity.
Defined.

(** X6. The clearing value [select_1 = ""] in front makes a [select] lop
    forget what earlier lops selected: the lop selects what it would select
    on a tree without selection. *)
Theorem exec_select_after_clear `{Externals} (root : LopperNode) (selected : list nref)
    (select_props : list (list string)) :
  within root selected ->
  forallb plain_value select_props = true ->
  exec_select root selected ([""] :: select_props) = exec_select root [] select_props.
Proof.
  intros Hw Hpl.
  rewrite (exec_select_spec root selected) by done.
  rewrite (exec_select_spec root []) by (try apply within_nil; done).
  reflexivity.
Qed.

(** With [/b/x] selected before, [select_1 = ""; select_2 = ":bar:"]
    selects nothing; without the clearing value [:bar:] keeps [/b/x]. *)
Lemma exec_select_after_clear_witness :
  let selected := @nodes mini_externals ex_abc "/b/x" in
  @exec_select mini_externals ex_abc selected [[""]; [":bar:"]]
    = @exec_select mini_externals ex_abc [] [[":bar:"]] /\
  @exec_select mini_externals ex_abc selected [[""]; [":bar:"]] = [] /\
  map abs_path (@exec_select mini_externals ex_abc selected [[":bar:"]]) = ["/b/x"].
Proof.
  intros selected. split; [|split; reflexivity].
  apply (@exec_select_after_clear mini_externals ex_abc selected [[":bar:"]]).
  - apply (@within_nodes mini_externals).
  - reflexivity.
Defined.

(** ** The fields of a [modify] string *)

(** X7. A [modify] string with fewer than two colons has no third field:
    the handler raises [IndexError], and it raises it for no other string.
    (The empty string is no modify at all.) *)
Theorem exec_modify_index_error `{Externals} (root lops_root : LopperNode)
    (selected : list nref) (modify : string) :
  modify <> "" ->
  (exec_modify root lops_root selected modify = PyRaise "IndexError"
   <-> (PyStr.count ":"%char modify < 2)%nat).
Proof.
  intros Hm. unfold exec_modify. apply String.eqb_neq in Hm. rewrite Hm.
  unfold parse_modify. pose proof (split_length ":"%char modify) as Hl.
  destruct (PyStr.split ":"%char modify) as [|a [|b [|c r]]]; simpl in Hl.
  - discriminate.
  - split; [lia|done].
  - split; [lia|done].
  - split; [|lia]. intros Hr. exfalso.
    destruct (modify_targets root selected a) as [nodes_|]; [|discriminate].
    destruct (negb (String.eqb b "")).
    + destruct (String.eqb c ""); discriminate.
    + destruct nodes_ as [|node rest]; [discriminate|].
      destruct (negb (String.eqb c "")); [|discriminate].
      unfold modify_node in Hr.
      destruct (negb (pp_eqb _ _)).
      * destruct (tree_add root c (nr_node node)); [|discriminate].
        destruct (negb (String.eqb _ _)); [|discriminate].
        destruct (tree_lookup _ _); discriminate.
      * destruct (negb (String.eqb _ _)); [|discriminate].
        destruct (tree_lookup _ _); [|discriminate].
        destruct (pos_after_delete _ _); discriminate.
Qed.

(** [/chosen:bootargs] has one colon. *)
Lemma exec_modify_index_error_witness :
  @exec_modify mini_externals ex_chosen ex_no_lops [] "/chosen:bootargs"
    = PyRaise "IndexError"
  <-> (PyStr.count ":"%char "/chosen:bootargs" < 2)%nat.
Proof.
  apply (@exec_modify_index_error mini_externals ex_chosen ex_no_lops [] "/chosen:bootargs").
  discriminate.
Defined.

(** ** The nodes of an [output] or [tree] lop *)

Section GatherFacts.

Context `{Externals}.
Variable propval : nref -> string -> list pyval.

Lemma within_lnodes root regex : within root (lnodes root regex).
Proof. unfold lnodes. intros x [_ Hx]%list_elem_of_filter. exact Hx. Qed.

Lemma gather_node_inv root name val out o :
  o ∈ preorder root ->
  NoDup (map nr_pos out) /\ within root out ->
  NoDup (map nr_pos (gather_node propval name val out o)) /\
  within root (gather_node propval name val out o).
Proof.
  intros Ho [Hnd Hw].
  assert (Hadd : NoDup (map nr_pos (if nref_in o out then out else out ++ [o])) /\
                 within root (if nref_in o out then out else out ++ [o])).
  { destruct (nref_in o out) eqn:Hin; [done|]. split.
    - by apply nodup_snoc_pos.
    - apply within_app; [done|]. intros x Hx. apply list_elem_of_singleton in Hx. by subst. }
  unfold gather_node.
  destruct (negb (String.eqb name "")); [|exact Hadd].
  destruct (negb (String.eqb val "")); [|done].
  destruct (value_truthy (propval o name)); [|done].
  destruct (existsb (pyval_eqb (VStr val)) (propval o name)); [exact Hadd|done].
Qed.

Lemma gather_fold_inv root name val l : forall out,
  within root l ->
  NoDup (map nr_pos out) /\ within root out ->
  NoDup (map nr_pos (fold_left (gather_node propval name val) l out)) /\
  within root (fold_left (gather_node propval name val) l out).
Proof.
  induction l as [|o r IH]; intros out Hl Hinv; simpl; [done|].
  apply IH.
  - intros x Hx. apply Hl. by right.
  - apply gather_node_inv; [|done]. apply Hl. by left.
Qed.

Lemma gather_regex_inv root out regex :
  NoDup (map nr_pos out) /\ within root out ->
  NoDup (map nr_pos (gather_regex propval root out regex)) /\
  within root (gather_regex propval root out regex).
Proof.
  intros Hinv. unfold gather_regex.
  destruct (split_node regex) as [[r name] val].
  apply gather_fold_inv; [|done].
  destruct (nodes root _) eqn:Hn.
  - apply within_lnodes.
  - rewrite <- Hn. apply within_nodes.
Qed.

Lemma gather_nodes_inv root output_regex : forall out l,
  NoDup (map nr_pos out) /\ within root out ->
  gather_nodes propval root output_regex out = PyOk l ->
  NoDup (map nr_pos l) /\ within root l.
Proof.
  induction output_regex as [|[z|regex] r IH]; intros out l Hinv Hg; simpl in Hg.
  - by injection Hg as <-.
  - discriminate.
  - eapply IH; [|exact Hg]. by apply gather_regex_inv.
Qed.

Lemma gather_fold_no_value name l : forall out,
  name <> "" -> fold_left (gather_node propval name "") l out = out.
Proof.
  intros out Hn. induction l as [|o r IH]; simpl; [done|].
  unfold gather_node at 2. apply String.eqb_neq in Hn. rewrite Hn. simpl. exact IH.
Qed.

End GatherFacts.

(** X8. The nodes an [output] or [tree] lop gathers for its [nodes] entries
    are nodes of the tree it looks in, and no node is gathered twice,
    however many entries match it. *)
Theorem gather_nodes_distinct `{Externals} (propval : nref -> string -> list pyval)
    (root : LopperNode) (output_regex : list pyval) (output_nodes : list nref) :
  gather_nodes propval root output_regex [] = PyOk output_nodes ->
  NoDup (map nr_pos output_nodes) /\ within root output_nodes.
Proof.
  apply gather_nodes_inv. split; [apply NoDup_nil_2 | apply within_nil].
Qed.

(** [/a/.*] and [/a/b] on the tree of the selectors: [/a/b] is gathered
    once. *)
Lemma gather_nodes_distinct_witness :
  let l := [@nodes mini_externals ex_abc "/a/b"; @nodes mini_externals ex_abc "/a/c"] in
  @gather_nodes mini_externals ex_propval ex_abc [VStr "/a/.*"; VStr "/a/b"] []
    = PyOk (concat l) /\
  map abs_path (concat l) = ["/a/b"; "/a/c"] /\
  NoDup (map nr_pos (concat l)) /\ within ex_abc (concat l).
Proof.
  intros l. split; [reflexivity|]. split; [reflexivity|].
  apply (@gather_nodes_distinct mini_externals ex_propval ex_abc
           [VStr "/a/.*"; VStr "/a/b"]).
  reflexivity.
Defined.

(** X9. An entry of [nodes] that names a property and gives no value, as in
    [REGEX:PROP], adds no node: the nodes its regex matches are tested for
    the property only under [if o_prop_val], and without it nothing is
    appended. *)
Theorem gather_regex_without_value `{Externals} (propval : nref -> string -> list pyval)
    (root : LopperNode) (output_nodes : list nref)
    (regex o_node_regex o_prop_name : string) :
  split_node regex = (o_node_regex, o_prop_name, "") ->
  o_prop_name <> "" ->
  gather_regex propval root output_nodes regex = output_nodes.
Proof.
  intros Hs Hn. unfold gather_regex. rewrite Hs. by apply gather_fold_no_value.
Qed.

(** [/a/.*:foo] gathers nothing, though [/a/b] has [foo]; [/a/.*:foo:1]
    gathers no node either, the value of [foo] being the number 1 and the
    one asked for the string; [/a/.*] gathers both nodes. *)
Lemma gather_regex_without_value_witness :
  @gather_regex mini_externals ex_propval ex_abc [] "/a/.*:foo" = [] /\
  map abs_path (@gather_regex mini_externals ex_propval ex_abc [] "/a/.*") = ["/a/b"; "/a/c"].
Proof.
  split; [|reflexivity].
  apply (@gather_regex_without_value mini_externals ex_propval ex_abc [] "/a/.*:foo" "/a/.*" "foo").
  - reflexivity.
  - discriminate.
Defined.

(** X10. A lop without [nodes] property falls back on the tree's selection,
    and the fallback is lost: the tree is built under [if output_regex]
    only.  An [output] lop without [nodes] asks for no write; a [tree] lop
    without [nodes] adds no subtree, and with a selection at hand it ends
    the process. *)
Theorem lops_without_nodes `{Externals} (propval : nref -> string -> list pyval)
    (main : LopperTree) (subtrees : gmap string LopperTree)
    (outdir : string) (dryrun enhanced : bool) (lop_node : nref) :
  nref_prop lop_node "nodes" = None ->
  fst (exec_output propval main subtrees outdir dryrun enhanced lop_node) = None /\
  fst (exec_tree propval main lop_node) = None /\
  (forall p v r, nref_prop lop_node "tree" = Some p -> p_value p = v :: r ->
     t_selected main <> [] ->
     snd (exec_tree propval main lop_node) = PyExit 1).
Proof.
  intros Hn. unfold exec_output, exec_tree, nodes_prop. rewrite Hn. split_and!.
  - destruct (nref_prop lop_node "outfile") as [p|]; [|done].
    destruct (p_value p) as [|name r]; [done|].
    by destruct (t_selected (lop_tree main subtrees lop_node)).
  - destruct (nref_prop lop_node "tree") as [p|]; [|done].
    destruct (p_value p) as [|name r]; [done|].
    by destruct (t_selected main).
  - intros p v r -> -> Hs. by destruct (t_selected main).
Qed.

(** With every node of the tree selected and no [nodes] in the lop, the
    [output] handler writes nothing and the [tree] handler ends the
    process. *)
Lemma lops_without_nodes_witness :
  fst (@exec_output mini_externals ex_propval ex_chosen_selected ∅ "./" false false ex_tree_lop)
    = None /\
  fst (@exec_tree mini_externals ex_propval ex_chosen_selected ex_tree_lop) = None /\
  snd (@exec_tree mini_externals ex_propval ex_chosen_selected ex_tree_lop) = PyExit 1.
Proof.
  destruct (@lops_without_nodes mini_externals ex_propval ex_chosen_selected ∅ "./" false false
              ex_tree_lop eq_refl) as (Hout & Htree & Hexit).
  split_and!; [exact Hout | exact Htree |].
  apply (Hexit (prop "tree" [VStr "chosen-only"]) (VStr "chosen-only") []).
  - reflexivity.
  - reflexivity.
  - discriminate.
Defined.

(** ** Writing with assists: errors and existing files *)

(** X11. Under [werror] the first callable that raises ends the write: the
    callables before it and the one that raised were called, in order; the
    ones after it are not called, and the process ends with status 1. *)
Theorem write_assists_stops_at_raise (sdt : LopperSDT) (cb_run : Callable -> cb_outcome)
    (fn : string) (before after : list Callable) (cb : Callable) :
  werror sdt = true ->
  Forall (fun c => cb_run c <> CbRaise) before ->
  cb_run cb = CbRaise ->
  assist_calls (fst (write_assists sdt cb_run fn (before ++ cb :: after)))
    = map (fun c => (c, fn, verbose sdt)) (before ++ [cb]) /\
  snd (write_assists sdt cb_run fn (before ++ cb :: after)) = PyExit 1.
Proof.
  intros Hw Hb Hcb. induction Hb as [|c r Hc Hr IH]; simpl.
  - by rewrite Hcb, Hw.
  - destruct (write_assists sdt cb_run fn (r ++ cb :: after)) as [ev res]. simpl in IH.
    destruct IH as [IH1 IH2]. destruct (cb_run c) as [[|]|]; [| |done]; simpl.
    + by rewrite IH1, IH2.
    + by rewrite IH1, IH2.
Qed.

(** [first] returns, [second] raises, [third] is never called. *)
Lemma write_assists_stops_at_raise_witness :
  let sdt := {| assists := []; verbose := 0; werror := true; output_file := "" |} in
  let cb_run := fun cb => if String.eqb cb "second" then CbRaise else CbReturn true in
  assist_calls (fst (write_assists sdt cb_run "out.cdo" ["first"; "second"; "third"]))
    = [("first", "out.cdo", 0); ("second", "out.cdo", 0)] /\
  snd (write_assists sdt cb_run "out.cdo" ["first"; "second"; "third"]) = PyExit 1.
Proof.
  intros sdt cb_run.
  apply (write_assists_stops_at_raise sdt cb_run "out.cdo" ["first"] ["third"] "second").
  - reflexivity.
  - repeat constructor. discriminate.
  - reflexivity.
Defined.

(** X12. A file that exists is not replaced by [write] itself when
    [overwrite] is false: the tree printer and the YAML writer are not
    called on it (the write ends the process instead), and the flattened
    tree writer is called with [overwrite] false.  Only an assist is handed
    the name without a check. *)
Theorem write_keeps_existing (sdt : LopperSDT) (file_exists : string -> bool)
    (cb_run : Callable -> cb_outcome) (output_filename : string) (enhanced : bool) :
  file_exists (effective_filename sdt output_filename) = true ->
  Forall keeps_existing (fst (write sdt file_exists cb_run output_filename false enhanced)).
Proof.
  intros He. unfold write. rewrite He. simpl.
  destruct (String.eqb (effective_filename sdt output_filename) ""); [constructor|].
  destruct (PyStr.search_any_then "dtb" _); [by repeat constructor|].
  destruct (PyStr.search_any_then "dts" _).
  { destruct enhanced; by repeat constructor. }
  destruct (PyStr.search_any_then "yaml" _); [constructor|].
  destruct (find_compatible_assist _ _ _ _) as [[|cb cbs]|e|c]; try constructor.
  - destruct (werror sdt); constructor.
  - eapply Forall_impl; [apply (write_assists_events sdt cb_run _ (cb :: cbs))|].
    intros [] Hev; simpl in *; done.
Qed.

(** [out.yaml] exists: nothing is written, the process ends. *)
Lemma write_keeps_existing_witness :
  Forall keeps_existing
    (fst (write ex_sdt_two (fun _ => true) ex_cb_run "out.yaml" false false)) /\
  write ex_sdt_two (fun _ => true) ex_cb_run "out.yaml" false false = ([], PyExit 1) /\
  write ex_sdt_two (fun _ => true) ex_cb_run "out.dtb" false false
    = ([EvWriteFdt "out.dtb" false], PyOk tt).
Proof.
  split; [|split; reflexivity].
  apply (write_keeps_existing ex_sdt_two (fun _ => true) ex_cb_run "out.yaml" false).
  reflexivity.
Defined.

(** ** The assist lookup without surprises *)

Lemma fca_loop_plain cb_node i assists : forall st,
  i <> "" -> cb_id st = i ->
  exists st',
    fca_loop cb_node "" st assists = PyOk st' /\
    cb_func st' = cb_func st
      ++ omap (fun a => a_module a ≫= fun m => is_compat m cb_node i) assists.
Proof.
  induction assists as [|a r IH]; intros st Hid Hst; simpl.
  - exists st. by rewrite app_nil_r.
  - unfold fca_step. destruct (a_module a) as [m|]; simpl.
    + rewrite Hst. apply String.eqb_neq in Hid as Hid'. rewrite Hid'.
      destruct (is_compat m cb_node i) as [c|]; simpl.
      * destruct (IH {| cb_func := cb_func st ++ [c]; cb_id := i;
                        cb_f := Some (Some c) |} Hid eq_refl) as (st' & H1 & H2).
        exists st'. split; [done|]. rewrite H2. simpl. by rewrite <- app_assoc.
      * destruct (IH {| cb_func := cb_func st; cb_id := i;
                        cb_f := Some None |} Hid eq_refl) as (st' & H1 & H2).
        exists st'. by split.
    + by apply IH.
Qed.

(** X13. Asked with an id and without mask, as the [assist-v1] lop asks,
    the lookup does not fail: it returns, in the order of registration, the
    callable of every assist whose loaded module answers [is_compat] for the
    node and that id with one.  Assists without module are passed over. *)
Theorem find_compatible_assist_by_id (assists : list LopperAssist) (cb_node : Z)
    (cb_id : string) :
  cb_id <> "" ->
  find_compatible_assist assists cb_node cb_id ""
    = PyOk (omap (fun a => a_module a ≫= fun m => is_compat m cb_node cb_id) assists).
Proof.
  intros Hid. unfold find_compatible_assist.
  destruct (fca_loop_plain cb_node cb_id assists (fca_init cb_id) Hid eq_refl)
    as (st' & -> & H2).
  by rewrite H2.
Qed.

(** The two assists of the example, asked for [openamp,domain-v1]. *)
Lemma find_compatible_assist_by_id_witness :
  find_compatible_assist (assists ex_sdt_two) 0 "openamp,domain-v1" ""
    = PyOk ["cdo_write"; "bm_write"].
Proof.
  apply (find_compatible_assist_by_id (assists ex_sdt_two) 0 "openamp,domain-v1").
  discriminate.
Defined.

Lemma fca_loop_same_but_id cb_node mask l l' :
  Forall2 same_but_id l l' ->
  forall st, cb_id st <> "" -> fca_loop cb_node mask st l = fca_loop cb_node mask st l'.
Proof.
  induction 1 as [|x y l l' [Hm Hk] Hl IH]; intros st Hid; simpl; [done|].
  assert (Hstep : fca_step cb_node mask st x = fca_step cb_node mask st y).
  { unfold fca_step. rewrite <- Hm, <- Hk.
    apply String.eqb_neq in Hid. by rewrite Hid. }
  rewrite <- Hstep. unfold fca_step.
  destruct (a_module x) as [m|]; [|by apply IH].
  apply String.eqb_neq in Hid as Hid'. rewrite Hid'.
  destruct (if mask_ok mask (prop_or_empty x "mask")
            then Some (is_compat m cb_node (cb_id st)) else cb_f st) as [[c|]|];
    [by apply IH|by apply IH|done].
Qed.

(** X14. Asked without id, as [write] asks, the lookup takes the id from
    the first assist that has a module, when that assist registered one,
    and keeps it: the call is the call with that id, and the ids that the
    assists after it registered are not read, the result being the same
    whatever they are. *)
Theorem find_compatible_assist_first_id (before after after' : list LopperAssist)
    (a : LopperAssist) (m : AssistModule) (cb_node : Z) (mask : string) :
  Forall (fun x => a_module x = None) before ->
  a_module a = Some m ->
  prop_or_empty a "id" <> "" ->
  Forall2 same_but_id after after' ->
  find_compatible_assist (before ++ a :: after) cb_node "" mask
    = find_compatible_assist (before ++ a :: after) cb_node (prop_or_empty a "id") mask /\
  find_compatible_assist (before ++ a :: after) cb_node "" mask
    = find_compatible_assist (before ++ a :: after') cb_node "" mask.
Proof.
  intros Hb Hm Hid Hafter. unfold find_compatible_assist.
  rewrite !fca_loop_app, !(fca_loop_no_module _ _ _ _ Hb). simpl.
  unfold fca_step. rewrite Hm. simpl.
  apply String.eqb_neq in Hid as Hid'. rewrite Hid'.
  split; [done|].
  destruct (if mask_ok mask (prop_or_empty a "mask")
            then Some (is_compat m cb_node (prop_or_empty a "id")) else None)
    as [[c|]|]; [| |done].
  - by rewrite (fca_loop_same_but_id cb_node mask after after' Hafter).
  - by rewrite (fca_loop_same_but_id cb_node mask after after' Hafter).
Qed.

(** Two assists that registered the ids [one] and [two]: asked without id,
    both are asked with [one], and the lookup returns the same when the
    second registered [other] instead. *)
Lemma find_compatible_assist_first_id_witness :
  let a1 := ex_assist_id "first.py" "one" in
  let a2 := ex_assist_id "second.py" "two" in
  let a2' := ex_assist_id "second.py" "other" in
  (find_compatible_assist ([] ++ a1 :: [a2]) 0 "" ""
     = find_compatible_assist ([] ++ a1 :: [a2]) 0 (prop_or_empty a1 "id") "" /\
   find_compatible_assist ([] ++ a1 :: [a2]) 0 "" ""
     = find_compatible_assist ([] ++ a1 :: [a2']) 0 "" "") /\
  find_compatible_assist [a1; a2] 0 "" "" = PyOk ["cb:one"; "cb:one"] /\
  find_compatible_assist [a2; a1] 0 "" "" = PyOk ["cb:two"; "cb:two"].
Proof.
  intros a1 a2 a2'. split; [|split; reflexivity].
  apply (find_compatible_assist_first_id [] [a2] [a2'] a1
           {| is_compat := fun _ i => Some (String.append "cb:" i) |} 0 "").
  - constructor.
  - reflexivity.
  - discriminate.
  - repeat constructor.
Defined.

Lemma fca_loop_bound cb_node mask assists : forall st,
  cb_f st <> None -> completes (fca_loop cb_node mask st assists) = true.
Proof.
  induction assists as [|a r IH]; intros st Hb; simpl; [done|].
  unfold fca_step. destruct (a_module a) as [m|]; [|by apply IH].
  destruct (mask_ok mask (prop_or_empty a "mask")).
  - destruct (is_compat m cb_node _); by apply IH.
  - destruct (cb_f st) as [[c|]|]; [by apply IH | by apply IH | done].
Qed.

Lemma fca_loop_completes cb_node mask assists : forall st,
  cb_f st = None ->
  completes (fca_loop cb_node mask st assists)
  = match first_loaded assists with
    | Some a => mask_ok mask (prop_or_empty a "mask")
    | None => true
    end.
Proof.
  unfold first_loaded.
  induction assists as [|a r IH]; intros st Hst; simpl; [done|].
  unfold fca_step. destruct (a_module a) as [m|] eqn:Hm; simpl.
  - destruct (mask_ok mask (prop_or_empty a "mask")) eqn:Hk.
    + destruct (is_compat m cb_node _); by apply fca_loop_bound.
    + by rewrite Hst.
  - by apply IH.
Qed.

(** X15. When the lookup fails: [find_compatible_assist] returns its list
    unless the first assist that has a module is turned down by the mask
    check, in which case it raises; once one module has been asked, no later
    assist can make it fail. *)
Theorem find_compatible_assist_returns (assists : list LopperAssist) (cb_node : Z)
    (cb_id mask : string) :
  completes (find_compatible_assist assists cb_node cb_id mask)
  = match first_loaded assists with
    | Some a => mask_ok mask (prop_or_empty a "mask")
    | None => true
    end.
Proof.
  unfold find_compatible_assist.
  rewrite <- (fca_loop_completes cb_node mask assists (fca_init cb_id) eq_refl).
  by destruct (fca_loop cb_node mask (fca_init cb_id) assists).
Qed.

(** ** Locating an assist *)

Lemma pp_name_component s :
  pp_name (Path s) <> "" -> is_component (pp_name (Path s)).
Proof.
  unfold pp_name, Path. simpl.
  set (parts := filter (fun c => c <> "" /\ c <> ".") (PyStr.split "/"%char s)).
  intros Hne.
  assert (Hin : List.last parts "" ∈ parts).
  { destruct (exists_last (l := parts)) as (l & x & Hl).
    - intros Hp. rewrite Hp in Hne. by apply Hne.
    - rewrite Hl, last_last. apply elem_of_app. right. by left. }
  apply list_elem_of_filter in Hin as [[H1 H2] H3].
  split_and!; [done|done|]. by apply (split_parts_no_sep _ s).
Qed.

Lemma pp_name_join s n :
  is_component n -> pp_name (Path (String.append s (String.append "/" n))) = n.
Proof.
  intros (H1 & H2 & H3). unfold pp_name, Path. simpl pp_parts.
  change (String.append "/" n) with (String "/"%char n).
  rewrite split_app_sep, (split_no_sep _ n H3), filter_app.
  rewrite (filter_cons_True _ n) by done. rewrite filter_nil. apply last_last.
Qed.

Lemma is_component_py n : is_component n -> is_component (String.append n ".py").
Proof.
  intros (H1 & H2 & H3). destruct n as [|c n]; [done|]. split_and!.
  - done.
  - simpl. destruct n; discriminate.
  - simpl in *. apply orb_false_iff in H3 as [Hc Hn]. rewrite Hc. simpl.
    clear -Hn. induction n as [|d n IH]; simpl in *; [done|].
    apply orb_false_iff in Hn as [Hd Hn]. rewrite Hd. simpl. by apply IH.
Qed.

Section AssistFindFacts.

Variable resolve : string -> resolved.
Variable lopper_directory : string.

Lemma try_resolve_true m : try_resolve resolve m = PyOk true -> resolve (pp_str m) = Resolves.
Proof. unfold try_resolve. by destruct (resolve (pp_str m)). Qed.

(** What one directory of the search leaves: the path tried last in it. *)
Lemma assist_find_step_last name st s m b :
  is_component name ->
  pp_name (fst st) = name \/ pp_name (fst st) = String.append name ".py" ->
  assist_find_step resolve st s = PyOk (m, b) ->
  (m = Path (String.append s (String.append "/" name)) \/
   m = Path (String.append s (String.append "/" (String.append name ".py")))) /\
  (pp_name m = name \/ pp_name m = String.append name ".py") /\
  (b = true -> resolve (pp_str m) = Resolves).
Proof.
  intros Hn Hinv. unfold assist_find_step.
  set (n := pp_name (fst st)).
  assert (Hcn : is_component n).
  { subst n. destruct Hinv as [->| ->]; [done | by apply is_component_py]. }
  rewrite (pp_name_join s n Hcn).
  destruct (try_resolve resolve (Path (String.append s (String.append "/" n))))
    as [[|]|e|c] eqn:Ht; try discriminate.
  - simpl. intros [= <- <-]. split_and!.
    + subst n. destruct Hinv as [->| ->]; [by left|by right].
    + rewrite pp_name_join by done. exact Hinv.
    + intros _. by apply try_resolve_true.
  - simpl. destruct (PyStr.endswith n ".py") eqn:He; simpl.
    + intros [= <- <-]. split_and!.
      * subst n. destruct Hinv as [->| ->]; [by left|by right].
      * rewrite pp_name_join by done. exact Hinv.
      * discriminate.
    + assert (Hname : n = name).
      { subst n. destruct Hinv as [Hi|Hi]; [done|].
        rewrite Hi, endswith_app in He. discriminate. }
      rewrite Hname.
      destruct (try_resolve resolve
                  (Path (String.append s (String.append "/" (String.append name ".py")))))
        as [b'|e|c] eqn:Ht'; try discriminate.
      intros [= <- <-]. split_and!.
      * by right.
      * right. apply pp_name_join. by apply is_component_py.
      * intros ->. by apply try_resolve_true.
Qed.

Lemma assist_find_loop_last name l : forall st m b,
  is_component name ->
  pp_name (fst st) = name \/ pp_name (fst st) = String.append name ".py" ->
  l <> [] ->
  assist_find_loop resolve st l = PyOk (m, b) ->
  (m = Path (String.append (List.last l "") (String.append "/" name)) \/
   m = Path (String.append (List.last l "")
               (String.append "/" (String.append name ".py")))) /\
  (b = true -> resolve (pp_str m) = Resolves).
Proof.
  induction l as [|s r IH]; intros st m b Hn Hinv Hne Hl; [done|].
  simpl in Hl.
  destruct (assist_find_step resolve st s) as [[m1 b1]|e|c] eqn:Hs; try discriminate.
  destruct (assist_find_step_last name st s m1 b1 Hn Hinv Hs) as (S1 & S2 & S3).
  destruct r as [|s' r].
  - simpl in Hl. injection Hl as <- <-. simpl. by split.
  - change (List.last (s :: s' :: r) "") with (List.last (s' :: r) "").
    by apply (IH (m1, b1)).
Qed.

End AssistFindFacts.

(** X16. A module that [assist_find] hands back exists: the path returned
    is one that resolved, as given or in a search directory. *)
Theorem assist_find_resolves (resolve : string -> resolved) (lopper_directory : string)
    (werror : bool) (assist_name : string) (local_load_paths : list string)
    (mod_file : PurePath) :
  assist_find resolve lopper_directory werror assist_name local_load_paths
    = PyOk (Some mod_file) ->
  resolve (pp_str mod_file) = Resolves.
Proof.
  unfold assist_find.
  destruct (String.eqb (pp_name (Path assist_name)) "") eqn:Hname; [discriminate|].
  apply String.eqb_neq in Hname.
  destruct (resolve (pp_str (Path assist_name))) eqn:Hr; try discriminate.
  - by intros [= <-].
  - destruct (assist_find_loop resolve (Path assist_name, false)
                (search_paths lopper_directory local_load_paths))
      as [[m [|]]|e|c] eqn:Hl; try discriminate.
    + intros [= <-].
      eapply (assist_find_loop_last resolve (pp_name (Path assist_name))); [| | |exact Hl| ].
      * by apply pp_name_component.
      * by left.
      * done.
      * done.
    + by destruct werror.
Qed.

(** [domains] is found as [domains.py] in the directory given for the
    search. *)
Lemma assist_find_resolves_witness :
  assist_find (ex_resolve "/work/assists") "/opt/lopper" false "domains" ["/work/assists"]
    = PyOk (Some (Path "/work/assists/domains.py")) /\
  ex_resolve "/work/assists" (pp_str (Path "/work/assists/domains.py")) = Resolves.
Proof.
  split; [reflexivity|].
  apply (assist_find_resolves (ex_resolve "/work/assists") "/opt/lopper" false "domains"
           ["/work/assists"]).
  reflexivity.
Defined.

(** X17. When the name does not resolve as given, the search goes through
    all directories without stopping at a hit, and each directory replaces
    what the one before found: the module handed back is the one of the last
    search directory, under its name or its name with [.py].  A module that
    only an earlier directory holds is not found. *)
Theorem assist_find_last_directory (resolve : string -> resolved)
    (lopper_directory : string) (werror : bool) (assist_name : string)
    (local_load_paths : list string) (mod_file : PurePath) :
  let name := pp_name (Path assist_name) in
  let last_dir := List.last (search_paths lopper_directory local_load_paths) "" in
  resolve (pp_str (Path assist_name)) = NotFound ->
  assist_find resolve lopper_directory werror assist_name local_load_paths
    = PyOk (Some mod_file) ->
  mod_file = Path (String.append last_dir (String.append "/" name)) \/
  mod_file = Path (String.append last_dir (String.append "/" (String.append name ".py"))).
Proof.
  intros name last_dir Hr. unfold assist_find. fold name.
  destruct (String.eqb name "") eqn:Hname; [discriminate|].
  apply String.eqb_neq in Hname. rewrite Hr.
  destruct (assist_find_loop resolve (Path assist_name, false)
              (search_paths lopper_directory local_load_paths))
    as [[m [|]]|e|c] eqn:Hl; try discriminate.
  - intros [= <-].
    eapply (assist_find_loop_last resolve name); [| | |exact Hl].
    + by apply pp_name_component.
    + by left.
    + done.
  - by destruct werror.
Qed.

(** With [/work/assists] as the one load path, [domains] is found there,
    and it is not found when only lopper's own directory holds it. *)
Lemma assist_find_last_directory_witness :
  (Path "/work/assists/domains.py" = Path "/work/assists/domains" \/
   Path "/work/assists/domains.py" = Path "/work/assists/domains.py") /\
  assist_find (ex_resolve "/opt/lopper") "/opt/lopper" false "domains" ["/work/assists"]
    = PyOk None /\
  assist_find (ex_resolve "/opt/lopper") "/opt/lopper" false "domains" []
    = PyOk None.
Proof.
  split; [|split; reflexivity].
  apply (assist_find_last_directory (ex_resolve "/work/assists") "/opt/lopper" false "domains"
           ["/work/assists"] (Path "/work/assists/domains.py")).
  - reflexivity.
  - reflexivity.
Defined.

(** ** Assists run from the command line *)

Lemma module_arg_string_spaced module_args : module_arg_string module_args = spaced module_args.
Proof.
  unfold module_arg_string.
  assert (Hacc : forall acc,
    fold_left (fun s m => String.append (String.append s " ") m) module_args acc
    = String.append acc (spaced module_args)).
  { induction module_args as [|m r IH]; intros acc; cbn [fold_left spaced].
    - by rewrite append_empty_r.
    - rewrite IH. by rewrite !append_assoc. }
  by rewrite Hacc.
Qed.

Lemma split_spaced m r :
  PyStr.has_char " "%char m = false ->
  Forall (fun a => PyStr.has_char " "%char a = false) r ->
  PyStr.split " "%char (String.append m (spaced r)) = m :: r.
Proof.
  intros Hm Hr. revert m Hm. induction Hr as [|a r Ha Hr IH]; intros m Hm.
  - change (spaced []) with "". rewrite append_empty_r. by apply split_no_sep.
  - change (spaced (a :: r)) with (String " "%char (String.append a (spaced r))).
    rewrite split_app_sep, (split_no_sep _ m Hm). simpl. f_equal. by apply IH.
Qed.

Lemma lstrip_head m s :
  m <> "" -> PyStr.lstrip m = m -> PyStr.lstrip (String.append m s) = String.append m s.
Proof.
  destruct m as [|c m]; [done|]. intros _. simpl.
  destruct (PyStr.is_space c) eqn:Hc; [|done].
  intros Hl. exfalso.
  assert (Hlen : forall t, (String.length (PyStr.lstrip t) <= String.length t)%nat).
  { induction t as [|d t IHt]; simpl; [lia|]. destruct (PyStr.is_space d); simpl; lia. }
  specialize (Hlen m). rewrite Hl in Hlen. simpl in Hlen. lia.
Qed.

(** X18. The arguments of a module survive the way through the generated
    lop: [assist_autorun_setup] joins them into the [options] string, each
    after a space, and the [assist-v1] handler strips that string on the
    left and splits it at the spaces.  For arguments that are not empty and
    hold no space, the first of them not beginning with white space, the
    handler gets back the arguments as they were given. *)
Theorem autorun_args_round_trip (module_name : string) (module_args : list string) :
  module_args <> [] ->
  Forall (fun a => a <> "" /\ PyStr.has_char " "%char a = false) module_args ->
  PyStr.lstrip (List.hd "" module_args) = List.hd "" module_args ->
  exists lop_node p,
    generated_lop (assist_autorun_setup module_name module_args) = Some lop_node /\
    nref_prop lop_node "options" = Some p /\
    assist_cb_opts (p_value p) = PyOk module_args.
Proof.
  intros Hne Hall Hhd. destruct module_args as [|m r]; [done|]. clear Hne.
  eexists. eexists. split; [reflexivity|]. split; [reflexivity|].
  simpl p_value. unfold assist_cb_opts.
  rewrite module_arg_string_spaced.
  apply Forall_cons in Hall as [[Hm Hsp] Hr]. simpl in Hhd.
  change (spaced (m :: r)) with (String " "%char (String.append m (spaced r))).
  change (PyStr.lstrip (String " "%char (String.append m (spaced r))))
    with (PyStr.lstrip (String.append m (spaced r))).
  rewrite (lstrip_head m _ Hm Hhd).
  destruct (String.eqb (String.append m (spaced r)) "") eqn:He.
  { apply String.eqb_eq in He. destruct m; [done|discriminate]. }
  f_equal. apply split_spaced; [done|].
  eapply Forall_impl; [exact Hr|]. by intros a [_ Ha].
Qed.

(** [-- domains --mode safe]: the handler is handed [--mode] and [safe]. *)
Lemma autorun_args_round_trip_witness :
  exists lop_node p,
    generated_lop (assist_autorun_setup "domains" ["--mode"; "safe"]) = Some lop_node /\
    nref_prop lop_node "options" = Some p /\
    assist_cb_opts (p_value p) = PyOk ["--mode"; "safe"].
Proof.
  apply (autorun_args_round_trip "domains" ["--mode"; "safe"]).
  - discriminate.
  - repeat constructor; discriminate.
  - reflexivity.
Defined.

Lemma autorun_priority module_name module_args :
  priority_is 3 (assist_autorun_setup module_name module_args) = true.
Proof. reflexivity. Qed.

Lemma autorun_fold module_name module_args cmdline_assists : forall lops,
  fold_left (fun lops a =>
               assist_autorun_setup a (if String.eqb a module_name then module_args else [])
               :: lops) cmdline_assists lops
  = rev (map (fun a => assist_autorun_setup a
                          (if String.eqb a module_name then module_args else []))
             cmdline_assists) ++ lops.
Proof.
  induction cmdline_assists as [|a r IH]; intros lops; simpl; [done|].
  rewrite IH. by rewrite <- app_assoc.
Qed.

Lemma build_runqueue_buckets lops : forall rq rq',
  build_runqueue rq lops = PyOk rq' ->
  forall pri, rq' !! pri = (fun l => l ++ bucket lops pri) <$> (rq !! pri).
Proof.
  induction lops as [|x r IH]; intros rq rq' Hb pri; simpl in Hb.
  - injection Hb as <-. unfold bucket. simpl.
    destruct (rq !! pri); simpl; [by rewrite app_nil_r|done].
  - unfold enqueue in Hb. destruct (file_priority x) as [z|] eqn:Hz; [|discriminate].
    destruct (rq !! z) as [l|] eqn:Hl; [|discriminate].
    rewrite (IH _ _ Hb pri). unfold bucket.
    destruct (decide (z = pri)) as [->|Hne].
    + rewrite lookup_insert_eq, Hl. simpl.
      rewrite filter_cons_True by (by apply priority_is_iff).
      by rewrite <- app_assoc.
    + rewrite lookup_insert_ne by done.
      rewrite filter_cons_False; [done|].
      rewrite priority_is_iff, Hz. congruence.
Qed.

Lemma autorun_bucket cmdline_assists module_name module_args lops :
  bucket (autorun_lops true cmdline_assists module_name module_args lops) 3
  = rev (map (fun a => assist_autorun_setup a
                         (if String.eqb a module_name then module_args else []))
             cmdline_assists)
    ++ bucket lops 3.
Proof.
  unfold autorun_lops. rewrite autorun_fold.
  unfold bucket. rewrite filter_app. f_equal.
  induction cmdline_assists as [|a r IH]; [done|].
  simpl. rewrite filter_app, IH. f_equal.
Qed.

(** X19. With [--auto] each assist of the command line gets a generated
    lop file of priority 3, and each file is put in front of the ones before
    it.  In the runqueue that [perform_lops] builds, the bucket of priority
    3, which is run in order, holds the generated files in the reverse of
    the order the assists were given in, ahead of the files of that priority
    that were loaded; before them stands only the file that [perform_lops]
    generates itself for a target domain. *)
Theorem autorun_lops_reversed (cmdline_assists : list string) (module_name : string)
    (module_args : list string) (lops : list LopperFile) (target_domain : string)
    (rq : gmap Z (list LopperFile)) :
  let generated :=
    map (fun a => assist_autorun_setup a
                    (if String.eqb a module_name then module_args else []))
        cmdline_assists in
  let all := autorun_lops true cmdline_assists module_name module_args lops in
  build_runqueue empty_runqueue (effective_lops target_domain all) = PyOk rq ->
  all = rev generated ++ lops /\
  rq !! 3 = Some ((if String.eqb target_domain "" then []
                   else [domain_spec "openamp,domain-v1"])
                  ++ rev generated ++ bucket lops 3).
Proof.
  intros generated all Hb.
  assert (Hall : all = rev generated ++ lops).
  { subst all. unfold autorun_lops. by rewrite autorun_fold. }
  split; [exact Hall|].
  rewrite (build_runqueue_buckets _ _ _ Hb 3), empty_runqueue_lookup by lia.
  simpl. f_equal.
  pose proof (autorun_bucket cmdline_assists module_name module_args lops) as Hgen.
  fold all in Hgen. fold generated in Hgen.
  unfold effective_lops. destruct (String.eqb target_domain ""); [exact Hgen|].
  unfold bucket at 1. rewrite filter_cons_True by reflexivity.
  simpl. f_equal. exact Hgen.
Qed.

(** [-a first.py -a second.py --auto] with a target domain, and the loaded
    files [a.dts] of priority 3 and [b.dts] of priority 1: the bucket of
    priority 3 holds the file of the domain, then [second.py], [first.py]
    and [a.dts]. *)
Lemma autorun_lops_reversed_witness :
  exists rq,
    build_runqueue empty_runqueue
      (effective_lops "/domains/openamp_r5"
         (autorun_lops true ["first.py"; "second.py"] "" [] [ex_file_a; ex_file_b]))
      = PyOk rq /\
    rq !! 3 = Some [domain_spec "openamp,domain-v1";
                    assist_autorun_setup "second.py" [];
                    assist_autorun_setup "first.py" [];
                    ex_file_a].
Proof.
  destruct (build_runqueue_ok
              (effective_lops "/domains/openamp_r5"
                 (autorun_lops true ["first.py"; "second.py"] "" [] [ex_file_a; ex_file_b]))
              empty_runqueue) as (rq & Hb & _).
  - intros x Hx. unfold effective_lops, autorun_lops in Hx. simpl in Hx.
    repeat (apply elem_of_cons in Hx as [->|Hx]);
      try (eexists; split; [reflexivity|lia]).
    by apply elem_of_nil in Hx.
  - intros z Hz. rewrite empty_runqueue_lookup by done. eauto.
  - exists rq. split; [exact Hb|].
    apply (autorun_lops_reversed ["first.py"; "second.py"] "" [] [ex_file_a; ex_file_b]
             "/domains/openamp_r5" rq Hb).
Defined.

(** [-a first.py -a second.py --auto]: [second.py] runs before [first.py]. *)
Example autorun_lops_second_first :
  map (fun x => find_prop "id" (n_props (nr_node (default ex_cond_lop_ref (generated_lop x)))))
      (bucket (autorun_lops true ["first.py"; "second.py"] "" [] []) 3)
  = [Some (prop "id" [VStr "module,second.py"]);
     Some (prop "id" [VStr "module,first.py"])].
Proof. reflexivity. Qed.

(** ** The [assist-v1] lop *)

Section AssistLopFacts.

Context `{Externals}.
Variable propval : nref -> string -> list pyval.
Variable compatible_assists : nref -> pyval -> pyresult (list Callable).
Variable cb_run : Callable -> cb_outcome.

Lemma assist_calls_loop_calls sdt cb_node cb_opts cb_funcs :
  let r := assist_calls_loop cb_run sdt cb_node cb_opts cb_funcs in
  map ac_func (fst r) `prefix_of` cb_funcs /\
  Forall (fun c => ac_node c = cb_node /\ ac_args c = cb_opts /\ ac_verbose c = verbose sdt)
         (fst r) /\
  (werror sdt = false \/ Forall (fun cb => cb_run cb <> CbRaise) cb_funcs ->
   map ac_func (fst r) = cb_funcs /\ snd r = PyOk tt).
Proof.
  induction cb_funcs as [|cb r IH]; simpl.
  - split_and!; [done|constructor|done].
  - destruct (assist_calls_loop cb_run sdt cb_node cb_opts r) as [calls res].
    simpl in IH. destruct IH as (I1 & I2 & I3).
    assert (Htl : werror sdt = false \/ Forall (fun cb => cb_run cb <> CbRaise) (cb :: r) ->
                  werror sdt = false \/ Forall (fun cb => cb_run cb <> CbRaise) r).
    { intros [?|Hall]; [by left|right]. by inversion Hall. }
    assert (Hgo : let r' := ({| ac_func := cb; ac_node := cb_node; ac_verbose := verbose sdt;
                               ac_args := cb_opts |} :: calls, res) in
      map ac_func (fst r') `prefix_of` cb :: r /\
      Forall (fun c => ac_node c = cb_node /\ ac_args c = cb_opts /\ ac_verbose c = verbose sdt)
             (fst r') /\
      (werror sdt = false \/ Forall (fun cb => cb_run cb <> CbRaise) (cb :: r) ->
       map ac_func (fst r') = cb :: r /\ snd r' = PyOk tt)).
    { simpl. split_and!.
      - by apply prefix_cons.
      - by constructor.
      - intros Hw. destruct (I3 (Htl Hw)) as [-> ->]. done. }
    destruct (cb_run cb) eqn:Hcb; [exact Hgo|].
    destruct (werror sdt) eqn:Hw; [|exact Hgo].
    simpl. split_and!.
    + apply prefix_cons, prefix_nil.
    + by repeat constructor.
    + intros [?|Hall]; [discriminate|]. inversion Hall; subst. congruence.
Qed.

End AssistLopFacts.

(** X20. The calls an [assist-v1] lop makes: the lop names its target with
    [node]; the calls are made on the first node of the tree that the name
    matches, for the callables the lookup returns for that node and the
    lop's [id], in the order returned, each with the options of the lop
    split at the spaces.  Without [werror], or when no callable raises,
    every callable is called and the handler returns [False]; a callable
    that raises under [werror] is the last one called. *)
Theorem exec_assist_calls `{Externals} (propval : nref -> string -> list pyval)
    (compatible_assists : nref -> pyval -> pyresult (list Callable))
    (cb_run : Callable -> cb_outcome) (sdt : LopperSDT) (root : LopperNode)
    (lop_node : nref) :
  let r := exec_assist propval compatible_assists cb_run sdt root lop_node in
  fst r <> [] ->
  exists name cb_node cb_id cb_opts cb_funcs,
    (nref_prop lop_node "node" ≫= fun p => List.head (p_value p)) = Some (VStr name) /\
    List.head (nodes root name) = Some cb_node /\
    List.head (propval lop_node "id") = Some cb_id /\
    assist_cb_opts (propval lop_node "options") = PyOk cb_opts /\
    compatible_assists cb_node cb_id = PyOk cb_funcs /\
    map ac_func (fst r) `prefix_of` cb_funcs /\
    Forall (fun c => ac_node c = cb_node /\ ac_args c = cb_opts /\ ac_verbose c = verbose sdt)
           (fst r) /\
    (werror sdt = false \/ Forall (fun cb => cb_run cb <> CbRaise) cb_funcs ->
     map ac_func (fst r) = cb_funcs /\ snd r = PyOk (RetBool false)).
Proof.
  intros r. subst r. unfold exec_assist.
  destruct (nref_prop lop_node "node") as [p|]; [|done]. simpl.
  destruct (p_value p) as [|tgt rest]; [done|]. simpl.
  destruct (propval lop_node "assist") as [|cb cbr]; [done|].
  destruct (propval lop_node "id") as [|cb_id idr]; [done|].
  destruct (assist_cb_opts (propval lop_node "options")) as [cb_opts|e|c]; [|done|done].
  destruct tgt as [z|name]; [by destruct (werror sdt)|].
  destruct (List.head (nodes root name)) as [cb_node|] eqn:Hn; [|by destruct (werror sdt)].
  destruct (compatible_assists cb_node cb_id) as [cb_funcs|e|c] eqn:Hf; [|done|done].
  pose proof (assist_calls_loop_calls cb_run sdt cb_node cb_opts cb_funcs) as (L1 & L2 & L3).
  destruct (assist_calls_loop cb_run sdt cb_node cb_opts cb_funcs) as [calls res].
  simpl in L1, L2, L3. intros Hne.
  exists name, cb_node, cb_id, cb_opts, cb_funcs.
  assert (Hfst : fst (match res with
                      | PyOk _ => (calls, PyOk (RetBool false))
                      | PyRaise e => (calls, PyRaise e)
                      | PyExit c => (calls, PyExit c)
                      end) = calls) by (by destruct res).
  rewrite Hfst. split_and!; try done.
  intros Hw. destruct (L3 Hw) as [-> ->]. done.
Qed.

(** The lop for [/chosen] and two compatible callables: both are called on
    [/chosen] with [--mode] and [safe]. *)
Lemma exec_assist_calls_witness :
  let r := @exec_assist mini_externals ex_propval (fun _ _ => PyOk ["first"; "second"])
             ex_cb_run ex_sdt_two ex_chosen ex_assist_lop in
  map (fun c => (ac_func c, abs_path (ac_node c), ac_args c)) (fst r)
    = [("first", "/chosen", ["--mode"; "safe"]); ("second", "/chosen", ["--mode"; "safe"])] /\
  exists name cb_node cb_id cb_opts cb_funcs,
    (nref_prop ex_assist_lop "node" ≫= fun p => List.head (p_value p)) = Some (VStr name) /\
    List.head (@nodes mini_externals ex_chosen name) = Some cb_node /\
    List.head (ex_propval ex_assist_lop "id") = Some cb_id /\
    assist_cb_opts (ex_propval ex_assist_lop "options") = PyOk cb_opts /\
    (fun _ _ => PyOk ["first"; "second"]) cb_node cb_id = PyOk cb_funcs /\
    map ac_func (fst r) `prefix_of` cb_funcs /\
    Forall (fun c => ac_node c = cb_node /\ ac_args c = cb_opts
                     /\ ac_verbose c = verbose ex_sdt_two) (fst r) /\
    (werror ex_sdt_two = false \/ Forall (fun cb => ex_cb_run cb <> CbRaise) cb_funcs ->
     map ac_func (fst r) = cb_funcs /\ snd r = PyOk (RetBool false)).
Proof.
  intros r. split; [reflexivity|].
  apply (@exec_assist_calls mini_externals ex_propval (fun _ _ => PyOk ["first"; "second"])
           ex_cb_run ex_sdt_two ex_chosen ex_assist_lop).
  discriminate.
Defined.

(** ** A generated lop that cannot run *)

(** X21. The lop file that [domain_spec] generates for a target domain
    holds one lop, an [assist-v1] lop with an [id] and without [node]:
    when the walk of [perform_lops] reaches it, the [assist-v1] handler
    finds no target node name and ends the process with status 1, without
    looking at the tree or at the assists. *)
Theorem domain_spec_lop_exits `{Externals} (propval : nref -> string -> list pyval)
    (compatible_assists : nref -> pyval -> pyresult (list Callable))
    (cb_run : Callable -> cb_outcome) (sdt : LopperSDT) (root : LopperNode)
    (tgt_domain_id : string) :
  exists lop_node,
    file_lops (domain_spec tgt_domain_id) = [lop_node] /\
    node_type lop_node = ["system-device-tree-v1,lop,assist-v1"] /\
    exec_assist propval compatible_assists cb_run sdt root lop_node = ([], PyExit 1).
Proof. eexists. split_and!; reflexivity. Qed.

(** ** Setup: the input files *)

Lemma lop_marker_found_existsb datafile :
  lop_marker_found datafile
  = existsb (PyStr.contains "system-device-tree-v1,lop") datafile.
Proof.
  unfold lop_marker_found.
  assert (Hacc : forall found,
    fold_left (fun found line =>
                 if negb found then
                   if PyStr.contains "system-device-tree-v1,lop" line then true else found
                 else found) datafile found
    = found || existsb (PyStr.contains "system-device-tree-v1,lop") datafile).
  { induction datafile as [|line r IH]; intros found; cbn [fold_left existsb].
    - by rewrite orb_false_r.
    - rewrite IH. destruct found; simpl; [done|].
      by destruct (PyStr.contains "system-device-tree-v1,lop" line). }
  by rewrite Hacc.
Qed.

Lemma classify_input_adds readlines yaml_support l s ifile l' s' :
  classify_input readlines yaml_support (l, s) ifile = PyOk (l', s') ->
  l' = l ++ (if is_lop_input readlines ifile then [ifile] else []) /\
  s' = s ++ (if is_sdt_input readlines ifile then [ifile] else []) /\
  (yaml_support = false ->
   PyStr.search_any_then_end "dts" ifile = true \/
   PyStr.search_any_then_end "dtb" ifile = true \/
   PyStr.search_any_then_end "yaml" ifile = false).
Proof.
  assert (Hread : read_for_marker ifile = true ->
    classify_by_content readlines (l, s) ifile = PyOk (l', s') ->
    l' = l ++ (if is_lop_input readlines ifile then [ifile] else []) /\
    s' = s ++ (if is_sdt_input readlines ifile then [ifile] else [])).
  { intros Hr. unfold classify_by_content, is_lop_input, is_sdt_input, has_lop_marker.
    rewrite Hr. destruct (readlines ifile) as [datafile|e|c]; try discriminate.
    rewrite lop_marker_found_existsb.
    destruct (existsb _ datafile); intros [= <- <-]; simpl; by rewrite app_nil_r. }
  unfold classify_input.
  destruct (PyStr.search_any_then_end "dts" ifile) eqn:Hdts.
  { intros Hc. destruct Hread as [-> ->]; [by unfold read_for_marker; rewrite Hdts|done|].
    split_and!; [done|done|by left]. }
  destruct (PyStr.search_any_then_end "dtb" ifile) eqn:Hdtb.
  { intros [= <- <-]. unfold is_lop_input, is_sdt_input, read_for_marker.
    rewrite Hdts, Hdtb. simpl. rewrite app_nil_r. split_and!; [done|done|]. right. by left. }
  destruct (PyStr.search_any_then_end "yaml" ifile) eqn:Hyaml.
  { destruct yaml_support; [|discriminate].
    intros Hc. destruct Hread as [-> ->];
      [by unfold read_for_marker; rewrite Hdts, Hdtb, Hyaml|done|].
    split_and!; [done|done|discriminate]. }
  intros [= <- <-]. unfold is_lop_input, is_sdt_input, read_for_marker.
  rewrite Hdts, Hdtb, Hyaml. simpl. rewrite !app_nil_r. split_and!; [done|done|].
  right. by right.
Qed.

Lemma classify_inputs_adds readlines yaml_support input_files : forall l s l' s',
  classify_inputs readlines yaml_support (l, s) input_files = PyOk (l', s') ->
  l' = l ++ filter (fun f => is_lop_input readlines f = true) input_files /\
  s' = s ++ filter (fun f => is_sdt_input readlines f = true) input_files /\
  (yaml_support = false ->
   Forall (fun f => PyStr.search_any_then_end "dts" f = true \/
                    PyStr.search_any_then_end "dtb" f = true \/
                    PyStr.search_any_then_end "yaml" f = false) input_files).
Proof.
  induction input_files as [|f r IH]; intros l s l' s' Hc; cbn [classify_inputs] in Hc.
  - injection Hc as <- <-. rewrite !filter_nil, !app_nil_r. by split_and!.
  - destruct (classify_input readlines yaml_support (l, s) f) as [[l1 s1]|e|c] eqn:H1;
      try discriminate.
    destruct (classify_input_adds _ _ _ _ _ _ _ H1) as (A1 & A2 & A3).
    destruct (IH _ _ _ _ Hc) as (I1 & I2 & I3).
    rewrite I1, I2, A1, A2, <- !app_assoc. split_and!.
    + f_equal. destruct (is_lop_input readlines f) eqn:E.
      * by rewrite filter_cons_True.
      * rewrite filter_cons_False; [done|congruence].
    + f_equal. destruct (is_sdt_input readlines f) eqn:E.
      * by rewrite filter_cons_True.
      * rewrite filter_cons_False; [done|congruence].
    + intros Hy. constructor; [by apply A3 | by apply I3].
Qed.

(** X22. When [setup] gets through its input files, the lop files are the
    inputs that end in [dtb] after some character, and the inputs read for
    the marker [system-device-tree-v1,lop] (those that end in [dts] or, if
    not in [dtb], in [yaml]) that have it on one of their lines; the inputs
    read that have no marker go to the system device tree; every other
    input is dropped.  Both lists keep the order of the inputs.  Without
    YAML support, no input was a [yaml] one. *)
Theorem setup_inputs_sorted (which : string -> bool)
    (readlines : string -> pyresult (list string)) (yaml_support : bool)
    (input_files lop_files sdt_files : list string) :
  setup_inputs which readlines yaml_support input_files = PyOk (lop_files, sdt_files) ->
  lop_files = filter (fun f => is_lop_input readlines f = true) input_files /\
  sdt_files = filter (fun f => is_sdt_input readlines f = true) input_files /\
  (yaml_support = false ->
   Forall (fun f => PyStr.search_any_then_end "dts" f = true \/
                    PyStr.search_any_then_end "dtb" f = true \/
                    PyStr.search_any_then_end "yaml" f = false) input_files).
Proof.
  unfold setup_inputs. destruct (forallb which ["dtc"; "cpp"]); [|discriminate].
  intros Hc. by destruct (classify_inputs_adds _ _ _ _ _ _ _ Hc) as (-> & -> & H3).
Qed.

(** [lop.dts] has the marker, [extra.dts] has not, [blob.dtb] is not read,
    [notes.txt] is dropped. *)
Lemma setup_inputs_sorted_witness :
  let input_files := ["extra.dts"; "lop.dts"; "notes.txt"; "blob.dtb"] in
  setup_inputs (fun _ => true) ex_readlines false input_files
    = PyOk (["lop.dts"; "blob.dtb"], ["extra.dts"]) /\
  ["lop.dts"; "blob.dtb"] = filter (fun f => is_lop_input ex_readlines f = true) input_files /\
  ["extra.dts"] = filter (fun f => is_sdt_input ex_readlines f = true) input_files.
Proof.
  intros input_files. split; [reflexivity|].
  destruct (setup_inputs_sorted (fun _ => true) ex_readlines false input_files
              ["lop.dts"; "blob.dtb"] ["extra.dts"] eq_refl) as (Hl & Hs & _).
  by split.
Defined.

(** ** The command line *)

Lemma is_one_of_true o a b : is_one_of o a b = true -> o = a \/ o = b.
Proof.
  unfold is_one_of. intros [H|H]%orb_true_iff; apply String.eqb_eq in H; auto.
Qed.

Ltac split_option o a b :=
  let E := fresh "E" in
  destruct (is_one_of o a b) eqn:E;
  [apply is_one_of_true in E as [->| ->] | ].

(** One option: what it adds to the verbosity and to the lists. *)
Lemma main_opt_adds g o a g' :
  main_opt g (o, a) = PyOk g' ->
  g_verbose g' = g_verbose g + (if is_one_of o "-v" "--verbose" then 1 else 0) /\
  g_inputfiles g' = g_inputfiles g ++ (if is_one_of o "-i" "--input" then [a] else []) /\
  g_cmdline_assists g'
    = g_cmdline_assists g ++ (if is_one_of o "-a" "--assist" then [a] else []) /\
  g_load_paths g'
    = g_load_paths g ++ (if is_one_of o "-A" "--assist-path" then PyStr.split ":"%char a else []) /\
  g_xlate g' = g_xlate g ++ (if is_one_of o "-x" "--xlate" then [a] else []).
Proof.
  destruct g. unfold main_opt.
  split_option o "-v" "--verbose";
    [intros [= <-]; simpl; rewrite ?app_nil_r; split_and!; reflexivity ..|].
  split_option o "-i" "--input";
    [intros [= <-]; simpl; rewrite ?app_nil_r, ?Z.add_0_r; split_and!; reflexivity ..|].
  split_option o "-a" "--assist";
    [intros [= <-]; simpl; rewrite ?app_nil_r, ?Z.add_0_r; split_and!; reflexivity ..|].
  split_option o "-A" "--assist-path";
    [intros [= <-]; simpl; rewrite ?app_nil_r, ?Z.add_0_r; split_and!; reflexivity ..|].
  split_option o "-x" "--xlate";
    [intros [= <-]; simpl; rewrite ?app_nil_r, ?Z.add_0_r; split_and!; reflexivity ..|].
  repeat match goal with
         | |- context [if ?c then _ else _] => destruct c
         end;
    intros Hg; try discriminate; injection Hg as <-; simpl;
    rewrite ?app_nil_r, ?Z.add_0_r; split_and!; reflexivity.
Qed.

Lemma main_opts_app g l1 l2 :
  main_opts g (l1 ++ l2) =
  match main_opts g l1 with
  | PyOk g1 => main_opts g1 l2
  | PyRaise e => PyRaise e
  | PyExit c => PyExit c
  end.
Proof.
  revert g. induction l1 as [|oa r IH]; intros g; cbn [main_opts app]; [done|].
  destruct (main_opt g oa); [apply IH|done|done].
Qed.

(** X23. When the options are accepted, the verbosity has grown by the
    number of [-v] / [--verbose] options, and the inputs ([-i]), the assists
    ([-a]), the translations ([-x]) and the assist search paths ([-A], each
    value split at its colons) hold the values given, in the order of the
    command line. *)
Theorem main_opts_accumulate (g g' : Globals) (opts : list (string * string)) :
  main_opts g opts = PyOk g' ->
  g_verbose g' = g_verbose g + Z.of_nat (length (option_values "-v" "--verbose" opts)) /\
  g_inputfiles g' = g_inputfiles g ++ option_values "-i" "--input" opts /\
  g_cmdline_assists g' = g_cmdline_assists g ++ option_values "-a" "--assist" opts /\
  g_xlate g' = g_xlate g ++ option_values "-x" "--xlate" opts /\
  g_load_paths g'
    = g_load_paths g
      ++ concat (map (PyStr.split ":"%char) (option_values "-A" "--assist-path" opts)).
Proof.
  revert g. induction opts as [|[o a] r IH]; intros g Hm; cbn [main_opts] in Hm.
  - injection Hm as <-. unfold option_values. simpl.
    rewrite ?app_nil_r, Z.add_0_r. by split_and!.
  - destruct (main_opt g (o, a)) as [g1|e|c] eqn:H1; try discriminate.
    destruct (main_opt_adds g o a g1 H1) as (A1 & A2 & A3 & A4 & A5).
    destruct (IH g1 Hm) as (I1 & I2 & I3 & I4 & I5).
    rewrite I1, I2, I3, I4, I5, A1, A2, A3, A4, A5. unfold option_values.
    assert (Hf : forall short long,
      filter (fun oa : string * string => is_one_of (fst oa) short long = true) ((o, a) :: r)
      = (if is_one_of o short long then [(o, a)] else [])
        ++ filter (fun oa : string * string => is_one_of (fst oa) short long = true) r).
    { intros short long. destruct (is_one_of o short long) eqn:E.
      - by rewrite filter_cons_True.
      - rewrite filter_cons_False; [done|]. simpl. congruence. }
    rewrite !Hf. split_and!.
    + destruct (is_one_of o "-v" "--verbose"); simpl length; lia.
    + rewrite <- app_assoc. f_equal. by destruct (is_one_of o "-i" "--input").
    + rewrite <- app_assoc. f_equal. by destruct (is_one_of o "-a" "--assist").
    + rewrite <- app_assoc. f_equal. by destruct (is_one_of o "-x" "--xlate").
    + rewrite <- app_assoc. f_equal. by destruct (is_one_of o "-A" "--assist-path").
Qed.

(** [-v -i a.dts -v -A x:y -i b.dts] *)
Lemma main_opts_accumulate_witness :
  let opts := [("-v", ""); ("-i", "a.dts"); ("-v", ""); ("-A", "x:y"); ("-i", "b.dts")] in
  exists g',
    main_opts initial_globals opts = PyOk g' /\
    g_verbose g' = 2 /\ g_inputfiles g' = ["a.dts"; "b.dts"] /\ g_load_paths g' = ["x"; "y"].
Proof.
  intros opts. eexists. split; [reflexivity|].
  destruct (main_opts_accumulate initial_globals _ opts eq_refl) as (Hv & Hi & _ & _ & Hl).
  split_and!; [exact Hv | exact Hi | exact Hl].
Defined.

(** X24. [getopt] is told of the long option [--assist-paths], the loop over
    the options asks for [--assist-path]: given on the command line, the
    long option matches no branch and ends in the [assert False] of the
    loop, whatever came before it and whatever follows. *)
Theorem main_opts_assist_paths (g g1 : Globals) (opts rest : list (string * string))
    (a : string) :
  main_opts g opts = PyOk g1 ->
  main_opts g (opts ++ ("--assist-paths", a) :: rest) = PyRaise "AssertionError".
Proof. intros H1. rewrite main_opts_app, H1. reflexivity. Qed.

Section MainFacts.

Variable sdt_resolves : string -> bool.
Variable path_exists : string -> bool.

(** The arguments before [--], from the second on: only the output is
    set. *)
Lemma main_args_before pre : forall idx g st',
  "--" ∉ pre ->
  main_args sdt_resolves path_exists (S idx) (g, false) pre = PyOk st' ->
  snd st' = false /\
  g_module_name (fst st') = g_module_name g /\
  g_module_args (fst st') = g_module_args g /\
  g_cmdline_assists (fst st') = g_cmdline_assists g /\
  g_sdt (fst st') = g_sdt g.
Proof.
  induction pre as [|item r IH]; intros idx g st' Hn Hm; simpl in Hm.
  - by injection Hm as <-.
  - assert (Hi : String.eqb item "--" = false).
    { apply String.eqb_neq. intros ->. apply Hn. by left. }
    rewrite Hi in Hm. simpl in Hm.
    assert (Hr : "--" ∉ r) by (intros H; apply Hn; by right).
    destruct idx as [|idx].
    + destruct (negb (String.eqb (g_output g) "")); [discriminate|].
      destruct (path_exists item && negb (g_force g)); [discriminate|].
      destruct (IH _ _ _ Hr Hm) as (I1 & I2 & I3 & I4 & I5).
      rewrite I1, I2, I3, I4, I5. by destruct g.
    + exact (IH _ _ _ Hr Hm).
Qed.

(** [-v --assist-paths /work/assists] *)
Lemma main_opts_assist_paths_witness :
  main_opts initial_globals ([("-v", "")] ++ [("--assist-paths", "/work/assists")])
    = PyRaise "AssertionError" /\
  is_one_of "--assist-paths" "-A" "--assist-path" = false.
Proof.
  split; [|reflexivity].
  apply (main_opts_assist_paths initial_globals (set_verbose 1 initial_globals)
           [("-v", "")] [] "/work/assists").
  reflexivity.
Defined.

(** The arguments after the module name. *)
Lemma main_args_module margs : forall idx g st',
  g_module_name g <> "" ->
  main_args sdt_resolves path_exists (S idx) (g, true) margs = PyOk st' ->
  g_module_name (fst st') = g_module_name g /\
  g_module_args (fst st') = g_module_args g ++ filter (fun m => m <> "--") margs /\
  g_cmdline_assists (fst st') = g_cmdline_assists g /\
  g_sdt (fst st') = g_sdt g.
Proof.
  induction margs as [|item r IH]; intros idx g st' Hn Hm; simpl in Hm.
  - injection Hm as <-. simpl. by rewrite app_nil_r.
  - rewrite orb_true_r in Hm. simpl in Hm.
    apply String.eqb_neq in Hn as Hn'. rewrite Hn' in Hm.
    destruct (String.eqb item "--") eqn:Hi; simpl in Hm.
    + apply String.eqb_eq in Hi. subst item.
      rewrite filter_cons_False by (intros H; by apply H).
      exact (IH _ _ _ Hn Hm).
    + apply String.eqb_neq in Hi. rewrite filter_cons_True by done.
      destruct (IH _ _ _ (ltac:(by destruct g) : g_module_name
                  (set_module_args (g_module_args g ++ [item]) g) <> "") Hm)
        as (I1 & I2 & I3 & I4).
      rewrite I1, I2, I3, I4. destruct g; simpl. by rewrite <- app_assoc.
Qed.

Lemma main_args_app l1 : forall idx st l2,
  main_args sdt_resolves path_exists idx st (l1 ++ l2) =
  match main_args sdt_resolves path_exists idx st l1 with
  | PyOk st1 => main_args sdt_resolves path_exists (idx + length l1)%nat st1 l2
  | PyRaise e => PyRaise e
  | PyExit c => PyExit c
  end.
Proof.
  induction l1 as [|item r IH]; intros idx st l2; simpl.
  - by rewrite Nat.add_0_r.
  - destruct (main_arg sdt_resolves path_exists idx st item); [|done|done].
    rewrite IH. by rewrite Nat.add_succ_r.
Qed.

End MainFacts.

(** X25. The arguments after [--]: the first is the name of the module to
    run, which is also added to the assists of the command line, and the
    others are the module's arguments, in order ([--] among them is left
    out).  The arguments between the second and [--] are not read. *)
Theorem main_args_after_dashes (sdt_resolves path_exists : string -> bool)
    (g g' : Globals) (found : bool) (sdt : string) (pre : list string)
    (name : string) (margs : list string) :
  g_module_name g = "" -> g_module_args g = [] ->
  "--" ∉ pre -> name <> "" -> name <> "--" ->
  main_args sdt_resolves path_exists 0 (g, false) (sdt :: pre ++ "--" :: name :: margs)
    = PyOk (g', found) ->
  g_sdt g' = Some sdt /\
  g_module_name g' = name /\
  g_module_args g' = filter (fun m => m <> "--") margs /\
  g_cmdline_assists g' = g_cmdline_assists g ++ [name].
Proof.
  intros Hmn Hma Hpre Hname Hdd Hm.
  simpl in Hm. destruct (sdt_resolves sdt); [|discriminate].
  rewrite main_args_app in Hm.
  destruct (main_args sdt_resolves path_exists 1 (set_sdt (Some sdt) g, false) pre)
    as [[g1 f1]|e|c] eqn:H1; try discriminate.
  destruct (main_args_before sdt_resolves path_exists pre 0 _ _ Hpre H1)
    as (B1 & B2 & B3 & B4 & B5).
  simpl in B1, B2, B3, B4, B5. subst f1.
  replace (1 + length pre)%nat with (S (length pre)) in Hm by lia.
  simpl in Hm.
  assert (Hg1 : g_module_name g1 = "") by (rewrite B2; by destruct g).
  rewrite Hg1 in Hm. simpl in Hm.
  apply String.eqb_neq in Hdd. rewrite Hdd in Hm. simpl in Hm.
  destruct (main_args_module sdt_resolves path_exists margs _ _ _
              (ltac:(by destruct g1) : g_module_name
                 (set_cmdline_assists (g_cmdline_assists g1 ++ [name])
                    (set_module_name name g1)) <> "") Hm)
    as (M1 & M2 & M3 & M4).
  simpl in M1, M2, M3, M4. rewrite M1, M2, M3, M4.
  destruct g1, g; simpl in *. subst. by split_and!.
Qed.

(** [system.dts out.dts -- domains --mode safe] *)
Lemma main_args_after_dashes_witness :
  let args := ["system.dts"; "out.dts"; "--"; "domains"; "--mode"; "safe"] in
  exists g' found,
    main_args (fun _ => true) (fun _ => false) 0 (initial_globals, false) args
      = PyOk (g', found) /\
    g_sdt g' = Some "system.dts" /\
    g_module_name g' = "domains" /\
    g_module_args g' = ["--mode"; "safe"] /\
    g_cmdline_assists g' = ["domains"].
Proof.
  intros args. eexists. eexists. split; [reflexivity|].
  apply (main_args_after_dashes (fun _ => true) (fun _ => false) initial_globals _ true
           "system.dts" ["out.dts"] "domains" ["--mode"; "safe"]).
  - reflexivity.
  - reflexivity.
  - set_solver.
  - discriminate.
  - discriminate.
  - reflexivity.
Defined.

Lemma xlate_file_single x : exists f, xlate_file x = [f].
Proof.
  unfold xlate_file. pose proof (split_nonempty ":"%char x).
  destruct (PyStr.split ":"%char x) as [|t [|l r]]; [done|eauto|eauto].
Qed.

(** X26. The list [x_files] is set anew for each [-x] option: however many
    translations the command line asks for, the lop file of the last one is
    the only one added to the input files, as named if such a file exists,
    else from [lops/]. *)
Theorem main_xlate_last_only (path_exists : string -> bool) (g g' : Globals)
    (xs : list string) (x : string) :
  g_xlate g = xs ++ [x] ->
  main_xlate path_exists g = PyOk g' ->
  exists f, xlate_file x = [f] /\
    g_inputfiles g'
      = g_inputfiles g ++ [if path_exists f then f else String.append "lops/" f].
Proof.
  intros Hx. unfold main_xlate. rewrite Hx.
  destruct (xs ++ [x]) as [|y ys] eqn:Hxs; [by destruct xs|]. rewrite <- Hxs.
  unfold xlate_files. rewrite fold_left_app. simpl.
  destruct (xlate_file_single x) as [f Hf]. rewrite Hf. simpl.
  exists f. split; [done|].
  destruct (path_exists f) eqn:He.
  - injection H as <-. by destruct g.
  - destruct (path_exists (String.append "lops/" f)); [|discriminate].
    injection H as <-. by destruct g.
Qed.

(** [-x a.yaml:first.dts -x b.yaml]: only the generated name for [b.yaml]
    joins the inputs, from [lops/]. *)
Lemma main_xlate_last_only_witness :
  let pe := fun s => String.eqb s "lops/lop-xlate-yaml.dts" in
  let g := set_xlate ["a.yaml:first.dts"; "b.yaml"] initial_globals in
  exists g' f,
    main_xlate pe g = PyOk g' /\
    xlate_file "b.yaml" = [f] /\
    g_inputfiles g' = g_inputfiles g ++ [if pe f then f else String.append "lops/" f] /\
    g_inputfiles g' = ["lops/lop-xlate-yaml.dts"].
Proof.
  intros pe g.
  destruct (main_xlate_last_only pe g (set_inputfiles ["lops/lop-xlate-yaml.dts"] g)
              ["a.yaml:first.dts"] "b.yaml" eq_refl eq_refl) as (f & Hf & Hi).
  exists (set_inputfiles ["lops/lop-xlate-yaml.dts"] g), f.
  split_and!; [reflexivity | exact Hf | exact Hi | reflexivity].
Defined.
